(** * CPU topology discovery and core allocation ([intel/topology.py])

    A shallow embedding of the topology module of CPU-Manager-for-Kubernetes:
    the isolation parser ([parse_isolcpus]), the topology builder ([parse]),
    the [Platform]/[Socket]/[Core]/[CPU] hierarchy and the two allocation
    strategies ([allocate_packed], [allocate_spread]).

    Conventions of the embedding.
    - Python [str] values are [string]s; each character is one code point
      below 256.
    - Python [int]s are [Z].
    - A raised exception is the [Raise] constructor of [result].
    - The interpreter is a 64-bit CPython with its default settings:
      [sys.maxsize] is [2^63 - 1] and [int] converts at most 4300 digits.
      Storage is not bounded: there is no [MemoryError].
    - A [dict] / [OrderedDict] is an association list in insertion order
      (module [OD]); CPython dictionaries iterate in insertion order.
    - The hierarchy and the queries are modelled twice.  The first model
      works on values: a platform is a tree of records and a query returns a
      list of cores.  The second (modules [Heap] and [Stored]) keeps every
      object at an address of a store and shows what a query writes; the two
      are proved to return the same cores ([stored_queries_agree]).

    The definitions come first, the properties after them. *)

From Stdlib Require Import ZArith String Ascii.
From stdpp Require Import base tactics option list list_numbers sorting strings.

Local Open Scope Z_scope.

(** ** Exceptions *)

Inductive exn : Set :=
| ValueError
| IndexError
| KeyError
| TypeError
| OverflowError.

Inductive result (A : Type) : Type :=
| Ok (a : A)
| Raise (e : exn).
Arguments Ok {A} a.
Arguments Raise {A} e.

#[global] Instance result_ret : MRet result := fun _ a => Ok a.
#[global] Instance result_bind : MBind result := fun _ _ f m =>
  match m with
  | Ok a => f a
  | Raise e => Raise e
  end.

Definition is_ok {A} (r : result A) : Prop := ∃ a, r = Ok a.

(** ** Python string primitives *)

Module PyStr.

(** [str.isspace] on one character: TAB..CR, FS..US, SPACE, NEL, NBSP. *)
Definition isspace (c : ascii) : bool :=
  let n := N_of_ascii c in
  (((9 <=? n) && (n <=? 13)) || ((28 <=? n) && (n <=? 32))
   || (n =? 133) || (n =? 160))%N.

(** [sep in s] for a one-character [sep]. *)
Fixpoint contains (sep : ascii) (s : string) : bool :=
  match s with
  | EmptyString => false
  | String c rest => Ascii.eqb c sep || contains sep rest
  end.

(** [s.startswith(c)] for a one-character prefix. *)
Definition startswith (c : ascii) (s : string) : bool :=
  match s with
  | EmptyString => false
  | String d _ => Ascii.eqb d c
  end.

(** Truth value of a string: non-empty. *)
Definition truthy (s : string) : bool :=
  match s with
  | EmptyString => false
  | String _ _ => true
  end.

(** [s.split(sep)] for a one-character separator: never empty, keeps
    empty pieces. *)
Fixpoint split (sep : ascii) (s : string) : list string :=
  match s with
  | EmptyString => [EmptyString]
  | String c rest =>
      if Ascii.eqb c sep then EmptyString :: split sep rest
      else match split sep rest with
           | w :: ws => String c w :: ws
           | [] => [String c EmptyString]
           end
  end.

(** [s.split()]: pieces between runs of whitespace, no empty piece. *)
Fixpoint split_ws (s : string) : list string :=
  match s with
  | EmptyString => []
  | String c rest =>
      if isspace c then split_ws rest
      else match rest with
           | EmptyString => [String c EmptyString]
           | String d _ =>
               if isspace d then String c EmptyString :: split_ws rest
               else match split_ws rest with
                    | w :: ws => String c w :: ws
                    | [] => [String c EmptyString]
                    end
           end
  end.

Fixpoint rstrip (s : string) : string :=
  match s with
  | EmptyString => EmptyString
  | String c rest =>
      match rstrip rest with
      | EmptyString => if isspace c then EmptyString else String c EmptyString
      | r => String c r
      end
  end.

(** The whitespace that [int] passes over on both sides of a literal: TAB
    to CR and SPACE, and beyond ASCII the spaces NEL and NBSP.  The
    separators FS to US, whitespace to [str.isspace], are not whitespace to
    [int]. *)
Definition int_space (c : ascii) : bool :=
  let n := N_of_ascii c in
  (((9 <=? n) && (n <=? 13)) || (n =? 32) || (n =? 133) || (n =? 160))%N.

Fixpoint int_lstrip (s : string) : string :=
  match s with
  | EmptyString => EmptyString
  | String c rest => if int_space c then int_lstrip rest else s
  end.

Fixpoint int_rstrip (s : string) : string :=
  match s with
  | EmptyString => EmptyString
  | String c rest =>
      match int_rstrip rest with
      | EmptyString => if int_space c then EmptyString else String c EmptyString
      | r => String c r
      end
  end.

Definition int_strip (s : string) : string := int_lstrip (int_rstrip s).

Definition digit (c : ascii) : option Z :=
  let n := Z.of_N (N_of_ascii c) in
  if (48 <=? n) && (n <=? 57) then Some (n - 48) else None.

(** Decimal digits, single underscores allowed between two digits.
    [prev] tells whether the previous character was a digit. *)
Fixpoint digits (acc : Z) (prev : bool) (s : string) : option Z :=
  match s with
  | EmptyString => if prev then Some acc else None
  | String c rest =>
      match digit c with
      | Some d => digits (10 * acc + d) true rest
      | None =>
          if Ascii.eqb c "_" && prev then
            match rest with
            | EmptyString => None
            | String _ _ => digits acc false rest
            end
          else None
      end
  end.

(** The number of digit characters of a literal, and the most that [int]
    converts: the interpreter's default, [sys.int_max_str_digits]. *)
Fixpoint digit_count (s : string) : N :=
  match s with
  | EmptyString => 0%N
  | String c rest =>
      ((match digit c with Some _ => 1 | None => 0 end) + digit_count rest)%N
  end.

Definition int_max_str_digits : N := 4300%N.

(** [int(s)] in base ten: surrounding whitespace, an optional sign, then
    digits, no more of them than the limit.  Anything else raises
    [ValueError]. *)
Definition int (s : string) : result Z :=
  let body := int_strip s in
  let parsed :=
    match body with
    | String "+" rest => digits 0 false rest
    | String "-" rest => Z.opp <$> digits 0 false rest
    | _ => digits 0 false body
    end in
  match parsed with
  | Some n =>
      if (digit_count body <=? int_max_str_digits)%N then Ok n
      else Raise ValueError
  | None => Raise ValueError
  end.

(** [list(range(a, b))] and [len(range(a, b))]. *)
Definition range (a b : Z) : list Z := seqZ a (b - a).

Definition range_len (a b : Z) : Z := Z.max 0 (b - a).

(** [sys.maxsize], of a 64-bit interpreter. *)
Definition maxsize : Z := 2 ^ 63 - 1.

(** [l += range(a, b)]: a list takes the length of what it is extended by,
    and the length of a range longer than [sys.maxsize] raises
    [OverflowError].  Storage is not bounded otherwise. *)
Definition extend_range (l : list Z) (a b : Z) : result (list Z) :=
  if range_len a b <=? maxsize then Ok (l ++ range a b)
  else Raise OverflowError.

End PyStr.

(** ** Isolation parser *)

(** Loop body of [parse_cpus_from_isolcpus]; [cpus] is the accumulator. *)
Definition parse_cpu_token (cpus : list Z) (cpu_id : string) : result (list Z) :=
  if negb (PyStr.contains "-" cpu_id) then
    n ← PyStr.int cpu_id;
    mret (cpus ++ [n])
  else
    let cpu_range := PyStr.split "-" cpu_id in
    match cpu_range with
    | [lo_str; hi_str] =>
        lo ← PyStr.int lo_str;
        hi ← PyStr.int hi_str;
        PyStr.extend_range cpus lo (hi + 1)
    | _ => mret cpus
    end.

Fixpoint parse_cpus_loop (cpus_str : list string) (cpus : list Z) : result (list Z) :=
  match cpus_str with
  | [] => mret cpus
  | cpu_id :: rest =>
      cpus' ← parse_cpu_token cpus cpu_id;
      parse_cpus_loop rest cpus'
  end.

Definition parse_cpus_from_isolcpus (cpus_str : list string) : result (list Z) :=
  parse_cpus_loop cpus_str [].

(** Loop body of [parse_isolcpus] over one whitespace-separated field; the
    state is the pair [(isol_cpus, nocbs_cpus)]. *)
Definition parse_field (st : list Z * list Z) (cmdline_field : string)
  : result (list Z * list Z) :=
  let '(isol_cpus, nocbs_cpus) := st in
  let pair := PyStr.split "=" cmdline_field in
  match pair with
  | [key; value] =>
      isol_cpus ←
        (if String.eqb key "isolcpus" then
           l ← parse_cpus_from_isolcpus (PyStr.split "," value);
           mret (isol_cpus ++ l)
         else mret isol_cpus);
      nocbs_cpus ←
        (if String.eqb key "rcu_nocbs" then
           l ← parse_cpus_from_isolcpus (PyStr.split "," value);
           mret (nocbs_cpus ++ l)
         else mret nocbs_cpus);
      mret (isol_cpus, nocbs_cpus)
  | _ => mret st
  end.

Fixpoint parse_fields (cmdline_fields : list string) (st : list Z * list Z)
  : result (list Z * list Z) :=
  match cmdline_fields with
  | [] => mret st
  | f :: rest =>
      st' ← parse_field st f;
      parse_fields rest st'
  end.

(** The two accumulators after the field loop of [parse_isolcpus]. *)
Definition isol_nocbs (cmdline : string) : result (list Z * list Z) :=
  let cmdline_stripped := PyStr.rstrip cmdline in
  let cmdline_fields := PyStr.split_ws cmdline_stripped in
  parse_fields cmdline_fields ([], []).

(** Truth value of a list: non-empty. *)
Definition truthy {A} (l : list A) : bool :=
  match l with [] => false | _ :: _ => true end.

(** [list(set(l))]: the distinct elements of [l].  The iteration order of a
    Python set is not specified, so only membership and the absence of
    duplicates of the result are meaningful. *)
Definition list_of_set (l : list Z) : list Z := remove_dups l.

Definition parse_isolcpus (cmdline : string) : result (list Z) :=
  '(isol_cpus, nocbs_cpus) ← isol_nocbs cmdline;
  let cpus := [] in
  let cpus :=
    if truthy isol_cpus && truthy nocbs_cpus then
      cpus ++ filter (λ x, x ∉ isol_cpus) nocbs_cpus
    else cpus in
  mret (list_of_set cpus).

(** No character of [s] is whitespace. *)
Fixpoint no_space (s : string) : bool :=
  match s with
  | EmptyString => true
  | String c rest => negb (PyStr.isspace c) && no_space rest
  end.

(** Boot-parameter text that [parse_isolcpus] takes: in the values of the
    [isolcpus] and [rcu_nocbs] fields every id and every bound of a
    two-part range is an integer literal, and no such range is longer than
    [sys.maxsize] ([token_ok]).  A token is plain when it is not a
    two-part range ([token_plain]). *)
Definition is_int (s : string) : bool :=
  match PyStr.int s with Ok _ => true | Raise _ => false end.

Definition token_plain (tok : string) : bool :=
  negb (PyStr.contains "-" tok) ||
  negb (length (PyStr.split "-" tok) =? 2)%nat.

Definition token_ok (tok : string) : bool :=
  if negb (PyStr.contains "-" tok) then is_int tok
  else match PyStr.split "-" tok with
       | [lo; hi] =>
           match PyStr.int lo, PyStr.int hi with
           | Ok l, Ok h => PyStr.range_len l (h + 1) <=? PyStr.maxsize
           | _, _ => false
           end
       | _ => true
       end.

Definition field_all (tok_ok : string → bool) (f : string) : bool :=
  match PyStr.split "=" f with
  | [key; value] =>
      if String.eqb key "isolcpus" || String.eqb key "rcu_nocbs"
      then forallb tok_ok (PyStr.split "," value)
      else true
  | _ => true
  end.

Definition field_ok (f : string) : bool := field_all token_ok f.

Definition cmdline_ok (cmdline : string) : bool :=
  forallb field_ok (PyStr.split_ws cmdline).

Definition cmdline_plain (cmdline : string) : bool :=
  forallb (field_all token_plain) (PyStr.split_ws cmdline).

(** ** Ordered dictionaries

    A [dict] or [OrderedDict] with integer keys: the items in insertion
    order.  A dictionary never holds a key twice ([wf]). *)

Module OD.

Definition t (V : Type) : Type := list (Z * V).

Section Ops.
Context {V : Type}.

Definition keys (d : t V) : list Z := d.*1.
Definition values (d : t V) : list V := d.*2.

(** [d[k]]; [None] is a [KeyError]. *)
Fixpoint get (k : Z) (d : t V) : option V :=
  match d with
  | [] => None
  | (k', v) :: rest => if k =? k' then Some v else get k rest
  end.

(** [k in d]. *)
Definition mem (k : Z) (d : t V) : bool :=
  match get k d with Some _ => true | None => false end.

(** [d[k] = v]: a present key keeps its position, a new key goes last. *)
Fixpoint set (k : Z) (v : V) (d : t V) : t V :=
  match d with
  | [] => [(k, v)]
  | (k', v') :: rest =>
      if k =? k' then (k, v) :: rest else (k', v') :: set k v rest
  end.

(** [del d[k]]. *)
Fixpoint del (k : Z) (d : t V) : t V :=
  match d with
  | [] => []
  | (k', v') :: rest => if k =? k' then rest else (k', v') :: del k rest
  end.

(** [OrderedDict(items)]. *)
Definition of_items (items : list (Z * V)) : t V :=
  foldl (λ d kv, set kv.1 kv.2 d) [] items.

Definition wf (d : t V) : Prop := NoDup (keys d).

End Ops.

End OD.

(** [sorted(l, key=key)]: a stable sort, here by insertion. *)
Fixpoint insert_sorted {A} (key : A → Z) (x : A) (l : list A) : list A :=
  match l with
  | [] => [x]
  | y :: l' => if key x <=? key y then x :: l else y :: insert_sorted key x l'
  end.

Definition sorted {A} (key : A → Z) (l : list A) : list A :=
  foldr (insert_sorted key) [] l.

(** ** The topology hierarchy *)

Record CPU : Type := mkCPU {
  cpu_id : Z;
  isolated : bool
}.

Record Core : Type := mkCore {
  core_id : Z;
  pool : option string;
  cpus : OD.t CPU
}.

Record Socket : Type := mkSocket {
  socket_id : Z;
  cores : OD.t Core
}.

Record Platform : Type := mkPlatform {
  sockets : OD.t Socket
}.

(** [CPU.__init__] *)
Definition CPU_init (cpu_id : Z) : CPU :=
  {| cpu_id := cpu_id; isolated := false |}.

(** [Core.__init__]; [None] is the default argument. *)
Definition Core_init (core_id : Z) (cpus : option (OD.t CPU)) : Core :=
  let cpus := match cpus with
              | Some d => if truthy d then d else []
              | None => []
              end in
  {| core_id := core_id;
     pool := None;
     cpus := OD.of_items (sorted (λ pair, cpu_id pair.2) cpus) |}.

(** [Socket.__init__] *)
Definition Socket_init (socket_id : Z) (cores : option (OD.t Core)) : Socket :=
  let cores := match cores with
               | Some d => if truthy d then d else []
               | None => []
               end in
  {| socket_id := socket_id;
     cores := OD.of_items (sorted (λ pair, core_id pair.2) cores) |}.

(** [Core.is_isolated].  The lookup [self.cpus[cpu_id]] is made on a key
    drawn from [self.cpus] and so cannot fail ([OD_get_key]). *)
Definition is_isolated (c : Core) : bool :=
  if (length (cpus c) =? 0)%nat then false
  else
    forallb (λ cpu_id,
               match OD.get cpu_id (cpus c) with
               | Some cpu => isolated cpu
               | None => false
               end)
            (OD.keys (cpus c)).

(** [Socket.get_cores] and [Socket.get_isolated_cores] *)
Definition Socket_get_cores (s : Socket) : list Core := OD.values (cores s).

Definition Socket_get_isolated_cores (s : Socket) : list Core :=
  List.filter is_isolated (OD.values (cores s)).

(** ** Topology builder *)

(** The ids that one line of the topology source gives, in the order the
    source converts them. *)
Record LineIds : Type := mkLineIds {
  line_socket : Z;
  line_core : Z;
  line_cpu : Z
}.

(** First half of the loop body of [parse]: the test on the line and the
    three conversions; [None] for a line that is skipped. *)
Definition line_ids (line : string) : result (option LineIds) :=
  if PyStr.truthy line && negb (PyStr.startswith "#" line) then
    let cpuinfo := PyStr.split "," line in
    socket_id' ← from_option PyStr.int (Raise IndexError) (cpuinfo !! 2%nat);
    core_id' ← from_option PyStr.int (Raise IndexError) (cpuinfo !! 1%nat);
    cpu_id' ← from_option PyStr.int (Raise IndexError) (cpuinfo !! 0%nat);
    mret (Some (mkLineIds socket_id' core_id' cpu_id'))
  else mret None.

(** Second half of the loop body of [parse]; [sockets] is the dictionary
    under construction and the primed names are the three parsed ids.  The
    new CPU is stored in its core, the core in its socket and the socket in
    [sockets]: in the source all three are the same shared objects, mutated
    in place.  The two lookups follow an insertion of the key when it was
    missing, so they do not fail. *)
Definition add_cpu (isolated_cpus : list Z) (sockets : OD.t Socket)
    (socket_id' core_id' cpu_id' : Z) : result (OD.t Socket) :=
  let sockets :=
    if negb (OD.mem socket_id' sockets)
    then OD.set socket_id' (Socket_init socket_id' None) sockets
    else sockets in
  socket ← from_option Ok (Raise KeyError) (OD.get socket_id' sockets);
  let socket_cores :=
    if negb (OD.mem core_id' (cores socket))
    then OD.set core_id' (Core_init core_id' None) (cores socket)
    else cores socket in
  core ← from_option Ok (Raise KeyError) (OD.get core_id' socket_cores);
  let cpu := CPU_init cpu_id' in
  let cpu :=
    if bool_decide (cpu_id cpu ∈ isolated_cpus)
    then {| cpu_id := cpu_id cpu; isolated := true |}
    else cpu in
  let core := {| core_id := core_id core; pool := pool core;
                 cpus := OD.set cpu_id' cpu (cpus core) |} in
  let socket := {| socket_id := socket_id socket;
                   cores := OD.set core_id' core socket_cores |} in
  mret (OD.set socket_id' socket sockets).

(** Body of the loop of [parse] over one line. *)
Definition parse_line (isolated_cpus : list Z) (sockets : OD.t Socket)
    (line : string) : result (OD.t Socket) :=
  ids ← line_ids line;
  match ids with
  | Some ids =>
      add_cpu isolated_cpus sockets (line_socket ids) (line_core ids) (line_cpu ids)
  | None => mret sockets
  end.

Fixpoint parse_lines (isolated_cpus : list Z) (lines : list string)
    (sockets : OD.t Socket) : result (OD.t Socket) :=
  match lines with
  | [] => mret sockets
  | line :: rest =>
      sockets' ← parse_line isolated_cpus sockets line;
      parse_lines isolated_cpus rest sockets'
  end.

(** [parse(lscpu_output, isolated_cpus=None)]; a newline is character 10. *)
Definition parse (lscpu_output : string) (isolated_cpus : option (list Z))
  : result Platform :=
  let isolated_cpus := match isolated_cpus with
                       | Some l => if truthy l then l else []
                       | None => []
                       end in
  sockets ← parse_lines isolated_cpus
               (PyStr.split (ascii_of_nat 10) lscpu_output) [];
  mret {| sockets := sockets |}.

(** Every CPU of a platform, socket by socket and core by core. *)
Definition Core_cpus (c : Core) : list CPU := OD.values (cpus c).

Definition Socket_cpus (s : Socket) : list CPU :=
  concat (Core_cpus <$> OD.values (cores s)).

Definition Platform_cpus (p : Platform) : list CPU :=
  concat (Socket_cpus <$> OD.values (sockets p)).

(** The ids under which a socket lists its cores, and a core its CPUs. *)
Definition Socket_core_ids (s : Socket) : list Z := core_id <$> OD.values (cores s).
Definition Core_cpu_ids (c : Core) : list Z := cpu_id <$> OD.values (cpus c).

(** Ascending order of a list of ids. *)
Definition ascending (l : list Z) : Prop := Sorted Z.le l.

(** The isolation flag every CPU built by [parse] must carry. *)
Definition cpu_flag_ok (isolated_cpus : list Z) (cpu : CPU) : Prop :=
  isolated cpu = bool_decide (cpu_id cpu ∈ isolated_cpus).

Definition sockets_flag_ok (isolated_cpus : list Z) (d : OD.t Socket) : Prop :=
  ∀ s c cpu,
    s ∈ OD.values d → c ∈ OD.values (cores s) → cpu ∈ OD.values (cpus c) →
    cpu_flag_ok isolated_cpus cpu.

(** ** Allocation *)

(** The core list a socket contributes: [get_isolated_cores()] when
    [isolated_cores] holds, [get_cores()] otherwise. *)
Definition selected_cores (isolated_cores : bool) (s : Socket) : list Core :=
  if isolated_cores then Socket_get_isolated_cores s else Socket_get_cores s.

(** [Platform.allocate_packed] *)
Definition allocate_packed (p : Platform) (isolated_cores : bool) : list Core :=
  foldl (λ cores socket, cores ++ selected_cores isolated_cores socket)
        [] (OD.values (sockets p)).

(** First loop of [Platform.allocate_spread]: the remaining cores of each
    socket, under the socket's key.  [get] produces the list a socket
    contributes; it is given the key as well as the socket. *)
Definition spread_init {A} (get : Z → Socket → list A) (p : Platform)
  : OD.t (list A) :=
  foldl (λ socket_cores socket,
           match OD.get socket (sockets p) with
           | Some s => OD.set socket (get socket s) socket_cores
           | None => socket_cores
           end)
        [] (OD.keys (sockets p)).

(** Body of the inner [for] loop of [allocate_spread] for one key of the
    snapshot [sockets].  The key was in [socket_cores] when the snapshot was
    taken and is removed at most here, so the lookup cannot fail. *)
Definition spread_step {A} (st : OD.t (list A) * list A) (socket : Z)
  : OD.t (list A) * list A :=
  let '(socket_cores, output_cores) := st in
  match OD.get socket socket_cores with
  | Some [] => (OD.del socket socket_cores, output_cores)
  | Some (core :: rest) =>
      (OD.set socket rest socket_cores, output_cores ++ [core])
  | None => st
  end.

(** One pass of the [while] loop body. *)
Definition spread_round {A} (st : OD.t (list A) * list A)
  : OD.t (list A) * list A :=
  foldl spread_step st (OD.keys st.1).

(** The [while] loop, at most [fuel] passes; [None] when the passes did not
    empty [socket_cores]. *)
Fixpoint spread_loop {A} (fuel : nat) (st : OD.t (list A) * list A)
  : option (list A) :=
  if (0 <? length st.1)%nat then
    match fuel with
    | O => None
    | S fuel' => spread_loop fuel' (spread_round st)
    end
  else Some st.2.

(** Passes that always suffice: every pass removes a core or a key. *)
Definition spread_fuel {A} (socket_cores : OD.t (list A)) : nat :=
  length socket_cores + length (concat (OD.values socket_cores)).

Definition spread {A} (get : Z → Socket → list A) (p : Platform)
  : option (list A) :=
  let socket_cores := spread_init get p in
  spread_loop (spread_fuel socket_cores) (socket_cores, []).

(** [Platform.allocate_spread]; [None] stands for a loop that does not end. *)
Definition allocate_spread (p : Platform) (isolated_cores : bool)
  : option (list Core) :=
  spread (λ _, selected_cores isolated_cores) p.

(** [Platform.get_cores_general]; [None] stands for a call that returns no
    list: the spread loop did not end, or control left the function by its
    last line. *)
Definition get_cores_general (p : Platform) (mode : string) (isolated : bool)
  : option (list Core) :=
  let mode :=
    if negb (bool_decide (mode ∈ ["spread"%string; "packed"%string]))
    then "packed"%string else mode in
  if String.eqb mode "packed" then Some (allocate_packed p isolated)
  else if String.eqb mode "spread" then allocate_spread p isolated
  else None.

(** [Platform.get_cores] and [Platform.get_isolated_cores] *)
Definition Platform_get_cores (p : Platform) (mode : string) :=
  get_cores_general p mode false.

Definition Platform_get_isolated_cores (p : Platform) (mode : string) :=
  get_cores_general p mode true.

(** The spread loop run on cores labelled with the key of their socket:
    the same loop, whose output also records where each core came from. *)
Definition labelled_cores (isolated_cores : bool) (key : Z) (s : Socket)
  : list (Z * Core) :=
  (λ c, (key, c)) <$> selected_cores isolated_cores s.

Definition allocate_spread_labelled (p : Platform) (isolated_cores : bool)
  : option (list (Z * Core)) :=
  spread (labelled_cores isolated_cores) p.

(** What one pass of the spread loop outputs and what it leaves: the first
    element of every non-empty list, and the rest of those lists. *)
Fixpoint round_heads {A} (socket_cores : OD.t (list A)) : list A :=
  match socket_cores with
  | [] => []
  | (_, []) :: d => round_heads d
  | (_, x :: _) :: d => x :: round_heads d
  end.

Fixpoint round_tails {A} (socket_cores : OD.t (list A)) : OD.t (list A) :=
  match socket_cores with
  | [] => []
  | (_, []) :: d => round_tails d
  | (k, _ :: rest) :: d => (k, rest) :: round_tails d
  end.

(** The outputs of [n] successive passes. *)
Fixpoint rounds {A} (n : nat) (socket_cores : OD.t (list A)) : list (list A) :=
  match n with
  | O => []
  | S n' => round_heads socket_cores :: rounds n' (round_tails socket_cores)
  end.

(** Number of occurrences of a socket key in a list of keys. *)
Definition occurrences (t : Z) (l : list Z) : nat :=
  length (List.filter (Z.eqb t) l).

(** Successive rounds of socket keys: no key twice in a round, and every
    round a subsequence of each earlier one. *)
Inductive rr_rounds : list (list Z) → Prop :=
| rr_rounds_nil : rr_rounds []
| rr_rounds_cons K Ks :
    NoDup K → (∀ K', K' ∈ Ks → K' `sublist_of` K) → rr_rounds Ks →
    rr_rounds (K :: Ks).

(** Every list of the dictionary repeats the key it is stored under. *)
Definition key_lists (sc : OD.t (list Z)) : Prop :=
  Forall (λ kl : Z * list Z, Forall (eq kl.1) kl.2) sc.

(** [f] applied to every element of every list of a dictionary. *)
Definition map_lists {A B} (f : A → B) (sc : OD.t (list A)) : OD.t (list B) :=
  (λ kl : Z * list A, (kl.1, f <$> kl.2)) <$> sc.

(** ** Allocation over a store of shared objects

    The allocation queries once more, this time with every Python object at
    an address of a store, so that what a call mutates is visible.  A list
    or dictionary holds the addresses of its elements; a list comprehension
    and a literal allocate a new object; [del], [append], [+=] and item
    assignment overwrite the object they are applied to. *)

Module Heap.

(** Addresses are positions in the store. *)
Abbreviation loc := nat (only parsing).

Inductive obj : Type :=
| OCPU (cpu_id : Z) (isolated : bool)
| OCore (core_id : Z) (pool : option string) (cpus : loc)
| OSocket (socket_id : Z) (cores : loc)
| OPlatform (sockets : loc)
| ODict (items : OD.t loc)
| OList (items : list loc).

Abbreviation heap := (list obj) (only parsing).

(** How a run ends: with a value, with an exception, or cut off because the
    [while] loop used up its passes. *)
Inductive outcome (A : Type) : Type :=
| Ret (a : A)
| Exc (e : exn)
| OutOfFuel.
Arguments Ret {A} a.
Arguments Exc {A} e.
Arguments OutOfFuel {A}.

(** A computation also returns the store it leaves, however it ends. *)
Definition M (A : Type) : Type := heap → outcome A * heap.

#[global] Instance M_ret : MRet M := λ _ a h, (Ret a, h).
#[global] Instance M_bind : MBind M := λ _ _ f m h,
  match m h with
  | (Ret a, h') => f a h'
  | (Exc e, h') => (Exc e, h')
  | (OutOfFuel, h') => (OutOfFuel, h')
  end.

Definition raise {A} (e : exn) : M A := λ h, (Exc e, h).
Definition out_of_fuel {A} : M A := λ h, (OutOfFuel, h).

Definition alloc (o : obj) : M loc := λ h, (Ret (length h), h ++ [o]).

Definition read (l : loc) : M obj := λ h,
  match h !! l with
  | Some o => (Ret o, h)
  | None => (Exc TypeError, h)
  end.

Definition write (l : loc) (o : obj) : M unit := λ h,
  if (l <? length h)%nat then (Ret tt, <[l := o]> h) else (Exc TypeError, h).

Definition read_dict (l : loc) : M (OD.t loc) :=
  o ← read l;
  match o with ODict items => mret items | _ => raise TypeError end.

Definition read_list (l : loc) : M (list loc) :=
  o ← read l;
  match o with OList items => mret items | _ => raise TypeError end.

(** [d[k]] on the dictionary at [d]. *)
Definition dict_get (d : loc) (k : Z) : M loc :=
  items ← read_dict d;
  match OD.get k items with Some v => mret v | None => raise KeyError end.

(** [d[k] = v] and [del d[k]] on the dictionary at [d]. *)
Definition dict_set (d : loc) (k : Z) (v : loc) : M unit :=
  items ← read_dict d; write d (ODict (OD.set k v items)).

Definition dict_del (d : loc) (k : Z) : M unit :=
  items ← read_dict d; write d (ODict (OD.del k items)).

(** [l.append(x)], [l += xs] and [del l[0]] on the list at [l]. *)
Definition list_append (l : loc) (x : loc) : M unit :=
  items ← read_list l; write l (OList (items ++ [x])).

Definition list_extend (l : loc) (xs : list loc) : M unit :=
  items ← read_list l; write l (OList (items ++ xs)).

Definition list_del_head (l : loc) : M unit :=
  items ← read_list l;
  match items with
  | [] => raise IndexError
  | _ :: rest => write l (OList rest)
  end.

(** A [for] loop without early exit. *)
Fixpoint for_each {A} (xs : list A) (body : A → M unit) : M unit :=
  match xs with
  | [] => mret tt
  | x :: rest => body x;; for_each rest body
  end.

(** The store [h'] keeps every object that the store [h] holds below
    address [n], and is at least as long. *)
Definition preserves (n : nat) (h h' : heap) : Prop :=
  (length h ≤ length h')%nat ∧ ∀ l, (l < n)%nat → h' !! l = h !! l.

(** The dictionary at [d], if there is one, only holds addresses from [n] on. *)
Definition fresh_values (n : nat) (d : loc) (h : heap) : Prop :=
  ∀ items, h !! d = Some (ODict items) → Forall (λ v, (n ≤ v)%nat) (OD.values items).

End Heap.

(** *** The allocation queries on stored objects *)

Module Stored.
Import Heap.

(** Attribute reads. *)
Definition Core_cpus (c : loc) : M loc :=
  o ← read c;
  match o with OCore _ _ cpus => mret cpus | _ => raise TypeError end.

Definition CPU_isolated (c : loc) : M bool :=
  o ← read c;
  match o with OCPU _ isolated => mret isolated | _ => raise TypeError end.

Definition Socket_cores (s : loc) : M loc :=
  o ← read s;
  match o with OSocket _ cores => mret cores | _ => raise TypeError end.

Definition Platform_sockets (p : loc) : M loc :=
  o ← read p;
  match o with OPlatform sockets => mret sockets | _ => raise TypeError end.

(** The [for] loop of [Core.is_isolated], with its early [return False]. *)
Fixpoint is_isolated_loop (cpus : loc) (keys : list Z) : M bool :=
  match keys with
  | [] => mret true
  | cpu_id :: rest =>
      cpu ← dict_get cpus cpu_id;
      isolated ← CPU_isolated cpu;
      if negb isolated then mret false else is_isolated_loop cpus rest
  end.

Definition is_isolated (self : loc) : M bool :=
  cpus ← Core_cpus self;
  items ← read_dict cpus;
  if (length items =? 0)%nat then mret false
  else is_isolated_loop cpus (OD.keys items).

(** [[core for core in cores if core.is_isolated()]] *)
Fixpoint filter_isolated (cores : list loc) : M (list loc) :=
  match cores with
  | [] => mret []
  | core :: rest =>
      b ← is_isolated core;
      rest' ← filter_isolated rest;
      mret (if b : bool then core :: rest' else rest')
  end.

(** [Socket.get_cores], [Socket.get_isolated_cores]: a new list each call. *)
Definition Socket_get_cores (self : loc) : M loc :=
  cores ← Socket_cores self;
  items ← read_dict cores;
  alloc (OList (OD.values items)).

Definition Socket_get_isolated_cores (self : loc) : M loc :=
  cores ← Socket_cores self;
  items ← read_dict cores;
  selected ← filter_isolated (OD.values items);
  alloc (OList selected).

Definition selected_cores (isolated_cores : bool) (socket : loc) : M loc :=
  if isolated_cores then Socket_get_isolated_cores socket
  else Socket_get_cores socket.

(** [Platform.allocate_packed] *)
Definition allocate_packed (self : loc) (isolated_cores : bool) : M loc :=
  cores ← alloc (OList []);
  sockets ← Platform_sockets self;
  items ← read_dict sockets;
  for_each (OD.values items) (λ socket,
    l ← selected_cores isolated_cores socket;
    xs ← read_list l;
    list_extend cores xs);;
  mret cores.

(** Body of the inner [for] loop of [allocate_spread]. *)
Definition spread_step (socket_cores output_cores : loc) (socket : Z) : M unit :=
  l ← dict_get socket_cores socket;
  xs ← read_list l;
  if (length xs =? 0)%nat then dict_del socket_cores socket
  else
    l0 ← dict_get socket_cores socket;
    xs0 ← read_list l0;
    match xs0 with
    | [] => raise IndexError
    | core :: _ =>
        list_append output_cores core;;
        l1 ← dict_get socket_cores socket;
        list_del_head l1
    end.

(** The [while] loop of [allocate_spread], at most [fuel] passes. *)
Fixpoint spread_loop (fuel : nat) (socket_cores output_cores : loc) : M unit :=
  items ← read_dict socket_cores;
  if (0 <? length items)%nat then
    match fuel with
    | O => out_of_fuel
    | S fuel' =>
        for_each (OD.keys items) (spread_step socket_cores output_cores);;
        spread_loop fuel' socket_cores output_cores
    end
  else mret tt.

(** [Platform.allocate_spread] *)
Definition allocate_spread (fuel : nat) (self : loc) (isolated_cores : bool)
  : M loc :=
  output_cores ← alloc (OList []);
  socket_cores ← alloc (ODict []);
  sockets ← Platform_sockets self;
  items ← read_dict sockets;
  for_each (OD.keys items) (λ socket,
    s ← dict_get sockets socket;
    l ← selected_cores isolated_cores s;
    dict_set socket_cores socket l);;
  spread_loop fuel socket_cores output_cores;;
  mret output_cores.

(** [Platform.get_cores_general]; the value [None] is Python's. *)
Definition get_cores_general (fuel : nat) (self : loc) (mode : string)
    (isolated : bool) : M (option loc) :=
  let mode :=
    if negb (bool_decide (mode ∈ ["spread"%string; "packed"%string]))
    then "packed"%string else mode in
  if String.eqb mode "packed" then
    l ← allocate_packed self isolated; mret (Some l)
  else if String.eqb mode "spread" then
    l ← allocate_spread fuel self isolated; mret (Some l)
  else mret None.

Definition get_cores (fuel : nat) (self : loc) (mode : string) : M (option loc) :=
  get_cores_general fuel self mode false.

Definition get_isolated_cores (fuel : nat) (self : loc) (mode : string)
  : M (option loc) :=
  get_cores_general fuel self mode true.

End Stored.


(** Reasoning about runs against a protected prefix of the store: from a
    store of length at least [n] that satisfies [P], the run of [m] keeps
    the objects below [n], and a value it returns satisfies [Q] with the
    final store. *)
Definition triple {A} (n : nat) (P : Heap.heap → Prop) (m : Heap.M A)
    (Q : A → Heap.heap → Prop) : Prop :=
  ∀ h, (n ≤ length h)%nat → P h →
       Heap.preserves n h (m h).2 ∧ ∀ a, (m h).1 = Heap.Ret a → Q a (m h).2.

(** A run that leaves the store as it is. *)
Definition read_only {A} (m : Heap.M A) : Prop := ∀ h, (m h).2 = h.

(** Invariant of [allocate_spread]: the dictionary [socket_cores] at [d]
    exists and only holds lists that the call itself allocated. *)
Definition spread_inv (n : nat) (d : Heap.loc) (h : Heap.heap) : Prop :=
  (d < length h)%nat ∧ Heap.fresh_values n d h.

(** A property of the store that overwriting a list with a list keeps. *)
Definition stable_list_writes (P : Heap.heap → Prop) : Prop :=
  ∀ h l xs, P h → (l < length h)%nat → P (<[l := Heap.OList xs]> h).

(** A property of the store that allocating keeps. *)
Definition stable_alloc (P : Heap.heap → Prop) : Prop :=
  ∀ h o, P h → P (h ++ [o]).

(** *** Storing a platform

    The objects of a platform laid out in a store: every CPU, core, socket
    and dictionary at an address of its own. *)

Module Layout.
Import Heap.

Fixpoint store_items {V} (store_value : V → M loc) (d : OD.t V) : M (OD.t loc) :=
  match d with
  | [] => mret []
  | (k, v) :: rest =>
      l ← store_value v;
      items ← store_items store_value rest;
      mret ((k, l) :: items)
  end.

Definition store_dict {V} (store_value : V → M loc) (d : OD.t V) : M loc :=
  items ← store_items store_value d; alloc (ODict items).

Definition store_cpu (cpu : CPU) : M loc :=
  alloc (OCPU (cpu_id cpu) (isolated cpu)).

Definition store_core (c : Core) : M loc :=
  d ← store_dict store_cpu (cpus c);
  alloc (OCore (core_id c) (pool c) d).

Definition store_socket (s : Socket) : M loc :=
  d ← store_dict store_core (cores s);
  alloc (OSocket (socket_id s) d).

Definition store_platform (p : Platform) : M loc :=
  d ← store_dict store_socket (sockets p);
  alloc (OPlatform d).

(** The [core_id]s of the cores listed at address [l]. *)
Definition core_ids_at (h : heap) (l : loc) : option (list Z) :=
  match h !! l with
  | Some (OList cores) =>
      mapM (λ c, match h !! c with
                 | Some (OCore core_id _ _) => Some core_id
                 | _ => None
                 end) cores
  | _ => None
  end.

End Layout.

(** *** Stores that hold a platform

    What it means for the object at an address to be a given CPU, core,
    socket or platform: the attributes agree and the dictionaries list the
    same keys in the same order, each with the address of its value. *)

Definition repr_items {V} (R : nat → V → Prop) (items : OD.t nat) (d : OD.t V)
  : Prop :=
  Forall2 (λ (il : Z * nat) (kv : Z * V), il.1 = kv.1 ∧ R il.2 kv.2) items d.

Definition repr_dict {V} (R : nat → V → Prop) (h : list Heap.obj) (l : nat)
    (d : OD.t V) : Prop :=
  ∃ items, h !! l = Some (Heap.ODict items) ∧ repr_items R items d.

Definition repr_cpu (h : list Heap.obj) (l : nat) (cpu : CPU) : Prop :=
  h !! l = Some (Heap.OCPU (cpu_id cpu) (isolated cpu)).

Definition repr_core (h : list Heap.obj) (l : nat) (c : Core) : Prop :=
  ∃ dl, h !! l = Some (Heap.OCore (core_id c) (pool c) dl) ∧
        repr_dict (repr_cpu h) h dl (cpus c).

Definition repr_socket (h : list Heap.obj) (l : nat) (s : Socket) : Prop :=
  ∃ dl, h !! l = Some (Heap.OSocket (socket_id s) dl) ∧
        repr_dict (repr_core h) h dl (cores s).

Definition repr_platform (h : list Heap.obj) (l : nat) (p : Platform) : Prop :=
  ∃ dl, h !! l = Some (Heap.OPlatform dl) ∧
        repr_dict (repr_socket h) h dl (sockets p).

(** Every object of [h] is still there in [h']. *)
Definition heap_le (h h' : list Heap.obj) : Prop :=
  ∀ l o, h !! l = Some o → h' !! l = Some o.

(** The state of the spread loop as the store holds it: the dictionary at
    [d] lists, under the keys of [sc], the addresses of lists that hold the
    elements of [sc]; the list at [o] holds [out]; all these objects are
    distinct. *)
Definition spread_state (d o : nat) (h : list Heap.obj)
    (st : OD.t (list nat) * list nat) : Prop :=
  ∃ ditems,
    h !! d = Some (Heap.ODict ditems) ∧
    h !! o = Some (Heap.OList st.2) ∧
    Forall2 (λ (di : Z * nat) (e : Z * list nat),
               di.1 = e.1 ∧ h !! di.2 = Some (Heap.OList e.2)) ditems st.1 ∧
    NoDup (d :: o :: OD.values ditems).

(** The lists of addresses [sc] hold, socket by socket, the cores that the
    sockets [socks] contribute. *)
Definition repr_lists (h : list Heap.obj) (isolated_cores : bool)
    (sc : OD.t (list nat)) (socks : OD.t Socket) : Prop :=
  Forall2 (λ (e : Z * list nat) (ks : Z * Socket),
             e.1 = ks.1 ∧
             Forall2 (repr_core h) e.2 (selected_cores isolated_cores ks.2))
          sc socks.

(** ** Sample inputs and auxiliary definitions *)

(** A topology source with a header line; CPU 3 shares core 0 with CPU 0. *)
Definition lscpu_sample : string :=
  "# CPU,Core,Socket,Node,,L1d,L1i,L2,L3
0,0,0,0,,0,0,0,0
1,1,0,0,,1,1,1,0
2,2,1,0,,2,2,2,0
3,0,0,0,,0,0,0,0
".

(** Order of two elements by their sort key. *)
Definition key_le {A} (key : A → Z) (x y : A) : Prop := key x ≤ key y.

(** Two topology sources whose lines list core 1 before core 0, and CPU 1
    before CPU 0 of one core. *)
Definition lscpu_cores_descending : string :=
  "0,1,0
1,0,0".

Definition lscpu_cpus_descending : string :=
  "1,0,0
0,0,0".

(** A platform of two sockets, with three cores and one core. *)
Definition two_sockets : Platform :=
  {| sockets :=
       [(0, {| socket_id := 0;
               cores := [(0, mkCore 0 None [(0, mkCPU 0 true)]);
                         (1, mkCore 1 None [(1, mkCPU 1 false)]);
                         (2, mkCore 2 None [(2, mkCPU 2 true)])] |});
        (1, {| socket_id := 1;
               cores := [(3, mkCore 3 None [(3, mkCPU 3 true)])] |})] |}.

(** The entry of [socket_cores] that the first loop of [allocate_spread]
    makes for a socket. *)
Definition entry_of {A} (get : Z → Socket → list A) (ks : Z * Socket)
  : Z * list A :=
  (ks.1, get ks.1 ks.2).

(** The platform [two_sockets] in an empty store: its address and the store. *)
Definition two_sockets_stored : Heap.outcome nat * list Heap.obj :=
  Layout.store_platform two_sockets [].

(** *** Order of first appearance *)

(** The ids of the lines of a topology source that [parse] does not skip. *)
Fixpoint parse_records (lines : list string) : result (list LineIds) :=
  match lines with
  | [] => mret []
  | line :: rest =>
      ids ← line_ids line;
      recs ← parse_records rest;
      mret (match ids with Some r => r :: recs | None => recs end)
  end.

(** [x] added to [l] unless it is there. *)
Definition snoc_new (l : list Z) (x : Z) : list Z :=
  if bool_decide (x ∈ l) then l else l ++ [x].

(** The distinct elements of [l] in the order in which they first appear. *)
Definition first_seen (l : list Z) : list Z := foldl snoc_new [] l.

(** The core ids that the lines give for socket [k], and the CPU ids they
    give for core [ck] of socket [k], line after line. *)
Definition cores_listed (recs : list LineIds) (k : Z) : list Z :=
  line_core <$> List.filter (λ r, line_socket r =? k) recs.

Definition cpus_listed (recs : list LineIds) (k ck : Z) : list Z :=
  line_cpu <$>
    List.filter (λ r, (line_socket r =? k) && (line_core r =? ck)) recs.

(** The keys of the cores of socket [k] and of the CPUs of its core [ck]
    in a dictionary of sockets; empty when the socket or core is missing. *)
Definition core_keys_of (d : OD.t Socket) (k : Z) : list Z :=
  match OD.get k d with Some s => OD.keys (cores s) | None => [] end.

Definition cpu_keys_of (d : OD.t Socket) (k ck : Z) : list Z :=
  match OD.get k d with
  | Some s =>
      match OD.get ck (cores s) with
      | Some c => OD.keys (cpus c)
      | None => []
      end
  | None => []
  end.

(** Every core and CPU of the dictionary is stored under its own id. *)
Definition core_keyed (kc : Z * Core) : Prop :=
  core_id kc.2 = kc.1 ∧ Forall (λ kp : Z * CPU, cpu_id kp.2 = kp.1) (cpus kc.2).

Definition keyed_by_id (d : OD.t Socket) : Prop :=
  Forall (λ ks : Z * Socket, Forall core_keyed (cores ks.2)) d.

(** ** The other queries of the hierarchy *)

(** [Core.cpu_ids]: the keys of the CPU mapping. *)
Definition cpu_ids (c : Core) : list Z := OD.keys (cpus c).

(** [Socket.has_isolated_cores]: a loop that returns at the first isolated
    core. *)
Definition Socket_has_isolated_cores (s : Socket) : bool :=
  existsb is_isolated (OD.values (cores s)).

(** [Socket.get_shared_cores] and [Socket.get_cores_from_pool]; a pool is
    [None] or a name. *)
Definition Socket_get_shared_cores (s : Socket) : list Core :=
  List.filter (λ core, negb (is_isolated core)) (OD.values (cores s)).

Definition Socket_get_cores_from_pool (s : Socket) (pool' : option string)
  : list Core :=
  List.filter (λ core, bool_decide (pool core = pool')) (OD.values (cores s)).

(** [Platform.has_isolated_cores] *)
Definition Platform_has_isolated_cores (p : Platform) : bool :=
  existsb Socket_has_isolated_cores (OD.values (sockets p)).

(** [Platform.get_socket]; [Ok None] is the [None] that the source returns
    for a missing id, and the lookup on the last line raises [KeyError] if
    the key is not there. *)
Definition Platform_get_socket (p : Platform) (id : Z) : result (option Socket) :=
  if negb (OD.mem id (sockets p)) then mret None
  else
    socket ← from_option Ok (Raise KeyError) (OD.get id (sockets p));
    mret (Some socket).

(** [Platform.get_shared_cores] and [Platform.get_cores_from_pool] *)
Definition Platform_get_shared_cores (p : Platform) : list Core :=
  foldl (λ cores socket, cores ++ Socket_get_shared_cores socket)
        [] (OD.values (sockets p)).

Definition Platform_get_cores_from_pool (p : Platform) (pool' : option string)
  : list Core :=
  foldl (λ cores socket, cores ++ Socket_get_cores_from_pool socket pool')
        [] (OD.values (sockets p)).

(** ** Dictionaries for serialization *)

(** The values that [as_dict] builds: integers, booleans, [None], strings,
    lists, and dictionaries with string keys in the order of the literal. *)
#[warnings="-register-all"] Inductive pyval : Type :=
| VInt (n : Z)
| VBool (b : bool)
| VNone
| VStr (s : string)
| VList (items : list pyval)
| VDict (items : list (string * pyval)).

(** [CPU.as_dict] *)
Definition CPU_as_dict (cpu : CPU) : pyval :=
  VDict [("id"%string, VInt (cpu_id cpu));
         ("isolated"%string, VBool (isolated cpu))].

(** [Core.as_dict]: the key "pool" is added last, when asked for. *)
Definition Core_as_dict (include_pool : bool) (c : Core) : pyval :=
  let result := [("id"%string, VInt (core_id c));
                 ("cpus"%string, VList (CPU_as_dict <$> OD.values (cpus c)))] in
  let result :=
    if include_pool
    then result ++ [("pool"%string,
                     match pool c with Some name => VStr name | None => VNone end)]
    else result in
  VDict result.

(** [Socket.as_dict] *)
Definition Socket_as_dict (include_pool : bool) (s : Socket) : pyval :=
  VDict [("id"%string, VInt (socket_id s));
         ("cores"%string,
          VList (Core_as_dict include_pool <$> OD.values (cores s)))].

(** ** Discovery *)

(** [discover], given the text that the boot-parameter file holds and the
    text that the topology command prints; the two reads and the log line
    are left out. *)
Definition discover (cmdline lscpu_output : string) : result Platform :=
  isol ← parse_isolcpus cmdline;
  parse lscpu_output (Some isol).

(** ** Auxiliary definitions for the properties of these functions *)

(** A line that [parse] takes: empty, a comment, or at least three fields of
    which the first three are integers. *)
Definition line_ok (line : string) : bool :=
  if PyStr.truthy line && negb (PyStr.startswith "#" line) then
    match PyStr.split "," line with
    | f0 :: f1 :: f2 :: _ => is_int f2 && is_int f1 && is_int f0
    | _ => false
    end
  else true.

(** A line that [parse] skips. *)
Definition line_skipped (line : string) : bool :=
  negb (PyStr.truthy line && negb (PyStr.startswith "#" line)).

(** What [parse] leaves as it creates it: every socket under its own id and
    every core without a pool. *)
Definition socket_fresh (ks : Z * Socket) : Prop :=
  socket_id ks.2 = ks.1 ∧
  Forall (λ kc : Z * Core, pool kc.2 = None) (cores ks.2).

Definition sockets_fresh (d : OD.t Socket) : Prop := Forall socket_fresh d.

(** A socket whose cores and CPUs are stored under their own ids. *)
Definition socket_keyed (s : Socket) : Prop := Forall core_keyed (cores s).

(** The pools of the cores of a socket replaced by [f]. *)
Definition map_pools (f : Core → option string) (s : Socket) : Socket :=
  {| socket_id := socket_id s;
     cores := (λ kc : Z * Core,
                 (kc.1, {| core_id := core_id kc.2; pool := f kc.2;
                           cpus := cpus kc.2 |})) <$> cores s |}.

(** Two sockets whose cores have been put into pools. *)
Definition pooled_sockets : Platform :=
  {| sockets :=
       [(0, {| socket_id := 0;
               cores := [(0, mkCore 0 (Some "exclusive"%string) [(0, mkCPU 0 true)]);
                         (1, mkCore 1 (Some "shared"%string) [(1, mkCPU 1 false)]);
                         (2, mkCore 2 None [(2, mkCPU 2 true)])] |});
        (1, {| socket_id := 1;
               cores := [(3, mkCore 3 (Some "exclusive"%string)
                            [(3, mkCPU 3 true)])] |})] |}.

(** * Properties *)

(** ** Isolation parser: examples *)

Example parse_isolcpus_ex1 :
  parse_isolcpus "isolcpus=0,2-3 rcu_nocbs=1,2,3,4" = Ok [1; 4].
Proof. vm_compute. reflexivity. Qed.

Example parse_isolcpus_ex2 : parse_isolcpus "isolcpus=0-1" = Ok [].
Proof. vm_compute. reflexivity. Qed.

Example parse_isolcpus_ex3 : parse_isolcpus "isolcpus=a rcu_nocbs=1" = Raise ValueError.
Proof. vm_compute. reflexivity. Qed.

Example parse_isolcpus_ex4 :
  parse_isolcpus " quiet isolcpus=1-2-3,4 a=b=c rcu_nocbs=4,5-6 ro
" = Ok [5; 6].
Proof. vm_compute. reflexivity. Qed.

(** ** Properties of the isolation parser *)

Lemma truthy_false_iff {A} (l : list A) : truthy l = false ↔ l = [].
Proof. destruct l; simpl; split; congruence. Qed.

Lemma truthy_true_iff {A} (l : list A) : truthy l = true ↔ l ≠ [].
Proof. destruct l; simpl; split; congruence. Qed.

Lemma parse_isolcpus_unfold cmdline isol nocbs :
  isol_nocbs cmdline = Ok (isol, nocbs) →
  parse_isolcpus cmdline =
    Ok (list_of_set (if truthy isol && truthy nocbs
                     then filter (λ x, x ∉ isol) nocbs else [])).
Proof. intros H. unfold parse_isolcpus. rewrite H. reflexivity. Qed.

Lemma parse_isolcpus_raises cmdline e :
  parse_isolcpus cmdline = Raise e ↔ isol_nocbs cmdline = Raise e.
Proof.
  unfold parse_isolcpus. destruct (isol_nocbs cmdline) as [[i n]|e']; simpl.
  - split; discriminate.
  - split; intros [= ->]; reflexivity.
Qed.

(** *** Splitting lemmas *)

Module PyStrFacts.
Import PyStr.

Lemma split_ws_cons c rest :
  split_ws (String c rest) =
    if isspace c then split_ws rest
    else match rest with
         | EmptyString => [String c EmptyString]
         | String d _ =>
             if isspace d then String c EmptyString :: split_ws rest
             else match split_ws rest with
                  | w :: ws => String c w :: ws
                  | [] => [String c EmptyString]
                  end
         end.
Proof. reflexivity. Qed.

Lemma append_cons c a b : String c a +:+ b = String c (a +:+ b).
Proof. reflexivity. Qed.

Lemma append_nil_l b : EmptyString +:+ b = b.
Proof. reflexivity. Qed.

Lemma split_ws_nonspace_head c s :
  isspace c = false → split_ws (String c s) ≠ [].
Proof.
  intros Hc. rewrite split_ws_cons, Hc.
  destruct s as [|d s']; [discriminate|].
  destruct (isspace d); [discriminate|].
  destruct (split_ws (String d s')); discriminate.
Qed.

Lemma split_ws_app_space a c b :
  isspace c = true →
  split_ws (a +:+ String c b) = split_ws a ++ split_ws b.
Proof.
  intros Hc. induction a as [|x a IH].
  - rewrite append_nil_l, split_ws_cons, Hc. reflexivity.
  - rewrite append_cons, !(split_ws_cons x).
    destruct (isspace x) eqn:Hx; [exact IH|].
    destruct a as [|d a'].
    + rewrite append_nil_l in *. rewrite Hc, IH. reflexivity.
    + rewrite append_cons in *. rewrite IH.
      destruct (isspace d) eqn:Hd; [reflexivity|].
      pose proof (split_ws_nonspace_head d a' Hd) as Hne.
      destruct (split_ws (String d a')) as [|w ws]; [done|]. reflexivity.
Qed.

Lemma split_ws_no_space s :
  no_space s = true →
  split_ws s = match s with EmptyString => [] | _ => [s] end.
Proof.
  induction s as [|c s IH]; [reflexivity|].
  cbn [no_space]. intros [Hc Hs]%andb_prop. apply negb_true_iff in Hc.
  cbn [split_ws]. rewrite Hc. destruct s as [|d s']; [reflexivity|].
  specialize (IH Hs). cbn [no_space] in Hs.
  apply andb_prop in Hs as [Hd _]. apply negb_true_iff in Hd.
  rewrite Hd, IH. reflexivity.
Qed.

Lemma rstrip_head s e r : rstrip s = String e r → ∃ s', s = String e s'.
Proof.
  destruct s as [|c s]; [discriminate|]. simpl.
  destruct (rstrip s); [destruct (isspace c)|]; intros [= <- _]; eauto.
Qed.

Lemma split_ws_rstrip s : split_ws (rstrip s) = split_ws s.
Proof.
  induction s as [|c s IH]; [reflexivity|].
  cbn [rstrip]. destruct (rstrip s) as [|e r] eqn:Hr.
  - cbn [split_ws] in IH. destruct (isspace c) eqn:Hc.
    + cbn [split_ws]. rewrite Hc. exact IH.
    + cbn [split_ws]. rewrite Hc. destruct s as [|d s']; [reflexivity|].
      rewrite <- IH. destruct (isspace d); reflexivity.
  - destruct (rstrip_head _ _ _ Hr) as [s' ->].
    cbn [split_ws]. cbn [split_ws] in IH.
    destruct (isspace c); [exact IH|].
    destruct (isspace e); rewrite IH; reflexivity.
Qed.

Lemma split_no_sep sep s : contains sep s = false → split sep s = [s].
Proof.
  induction s as [|c s IH]; [reflexivity|].
  cbn [contains split]. intros [Hc Hs]%orb_false_elim.
  rewrite Hc, (IH Hs). reflexivity.
Qed.

Lemma split_app_sep sep a b :
  contains sep a = false →
  split sep (a +:+ String sep b) = a :: split sep b.
Proof.
  induction a as [|c a IH].
  - intros _. rewrite append_nil_l. cbn [split].
    rewrite Ascii.eqb_refl. reflexivity.
  - cbn [contains]. intros [Hc Ha]%orb_false_elim.
    rewrite append_cons. cbn [split]. rewrite Hc, (IH Ha). reflexivity.
Qed.

End PyStrFacts.

(** *** Skipped and rejected tokens *)

Section IsolcpusLoops.
Import PyStr PyStrFacts.

Lemma result_bind_ok {A B} (m : result A) (f : A → result B) b :
  m ≫= f = Ok b ↔ ∃ a, m = Ok a ∧ f a = Ok b.
Proof.
  destruct m as [a|e]; cbn.
  - split; [eauto|]. intros (a' & [= <-] & H). exact H.
  - split; [discriminate|]. intros (a' & [=] & _).
Qed.

Lemma result_bind_raise {A B} (m : result A) (f : A → result B) e :
  m ≫= f = Raise e ↔ m = Raise e ∨ ∃ a, m = Ok a ∧ f a = Raise e.
Proof.
  destruct m as [a|e']; cbn.
  - split; [eauto|]. intros [[=]|(a' & [= <-] & H)]. exact H.
  - split; [intros [= ->]; eauto|].
    intros [[= ->]|(a' & [=] & _)]. reflexivity.
Qed.


Lemma parse_fields_app l1 l2 st :
  parse_fields (l1 ++ l2) st = parse_fields l1 st ≫= parse_fields l2.
Proof.
  revert st. induction l1 as [|t l1 IH]; intros st; [reflexivity|].
  cbn [app parse_fields].
  destruct (parse_field st t) as [st'|e]; cbn; [apply IH|reflexivity].
Qed.


Lemma parse_cpu_token_nonint cpus tok :
  contains "-" tok = false → int tok = Raise ValueError →
  parse_cpu_token cpus tok = Raise ValueError.
Proof.
  intros Hd Hi. unfold parse_cpu_token. rewrite Hd, Hi. reflexivity.
Qed.


(** The parser can raise in two places: [int] raises [ValueError], and the
    extension of a list by a range raises [OverflowError]. *)
Lemma int_raise s e : int s = Raise e → e = ValueError.
Proof.
  unfold int. intros H.
  destruct (match int_strip s with
            | String "+" rest => digits 0 false rest
            | String "-" rest => Z.opp <$> digits 0 false rest
            | _ => digits 0 false (int_strip s)
            end); [|congruence].
  destruct (digit_count (int_strip s) <=? int_max_str_digits)%N; congruence.
Qed.

Lemma extend_range_raise l a b e :
  extend_range l a b = Raise e → e = OverflowError.
Proof. unfold extend_range. destruct (_ <=? _); congruence. Qed.

Lemma parse_cpu_token_raise cpus tok e :
  parse_cpu_token cpus tok = Raise e → e = ValueError ∨ e = OverflowError.
Proof.
  unfold parse_cpu_token. destruct (negb _).
  - destruct (int tok) eqn:Hi; cbn; [discriminate|].
    intros [= <-]. left. eapply int_raise, Hi.
  - destruct (split "-" tok) as [|x [|y [|z l]]]; try discriminate.
    destruct (int x) eqn:Hx; cbn.
    + destruct (int y) eqn:Hy; cbn.
      * intros H. right. eapply extend_range_raise, H.
      * intros [= <-]. left. eapply int_raise, Hy.
    + intros [= <-]. left. eapply int_raise, Hx.
Qed.

Lemma parse_cpus_loop_raise l cpus e :
  parse_cpus_loop l cpus = Raise e → e = ValueError ∨ e = OverflowError.
Proof.
  revert cpus. induction l as [|t l IH]; intros cpus; [discriminate|].
  cbn [parse_cpus_loop]. intros [H|(a & _ & H)]%result_bind_raise.
  - eapply parse_cpu_token_raise, H.
  - eapply IH, H.
Qed.

Lemma parse_field_raise st f e :
  parse_field st f = Raise e → e = ValueError ∨ e = OverflowError.
Proof.
  unfold parse_field. destruct st as [i n].
  destruct (split "=" f) as [|k [|v [|z l]]]; try discriminate.
  destruct (String.eqb k "isolcpus"), (String.eqb k "rcu_nocbs");
    unfold parse_cpus_from_isolcpus;
    destruct (parse_cpus_loop (split "," v) []) eqn:Hv; cbn;
    try discriminate; intros [= <-]; eapply parse_cpus_loop_raise, Hv.
Qed.

Lemma parse_fields_raise l st e :
  parse_fields l st = Raise e → e = ValueError ∨ e = OverflowError.
Proof.
  revert st. induction l as [|t l IH]; intros st; [discriminate|].
  cbn [parse_fields]. intros [H|(a & _ & H)]%result_bind_raise.
  - eapply parse_field_raise, H.
  - eapply IH, H.
Qed.

(** A token that is not an integer literal stops the loops: nothing after it
    is reached, and what comes before it can only raise sooner. *)
Lemma parse_cpus_loop_nonint l cpus tok :
  tok ∈ l → contains "-" tok = false → int tok = Raise ValueError →
  ¬ is_ok (parse_cpus_loop l cpus).
Proof.
  intros Hin Hd Hi. revert cpus.
  induction Hin as [tok l|tok t l _ IH]; intros cpus; cbn [parse_cpus_loop].
  - rewrite (parse_cpu_token_nonint _ _ Hd Hi). intros [? [=]].
  - destruct (parse_cpu_token cpus t) as [cpus'|e] eqn:Ht; cbn.
    + apply IH; assumption.
    + intros [? [=]].
Qed.

Lemma parse_field_nonint st key value tok :
  key = "isolcpus"%string ∨ key = "rcu_nocbs"%string →
  contains "=" value = false →
  tok ∈ split "," value → contains "-" tok = false →
  int tok = Raise ValueError →
  ¬ is_ok (parse_field st (key +:+ "=" +:+ value)).
Proof.
  intros Hk Hv Hin Hd Hi. unfold parse_field. destruct st as [i n].
  assert (split "=" (key +:+ "=" +:+ value) = [key; value]) as ->.
  { change ("=" +:+ value)%string with (String "=" value).
    rewrite split_app_sep, (split_no_sep _ _ Hv); [reflexivity|].
    destruct Hk as [-> | ->]; reflexivity. }
  unfold parse_cpus_from_isolcpus.
  pose proof (parse_cpus_loop_nonint _ [] _ Hin Hd Hi) as Hloop.
  destruct (parse_cpus_loop (split "," value) []) as [r|e];
    [exfalso; apply Hloop; eexists; reflexivity|].
  destruct Hk as [-> | ->]; intros [? [=]].
Qed.

Lemma parse_fields_bad_field l st f :
  f ∈ l → (∀ st', ¬ is_ok (parse_field st' f)) →
  ¬ is_ok (parse_fields l st).
Proof.
  intros Hin Hf. revert st.
  induction Hin as [f l|f t l _ IH]; intros st; cbn [parse_fields].
  - specialize (Hf st). destruct (parse_field st f) as [st'|e]; cbn.
    + exfalso. apply Hf. eexists. reflexivity.
    + intros [? [=]].
  - destruct (parse_field st t) as [st'|e] eqn:Ht; cbn.
    + apply IH; assumption.
    + intros [? [=]].
Qed.

Lemma isol_nocbs_fields cmdline :
  isol_nocbs cmdline = parse_fields (split_ws cmdline) ([], []).
Proof. unfold isol_nocbs. rewrite split_ws_rstrip. reflexivity. Qed.

Lemma split_ws_middle a f b :
  split_ws (a +:+ " " +:+ f +:+ " " +:+ b) =
    split_ws a ++ split_ws f ++ split_ws b.
Proof.
  change (" " +:+ f +:+ " " +:+ b)%string with (String " " (f +:+ String " " b)).
  rewrite !split_ws_app_space by reflexivity. reflexivity.
Qed.

Lemma split_ws_join a b :
  split_ws (a +:+ " " +:+ b) = split_ws a ++ split_ws b.
Proof.
  change (" " +:+ b)%string with (String " " b).
  rewrite split_ws_app_space by reflexivity. reflexivity.
Qed.

End IsolcpusLoops.


(** The two exceptions of [parse_isolcpus]. *)
Lemma parse_isolcpus_raise_kind cmdline e :
  parse_isolcpus cmdline = Raise e → e = ValueError ∨ e = OverflowError.
Proof.
  intros H. apply parse_isolcpus_raises in H.
  rewrite isol_nocbs_fields in H. eapply parse_fields_raise, H.
Qed.

Lemma parse_isolcpus_not_ok cmdline :
  ¬ is_ok (isol_nocbs cmdline) →
  ∃ e, parse_isolcpus cmdline = Raise e ∧ (e = ValueError ∨ e = OverflowError).
Proof.
  intros Hn. destruct (isol_nocbs cmdline) as [st|e] eqn:Hst.
  - exfalso. apply Hn. eexists. reflexivity.
  - apply parse_isolcpus_raises in Hst. exists e. split; [exact Hst|].
    eapply parse_isolcpus_raise_kind, Hst.
Qed.

(** A token without "-" that is not an integer literal, in the value of an
    [isolcpus] or [rcu_nocbs] field, makes [parse_isolcpus] raise. *)
Lemma parse_isolcpus_nonint a key value b tok :
  key = "isolcpus"%string ∨ key = "rcu_nocbs"%string →
  no_space value = true → PyStr.contains "=" value = false →
  tok ∈ PyStr.split "," value →
  PyStr.contains "-" tok = false → PyStr.int tok = Raise ValueError →
  ∃ e, parse_isolcpus (a +:+ " " +:+ (key +:+ "=" +:+ value) +:+ " " +:+ b) =
         Raise e ∧ (e = ValueError ∨ e = OverflowError).
Proof.
  intros Hk Hsp Heq Hin Hd Hi.
  apply parse_isolcpus_not_ok.
  rewrite isol_nocbs_fields, split_ws_middle.
  assert (no_space (key +:+ "=" +:+ value) = true) as Hns
      by (destruct Hk as [-> | ->]; exact Hsp).
  rewrite (PyStrFacts.split_ws_no_space _ Hns).
  eapply (parse_fields_bad_field _ _ (key +:+ "=" +:+ value)).
  - apply elem_of_app. right. apply elem_of_app. left.
    destruct Hk as [-> | ->]; apply list_elem_of_singleton; reflexivity.
  - intros st'. eapply parse_field_nonint; eassumption.
Qed.

(** C2 (as stated, refuted): the parser does not return a list for every
    text.  With ids under one key only, it raises when an id is not an
    integer literal, and when the other key is there with an empty value. *)
Lemma parse_isolcpus_one_key_raises :
  parse_isolcpus "isolcpus=x" = Raise ValueError ∧
  parse_isolcpus "isolcpus=0-1 rcu_nocbs=" = Raise ValueError.
Proof. split; vm_compute; reflexivity. Qed.

(** C2 (amended): whenever the field loop of [parse_isolcpus] ends with
    accumulators [isol] and [nocbs], the parser returns a duplicate-free
    list that holds exactly the ids of [nocbs] not in [isol] when both are
    non-empty, and the empty list when one of them is empty; "isolcpus=0-1"
    alone gives the empty list and "isolcpus=0,2-3 rcu_nocbs=1,2,3,4" gives
    exactly 1 and 4. *)
Theorem parse_isolcpus_difference :
  (∀ cmdline isol nocbs,
      isol_nocbs cmdline = Ok (isol, nocbs) →
      ∃ r, parse_isolcpus cmdline = Ok r ∧ NoDup r ∧
           (isol ≠ [] → nocbs ≠ [] → ∀ x, x ∈ r ↔ x ∈ nocbs ∧ x ∉ isol) ∧
           (isol = [] ∨ nocbs = [] → r = []))
  ∧ parse_isolcpus "isolcpus=0-1" = Ok []
  ∧ (∃ r, parse_isolcpus "isolcpus=0,2-3 rcu_nocbs=1,2,3,4" = Ok r ∧
          NoDup r ∧ ∀ x, x ∈ r ↔ x = 1 ∨ x = 4).
Proof.
  split; [|split].
  - intros cmdline isol nocbs H.
    eexists. split; [apply (parse_isolcpus_unfold _ _ _ H)|].
    split; [apply NoDup_remove_dups|]. split.
    + intros Hi Hn x.
      apply truthy_true_iff in Hi, Hn. rewrite Hi, Hn. simpl.
      unfold list_of_set. rewrite elem_of_remove_dups, list_elem_of_filter.
      tauto.
    + intros [->| ->]; simpl; [reflexivity|].
      rewrite andb_false_r. reflexivity.
  - vm_compute. reflexivity.
  - exists [1; 4]. split; [vm_compute; reflexivity|]. split.
    + compute_done.
    + intros x. rewrite !elem_of_cons, elem_of_nil. tauto.
Qed.

Lemma parse_isolcpus_difference_witness :
  isol_nocbs "isolcpus=0,2-3 rcu_nocbs=1,2,3,4" = Ok ([0; 2; 3], [1; 2; 3; 4]) ∧
  ∃ r, parse_isolcpus "isolcpus=0,2-3 rcu_nocbs=1,2,3,4" = Ok r ∧ NoDup r ∧
       ([0; 2; 3] ≠ [] → [1; 2; 3; 4] ≠ [] →
        ∀ x, x ∈ r ↔ x ∈ [1; 2; 3; 4] ∧ x ∉ [0; 2; 3]) ∧
       ([0; 2; 3] = [] ∨ [1; 2; 3; 4] = [] → r = []).
Proof.
  split; [vm_compute; reflexivity|].
  apply (proj1 parse_isolcpus_difference). vm_compute. reflexivity.
Defined.

Lemma token_ok_run tok cpus :
  token_ok tok = true → is_ok (parse_cpu_token cpus tok).
Proof.
  unfold token_ok, parse_cpu_token, is_int.
  destruct (negb (PyStr.contains "-" tok)).
  - destruct (PyStr.int tok); [intros _; eexists; reflexivity|discriminate].
  - destruct (PyStr.split "-" tok) as [|lo [|hi [|z l]]];
      try (intros _; eexists; reflexivity).
    destruct (PyStr.int lo); [|discriminate].
    destruct (PyStr.int hi); [|discriminate].
    cbn [mbind result_bind]. unfold PyStr.extend_range.
    intros ->. eexists. reflexivity.
Qed.

Lemma tokens_ok_run l cpus :
  forallb token_ok l = true → is_ok (parse_cpus_loop l cpus).
Proof.
  revert cpus. induction l as [|tok l IH]; intros cpus; cbn.
  - intros _. eexists. reflexivity.
  - intros [Htok Hl]%andb_prop.
    destruct (token_ok_run tok cpus Htok) as [cpus' ->]. apply IH, Hl.
Qed.

Lemma field_ok_run f st : field_ok f = true → is_ok (parse_field st f).
Proof.
  unfold field_ok, field_all, parse_field. destruct st as [i n].
  destruct (PyStr.split "=" f) as [|key [|value [|z l]]];
    try (intros _; eexists; reflexivity).
  unfold parse_cpus_from_isolcpus.
  destruct (String.eqb key "isolcpus"), (String.eqb key "rcu_nocbs"); cbn [orb];
    intros H; try (eexists; reflexivity);
    destruct (tokens_ok_run _ [] H) as [cpus ->]; eexists; reflexivity.
Qed.

Lemma fields_ok_run l st : forallb field_ok l = true → is_ok (parse_fields l st).
Proof.
  revert st. induction l as [|f l IH]; intros st; cbn.
  - intros _. eexists. reflexivity.
  - intros [Hf Hl]%andb_prop.
    destruct (field_ok_run f st Hf) as [st' ->]. apply IH, Hl.
Qed.



(** ** Topology builder: examples *)

Example parse_sample :
  parse lscpu_sample (Some [1; 3]) =
    Ok {| sockets :=
            [(0, {| socket_id := 0;
                    cores := [(0, {| core_id := 0; pool := None;
                                     cpus := [(0, mkCPU 0 false); (3, mkCPU 3 true)] |});
                              (1, {| core_id := 1; pool := None;
                                     cpus := [(1, mkCPU 1 true)] |})] |});
             (1, {| socket_id := 1;
                    cores := [(2, {| core_id := 2; pool := None;
                                     cpus := [(2, mkCPU 2 false)] |})] |})] |}.
Proof. vm_compute. reflexivity. Qed.

(** ** Ordered dictionaries *)

Section ODFacts.
Context {V : Type}.
Implicit Types (d : OD.t V) (k : Z) (v : V).

Lemma OD_get_Some_elem k v d : OD.get k d = Some v → (k, v) ∈ d.
Proof.
  induction d as [|[k' v'] d IH]; cbn; [discriminate|].
  destruct (Z.eqb_spec k k') as [->|Hne].
  - intros [= ->]. left.
  - intros H. right. auto.
Qed.

Lemma OD_get_None k d : OD.get k d = None ↔ k ∉ OD.keys d.
Proof.
  unfold OD.keys. induction d as [|[k' v'] d IH]; cbn.
  - split; [intros _; apply not_elem_of_nil|reflexivity].
  - rewrite not_elem_of_cons. destruct (Z.eqb_spec k k') as [->|Hne].
    + split; [discriminate|]. intros [? _]. congruence.
    + rewrite IH. tauto.
Qed.

(** A key drawn from the dictionary is always found. *)
Lemma OD_get_key k d : k ∈ OD.keys d → is_Some (OD.get k d).
Proof.
  intros Hk. destruct (OD.get k d) eqn:Hg; [eauto|].
  apply OD_get_None in Hg. contradiction.
Qed.

Lemma OD_get_wf k v d : OD.wf d → (k, v) ∈ d → OD.get k d = Some v.
Proof.
  unfold OD.wf, OD.keys. induction d as [|[k' v'] d IH]; cbn.
  - intros _ H. inversion H.
  - intros [Hk Hd]%NoDup_cons [[= -> ->]|Hin]%elem_of_cons.
    + rewrite Z.eqb_refl. reflexivity.
    + destruct (Z.eqb_spec k k') as [->|Hne]; [|auto].
      exfalso. apply Hk. apply list_elem_of_fmap. exists (k', v). auto.
Qed.

Lemma OD_get_values k v d : OD.get k d = Some v → v ∈ OD.values d.
Proof.
  intros H%OD_get_Some_elem. apply list_elem_of_fmap. exists (k, v). auto.
Qed.

Lemma OD_mem_get k d : OD.mem k d = true ↔ is_Some (OD.get k d).
Proof.
  unfold OD.mem. destruct (OD.get k d); split; eauto; try discriminate.
  intros [? [=]].
Qed.

Lemma OD_get_set k k' v d :
  OD.get k' (OD.set k v d) = if k' =? k then Some v else OD.get k' d.
Proof.
  induction d as [|[k0 v0] d IH]; cbn.
  - destruct (Z.eqb_spec k' k); reflexivity.
  - destruct (Z.eqb_spec k k0) as [->|Hne]; cbn.
    + destruct (Z.eqb_spec k' k0); reflexivity.
    + rewrite IH. destruct (Z.eqb_spec k' k0), (Z.eqb_spec k' k);
        congruence.
Qed.

Lemma OD_values_set k v d x :
  x ∈ OD.values (OD.set k v d) → x = v ∨ x ∈ OD.values d.
Proof.
  unfold OD.values. induction d as [|[k0 v0] d IH]; cbn.
  - intros ->%list_elem_of_singleton. auto.
  - destruct (Z.eqb_spec k k0) as [->|Hne]; cbn;
      rewrite !elem_of_cons; [tauto|].
    intros [->|H]; [auto|]. destruct (IH H); auto.
Qed.

(** Keys after [d[k] = v]: unchanged when [k] is present, [k] appended
    otherwise. *)
Lemma OD_keys_set k v d :
  OD.keys (OD.set k v d) =
    if OD.mem k d then OD.keys d else OD.keys d ++ [k].
Proof.
  unfold OD.keys, OD.mem. induction d as [|[k0 v0] d IH]; cbn; [reflexivity|].
  destruct (Z.eqb_spec k k0) as [->|Hne]; cbn; [reflexivity|].
  rewrite IH. destruct (OD.get k d); reflexivity.
Qed.

Lemma OD_wf_set k v d : OD.wf d → OD.wf (OD.set k v d).
Proof.
  unfold OD.wf. rewrite OD_keys_set. intros Hd.
  destruct (OD.mem k d) eqn:Hm; [exact Hd|].
  apply NoDup_app. split; [exact Hd|]. split; [|apply NoDup_singleton].
  intros x Hx ->%list_elem_of_singleton.
  apply OD_get_key in Hx. apply OD_mem_get in Hx. congruence.
Qed.

End ODFacts.

(** ** Core isolation *)

Lemma is_isolated_forall (c : Core) :
  OD.wf (cpus c) →
  is_isolated c = true ↔
    cpus c ≠ [] ∧ ∀ cpu, cpu ∈ Core_cpus c → isolated cpu = true.
Proof.
  intros Hwf. unfold is_isolated, Core_cpus.
  destruct (cpus c) as [|kv d] eqn:Hc.
  { cbn. split; [discriminate|]. intros [H _]. congruence. }
  rewrite <- Hc in *.
  replace (length (cpus c) =? 0)%nat with false
    by (rewrite Hc; reflexivity).
  rewrite forallb_forall. split.
  - intros H. split; [rewrite Hc; discriminate|].
    intros cpu ([k cpu'] & -> & Hin)%list_elem_of_fmap. cbn.
    specialize (H k). rewrite (OD_get_wf _ _ _ Hwf Hin) in H.
    apply H. apply list_elem_of_In, list_elem_of_fmap. exists (k, cpu'). auto.
  - intros [_ H] k Hk%list_elem_of_In.
    destruct (OD_get_key _ _ Hk) as [cpu Hg]. rewrite Hg.
    apply H. eapply OD_get_values, Hg.
Qed.

(** C8: a core is isolated exactly when it holds at least one CPU and all of
    its CPUs are isolated; a core without CPUs is not isolated. *)
Theorem is_isolated_iff :
  (∀ c : Core,
      OD.wf (cpus c) →
      is_isolated c = true ↔
        (0 < length (Core_cpus c))%nat ∧
        ∀ cpu, cpu ∈ Core_cpus c → isolated cpu = true)
  ∧ (∀ c : Core, Core_cpus c = [] → is_isolated c = false).
Proof.
  split.
  - intros c Hwf. rewrite (is_isolated_forall c Hwf).
    unfold Core_cpus, OD.values. rewrite length_fmap.
    destruct (cpus c); cbn; split; intros [H1 H2]; split;
      auto; try lia; try congruence.
  - intros c Hc. unfold is_isolated, Core_cpus, OD.values in *.
    destruct (cpus c); [reflexivity|discriminate].
Qed.

Lemma is_isolated_iff_witness :
  let c := {| core_id := 0; pool := None;
              cpus := [(0, mkCPU 0 true); (4, mkCPU 4 true)] |} in
  OD.wf (cpus c) ∧
  (is_isolated c = true ↔
     (0 < length (Core_cpus c))%nat ∧
     ∀ cpu, cpu ∈ Core_cpus c → isolated cpu = true).
Proof.
  split.
  - unfold OD.wf. compute_done.
  - apply (proj1 is_isolated_iff). unfold OD.wf. compute_done.
Defined.

(** ** Topology builder: isolation flags *)

Lemma Socket_init_None_cores sid : cores (Socket_init sid None) = [].
Proof. reflexivity. Qed.

Lemma Core_init_None_cpus cid : cpus (Core_init cid None) = [].
Proof. reflexivity. Qed.

Lemma add_cpu_flag_ok iso d sid cid pid d' :
  sockets_flag_ok iso d → add_cpu iso d sid cid pid = Ok d' → sockets_flag_ok iso d'.
Proof.
  intros Hd. unfold add_cpu. intros H.
  set (d1 := if negb (OD.mem sid d)
             then OD.set sid (Socket_init sid None) d else d) in H.
  assert (sockets_flag_ok iso d1) as Hd1.
  { subst d1. destruct (negb (OD.mem sid d)); [|exact Hd].
    intros s c cpu [->|Hs]%OD_values_set Hc Hcpu; [|eauto].
    rewrite Socket_init_None_cores in Hc. inversion Hc. }
  clearbody d1. clear Hd d.
  destruct (OD.get sid d1) as [s|] eqn:Hs; [|discriminate]. cbn in H.
  set (sc := if negb (OD.mem cid (cores s))
             then OD.set cid (Core_init cid None) (cores s) else cores s) in H.
  assert (∀ c cpu, c ∈ OD.values sc → cpu ∈ OD.values (cpus c) →
                   cpu_flag_ok iso cpu) as Hsc.
  { subst sc. destruct (negb (OD.mem cid (cores s))).
    - intros c cpu [->|Hc]%OD_values_set Hcpu.
      + rewrite Core_init_None_cpus in Hcpu. inversion Hcpu.
      + eapply Hd1; eauto using OD_get_values.
    - intros c cpu Hc Hcpu. eapply Hd1; eauto using OD_get_values. }
  clearbody sc.
  destruct (OD.get cid sc) as [c|] eqn:Hc; [|discriminate]. cbn in H.
  injection H as <-.
  intros s' c' cpu' [->|Hs']%OD_values_set Hc' Hcpu'; [|eauto].
  cbn in Hc'. apply OD_values_set in Hc' as [->|Hc']; [|eauto].
  cbn in Hcpu'. apply OD_values_set in Hcpu' as [->|Hcpu'].
  - unfold cpu_flag_ok. cbn. destruct (bool_decide (pid ∈ iso)) eqn:Hb; cbn.
    + symmetry. exact Hb.
    + symmetry. exact Hb.
  - eapply Hsc; eauto using OD_get_values.
Qed.

Lemma parse_line_flag_ok iso d line d' :
  sockets_flag_ok iso d → parse_line iso d line = Ok d' → sockets_flag_ok iso d'.
Proof.
  intros Hd. unfold parse_line.
  intros ([ids|] & _ & H)%result_bind_ok.
  - eapply add_cpu_flag_ok; eassumption.
  - injection H as <-. exact Hd.
Qed.

Lemma parse_lines_flag_ok iso lines d d' :
  sockets_flag_ok iso d → parse_lines iso lines d = Ok d' → sockets_flag_ok iso d'.
Proof.
  revert d. induction lines as [|line lines IH]; intros d Hd; cbn.
  - intros [= <-]. exact Hd.
  - intros (d1 & H1 & H2)%result_bind_ok.
    eapply IH; [|exact H2]. eapply parse_line_flag_ok; eauto.
Qed.

Lemma elem_of_concat {A} (x : A) (ls : list (list A)) :
  x ∈ concat ls ↔ ∃ l, x ∈ l ∧ l ∈ ls.
Proof.
  rewrite list_elem_of_In, in_concat. split.
  - intros (l & Hl & Hx). exists l. rewrite !list_elem_of_In. auto.
  - intros (l & Hx & Hl). exists l. rewrite <- !list_elem_of_In. auto.
Qed.

Lemma Platform_cpus_elem p cpu :
  cpu ∈ Platform_cpus p ↔
    ∃ s c, s ∈ OD.values (sockets p) ∧ c ∈ OD.values (cores s) ∧
           cpu ∈ OD.values (cpus c).
Proof.
  unfold Platform_cpus, Socket_cpus, Core_cpus.
  rewrite elem_of_concat. split.
  - intros (l & Hcpu & (s & -> & Hs)%list_elem_of_fmap).
    apply elem_of_concat in Hcpu as (l & Hcpu & (c & -> & Hc)%list_elem_of_fmap).
    eauto.
  - intros (s & c & Hs & Hc & Hcpu).
    exists (concat ((λ c, OD.values (cpus c)) <$> OD.values (cores s))). split.
    + apply elem_of_concat. exists (OD.values (cpus c)).
      split; [exact Hcpu|]. apply list_elem_of_fmap. exists c. auto.
    + apply list_elem_of_fmap. exists s. auto.
Qed.

Lemma parse_flag_ok text iso p :
  parse text iso = Ok p →
  ∀ cpu, cpu ∈ Platform_cpus p →
         cpu_flag_ok (match iso with Some l => l | None => [] end) cpu.
Proof.
  unfold parse. intros (d & Hd & [= <-])%result_bind_ok cpu.
  rewrite Platform_cpus_elem. intros (s & c & Hs & Hc & Hcpu).
  assert ((match iso with
           | Some l => if truthy l then l else []
           | None => []
           end) = match iso with Some l => l | None => [] end) as Heq
      by (destruct iso as [[|]|]; reflexivity).
  rewrite Heq in Hd.
  eapply (parse_lines_flag_ok _ _ [] d); [|exact Hd|..]; eauto.
  intros ? ? ? H. inversion H.
Qed.

(** C10: [parse] without a collection of isolated CPUs is [parse] with the
    empty collection, and every CPU of the platform it returns is not
    isolated; with a collection, a CPU is isolated exactly when its id is a
    member. *)
Theorem parse_default_isolated :
  (∀ text, parse text None = parse text (Some []))
  ∧ (∀ text p, parse text None = Ok p →
               ∀ cpu, cpu ∈ Platform_cpus p → isolated cpu = false)
  ∧ (∀ text l p, parse text (Some l) = Ok p →
                 ∀ cpu, cpu ∈ Platform_cpus p →
                        isolated cpu = true ↔ cpu_id cpu ∈ l).
Proof.
  split; [reflexivity|]. split.
  - intros text p Hp cpu Hcpu.
    pose proof (parse_flag_ok _ _ _ Hp cpu Hcpu) as H.
    unfold cpu_flag_ok in H. rewrite H. apply bool_decide_eq_false.
    apply not_elem_of_nil.
  - intros text l p Hp cpu Hcpu.
    pose proof (parse_flag_ok _ _ _ Hp cpu Hcpu) as H.
    unfold cpu_flag_ok in H. rewrite H. apply bool_decide_eq_true.
Qed.

Lemma parse_default_isolated_witness :
  ∃ p, parse lscpu_sample None = Ok p ∧
       (isolated <$> Platform_cpus p) = [false; false; false; false] ∧
       ∀ cpu, cpu ∈ Platform_cpus p → isolated cpu = false.
Proof.
  eexists. split; [vm_compute; reflexivity|]. split; [reflexivity|].
  apply (proj1 (proj2 parse_default_isolated) lscpu_sample).
  vm_compute. reflexivity.
Defined.

(** ** Order of the core and CPU mappings *)

Section Sorting.
Context {A : Type} (key : A → Z).

Lemma insert_sorted_perm x l : insert_sorted key x l ≡ₚ x :: l.
Proof.
  induction l as [|y l IH]; cbn; [reflexivity|].
  destruct (key x <=? key y); [reflexivity|].
  rewrite IH. apply Permutation_swap.
Qed.

Lemma sorted_perm l : sorted key l ≡ₚ l.
Proof.
  induction l as [|x l IH]; cbn; [reflexivity|].
  rewrite insert_sorted_perm, IH. reflexivity.
Qed.

Lemma insert_sorted_HdRel a x l :
  (key_le key) a x → HdRel (key_le key) a l → HdRel (key_le key) a (insert_sorted key x l).
Proof.
  intros Hax Hl. destruct l as [|y l]; cbn; [constructor; exact Hax|].
  destruct (key x <=? key y); constructor; [exact Hax|].
  inversion Hl; assumption.
Qed.

Lemma insert_sorted_Sorted x l :
  Sorted (key_le key) l → Sorted (key_le key) (insert_sorted key x l).
Proof.
  induction 1 as [|y l Hl IH Hy]; cbn; [repeat constructor|].
  destruct (Z.leb_spec (key x) (key y)) as [Hxy|Hxy].
  - constructor; [constructor; assumption|]. constructor. exact Hxy.
  - constructor; [exact IH|]. apply insert_sorted_HdRel; [|exact Hy].
    unfold key_le. lia.
Qed.

Lemma sorted_Sorted l : Sorted (key_le key) (sorted key l).
Proof.
  induction l as [|x l IH]; cbn; [constructor|].
  apply insert_sorted_Sorted, IH.
Qed.

End Sorting.

Lemma OD_set_fresh {V} k (v : V) d :
  k ∉ OD.keys d → OD.set k v d = d ++ [(k, v)].
Proof.
  unfold OD.keys. induction d as [|[k0 v0] d IH]; cbn; [reflexivity|].
  rewrite not_elem_of_cons. intros [Hne Hk].
  destruct (Z.eqb_spec k k0); [contradiction|]. rewrite (IH Hk). reflexivity.
Qed.

Lemma OD_of_items_foldl {V} (acc items : list (Z * V)) :
  NoDup (acc ++ items).*1 →
  foldl (λ d kv, OD.set kv.1 kv.2 d) acc items = acc ++ items.
Proof.
  revert acc. induction items as [|[k v] items IH]; intros acc Hnd; cbn.
  - rewrite app_nil_r. reflexivity.
  - rewrite OD_set_fresh.
    + rewrite IH; rewrite <- app_assoc; [reflexivity|exact Hnd].
    + rewrite fmap_app in Hnd. apply NoDup_app in Hnd as (_ & Hd & _).
      intros Hk. apply (Hd k Hk). left.
Qed.

(** Built from the items of a dictionary, an [OrderedDict] keeps them. *)
Lemma OD_of_items_wf {V} (items : list (Z * V)) :
  NoDup items.*1 → OD.of_items items = items.
Proof. intros H. apply (OD_of_items_foldl [] items H). Qed.

(** The constructor of [Socket] orders the cores it is given by [core_id]. *)
Lemma Socket_init_ascending sid (d : OD.t Core) :
  OD.wf d → ascending (Socket_core_ids (Socket_init sid (Some d))).
Proof.
  intros Hd. unfold Socket_core_ids, Socket_init, ascending. cbn [cores].
  assert ((if truthy d then d else []) = d) as -> by (destruct d; reflexivity).
  rewrite OD_of_items_wf.
  - unfold OD.values. rewrite <- list_fmap_compose.
    eapply Sorted_fmap; [|apply (sorted_Sorted (λ pair, core_id pair.2))].
    intros x y H. exact H.
  - unfold OD.wf, OD.keys in Hd. rewrite sorted_perm. exact Hd.
Qed.

(** The constructor of [Core] orders the CPUs it is given by [cpu_id]. *)
Lemma Core_init_ascending cid (d : OD.t CPU) :
  OD.wf d → ascending (Core_cpu_ids (Core_init cid (Some d))).
Proof.
  intros Hd. unfold Core_cpu_ids, Core_init, ascending. cbn [cpus].
  assert ((if truthy d then d else []) = d) as -> by (destruct d; reflexivity).
  rewrite OD_of_items_wf.
  - unfold OD.values. rewrite <- list_fmap_compose.
    eapply Sorted_fmap; [|apply (sorted_Sorted (λ pair, cpu_id pair.2))].
    intros x y H. exact H.
  - unfold OD.wf, OD.keys in Hd. rewrite sorted_perm. exact Hd.
Qed.

(** *** What [parse] builds, line after line *)

Lemma OD_mem_keys {V} k (d : OD.t V) : OD.mem k d = bool_decide (k ∈ OD.keys d).
Proof.
  unfold OD.mem. destruct (OD.get k d) eqn:Hg.
  - symmetry. apply bool_decide_eq_true.
    destruct (decide (k ∈ OD.keys d)) as [H|H]; [exact H|].
    apply OD_get_None in H. congruence.
  - symmetry. apply bool_decide_eq_false. apply OD_get_None, Hg.
Qed.

Lemma OD_keys_set_snoc {V} k (v : V) (d : OD.t V) :
  OD.keys (OD.set k v d) = snoc_new (OD.keys d) k.
Proof.
  rewrite OD_keys_set, OD_mem_keys. unfold snoc_new. reflexivity.
Qed.

Section Ensure.
Context {V : Type} (k : Z) (v0 : V) (d : OD.t V).

(** [if k not in d: d[k] = v0] *)
Let ensured : OD.t V := if negb (OD.mem k d) then OD.set k v0 d else d.

Lemma ensure_keys : OD.keys ensured = snoc_new (OD.keys d) k.
Proof.
  unfold ensured. destruct (OD.mem k d) eqn:Hm; cbn [negb].
  - rewrite OD_mem_keys in Hm. unfold snoc_new. rewrite Hm. reflexivity.
  - apply OD_keys_set_snoc.
Qed.

Lemma ensure_get k' :
  OD.get k' ensured =
    match OD.get k' d with
    | Some v => Some v
    | None => if k' =? k then Some v0 else None
    end.
Proof.
  unfold ensured. destruct (OD.mem k d) eqn:Hm; cbn [negb].
  - destruct (OD.get k' d) eqn:Hg; [reflexivity|].
    destruct (Z.eqb_spec k' k) as [->|]; [|reflexivity].
    unfold OD.mem in Hm. rewrite Hg in Hm. discriminate.
  - rewrite OD_get_set. destruct (Z.eqb_spec k' k) as [->|].
    + unfold OD.mem in Hm. destruct (OD.get k d); [discriminate|reflexivity].
    + destruct (OD.get k' d); reflexivity.
Qed.

Lemma ensure_get_key : is_Some (OD.get k ensured).
Proof.
  rewrite ensure_get, Z.eqb_refl. destruct (OD.get k d); eauto.
Qed.

Lemma ensure_Forall (P : Z * V → Prop) :
  P (k, v0) → Forall P d → Forall P ensured.
Proof.
  intros Hv Hd. unfold ensured. destruct (negb (OD.mem k d)); [|exact Hd].
  clear ensured. induction Hd as [|[k1 v1] d Hx Hd IH]; cbn.
  - constructor; [exact Hv|constructor].
  - destruct (k =? k1); constructor; auto.
Qed.

End Ensure.

Lemma OD_set_Forall {V} (P : Z * V → Prop) k v (d : OD.t V) :
  P (k, v) → Forall P d → Forall P (OD.set k v d).
Proof.
  intros Hv. induction 1 as [|[k1 v1] d Hx Hd IH]; cbn.
  - constructor; [exact Hv|constructor].
  - destruct (k =? k1); constructor; auto.
Qed.

Lemma OD_get_Forall {V} (P : Z * V → Prop) k v (d : OD.t V) :
  Forall P d → OD.get k d = Some v → P (k, v).
Proof.
  intros Hd Hg. eapply Forall_forall in Hd; [exact Hd|].
  apply OD_get_Some_elem, Hg.
Qed.

(** The second half of the loop body never fails; it appends the ids that
    are new and keeps every key in its place. *)
Lemma add_cpu_spec iso d sid cid pid :
  ∃ d', add_cpu iso d sid cid pid = Ok d' ∧
        OD.keys d' = snoc_new (OD.keys d) sid ∧
        (∀ k, core_keys_of d' k =
              if k =? sid then snoc_new (core_keys_of d k) cid
              else core_keys_of d k) ∧
        (∀ k ck, cpu_keys_of d' k ck =
                 if (k =? sid) && (ck =? cid)
                 then snoc_new (cpu_keys_of d k ck) pid
                 else cpu_keys_of d k ck) ∧
        (keyed_by_id d → keyed_by_id d').
Proof.
  unfold add_cpu.
  pose proof (ensure_keys sid (Socket_init sid None) d) as Hk1.
  pose proof (ensure_get sid (Socket_init sid None) d) as Hg1.
  pose proof (ensure_get_key sid (Socket_init sid None) d) as [s Hs].
  pose proof (ensure_Forall sid (Socket_init sid None) d
                (λ ks, Forall core_keyed (cores ks.2))) as Hf1.
  cbv zeta in *.
  set (d1 := if negb (OD.mem sid d)
             then OD.set sid (Socket_init sid None) d else d) in *.
  clearbody d1. rewrite Hs. cbn [from_option mbind result_bind].
  pose proof (ensure_keys cid (Core_init cid None) (cores s)) as Hk2.
  pose proof (ensure_get cid (Core_init cid None) (cores s)) as Hg2.
  pose proof (ensure_get_key cid (Core_init cid None) (cores s)) as [c Hc].
  pose proof (ensure_Forall cid (Core_init cid None) (cores s) core_keyed) as Hf2.
  cbv zeta in *.
  set (sc := if negb (OD.mem cid (cores s))
             then OD.set cid (Core_init cid None) (cores s) else cores s) in *.
  clearbody sc. rewrite Hc. cbn [from_option mbind result_bind].
  set (cpu := if bool_decide (cpu_id (CPU_init pid) ∈ iso)
              then {| cpu_id := cpu_id (CPU_init pid); isolated := true |}
              else CPU_init pid).
  assert (cpu_id cpu = pid) as Hcpu by (subst cpu; destruct (bool_decide _); reflexivity).
  clearbody cpu.
  eexists. split; [reflexivity|].
  assert (OD.get sid d = None ∨ OD.get sid d = Some s) as Hs0.
  { specialize (Hg1 sid). rewrite Hs in Hg1. destruct (OD.get sid d); auto. }
  assert (core_keys_of d sid = OD.keys (cores s)) as Hck.
  { unfold core_keys_of. specialize (Hg1 sid). rewrite Hs, Z.eqb_refl in Hg1.
    destruct (OD.get sid d); injection Hg1 as ->; reflexivity. }
  assert (OD.get cid (cores s) = None ∨ OD.get cid (cores s) = Some c) as Hc0.
  { specialize (Hg2 cid). rewrite Hc in Hg2. destruct (OD.get cid (cores s)); auto. }
  assert (match OD.get cid (cores s) with
          | Some c0 => OD.keys (cpus c0)
          | None => []
          end = OD.keys (cpus c)) as Hpk.
  { specialize (Hg2 cid). rewrite Hc, Z.eqb_refl in Hg2.
    destruct (OD.get cid (cores s)); injection Hg2 as ->; reflexivity. }
  split; [|split; [|split]].
  - rewrite OD_keys_set_snoc, Hk1. unfold snoc_new at 1.
    rewrite bool_decide_eq_true_2; [reflexivity|].
    rewrite <- Hk1. destruct (decide (sid ∈ OD.keys d1)) as [H|H]; [exact H|].
    apply OD_get_None in H. congruence.
  - intros k. unfold core_keys_of at 1. rewrite OD_get_set.
    destruct (Z.eqb_spec k sid) as [->|Hne].
    + cbn [cores]. rewrite OD_keys_set_snoc, Hk2, Hck. unfold snoc_new at 1.
      rewrite bool_decide_eq_true_2; [reflexivity|].
      rewrite <- Hk2. destruct (decide (cid ∈ OD.keys sc)) as [H|H]; [exact H|].
      apply OD_get_None in H. congruence.
    + unfold core_keys_of. rewrite Hg1.
      apply Z.eqb_neq in Hne. rewrite Hne. destruct (OD.get k d); reflexivity.
  - assert (∀ ck, cpu_keys_of d sid ck =
                  match OD.get ck (cores s) with
                  | Some c0 => OD.keys (cpus c0)
                  | None => []
                  end) as Hview.
    { intros ck. unfold cpu_keys_of. specialize (Hg1 sid).
      rewrite Hs, Z.eqb_refl in Hg1.
      destruct (OD.get sid d); injection Hg1 as ->; reflexivity. }
    intros k ck. unfold cpu_keys_of at 1. rewrite OD_get_set.
    destruct (Z.eqb_spec k sid) as [->|Hne]; cbn [andb].
    + cbn [cores]. rewrite OD_get_set, Hview.
      destruct (Z.eqb_spec ck cid) as [->|Hne'].
      * cbn [cpus]. rewrite OD_keys_set_snoc, Hpk. reflexivity.
      * rewrite Hg2. apply Z.eqb_neq in Hne'. rewrite Hne'.
        destruct (OD.get ck (cores s)); reflexivity.
    + unfold cpu_keys_of. rewrite Hg1.
      apply Z.eqb_neq in Hne. rewrite Hne. destruct (OD.get k d); reflexivity.
  - intros Hd. specialize (Hf1 (Forall_nil_2 _) Hd).
    pose proof (OD_get_Forall _ _ _ _ Hf1 Hs) as Hs'. cbn in Hs'.
    assert (core_keyed (cid, Core_init cid None)) as Hnew
        by (split; [reflexivity|constructor]).
    specialize (Hf2 Hnew Hs').
    destruct (OD_get_Forall _ _ _ _ Hf2 Hc) as [Hcid Hcpus]. cbn in Hcid, Hcpus.
    apply OD_set_Forall; [|exact Hf1]. cbn.
    apply OD_set_Forall; [|exact Hf2]. split; [exact Hcid|]. cbn.
    apply OD_set_Forall; [exact Hcpu|exact Hcpus].
Qed.

(** C1 (as stated, refuted): [parse] builds each socket and core empty, so
    the ordering done by their constructors has nothing to order, and then
    inserts in order of arrival.  When the lines list core 1 before core 0
    the socket returned holds its cores as 1, 0; when they list CPU 1 before
    CPU 0 the core holds its CPUs as 1, 0. *)
Theorem parse_keeps_arrival_order :
  (∃ p s, parse lscpu_cores_descending None = Ok p ∧
          OD.get 0 (sockets p) = Some s ∧
          Socket_core_ids s = [1; 0] ∧ ¬ ascending (Socket_core_ids s))
  ∧ (∃ p s c, parse lscpu_cpus_descending None = Ok p ∧
              OD.get 0 (sockets p) = Some s ∧ OD.get 0 (cores s) = Some c ∧
              Core_cpu_ids c = [1; 0] ∧ ¬ ascending (Core_cpu_ids c)).
Proof.
  assert (¬ ascending [1; 0]) as Hna.
  { intros H. inversion H as [|? ? _ Hhd]. inversion Hhd. lia. }
  split.
  - eexists _, _. split; [vm_compute; reflexivity|].
    split; [reflexivity|]. split; [reflexivity|exact Hna].
  - eexists _, _, _. split; [vm_compute; reflexivity|].
    split; [reflexivity|]. split; [reflexivity|].
    split; [reflexivity|exact Hna].
Qed.

Lemma foldl_snoc_new_cons init x l :
  foldl snoc_new init (x :: l) = foldl snoc_new (snoc_new init x) l.
Proof. reflexivity. Qed.

Lemma parse_lines_spec iso lines :
  ∀ d d',
    parse_lines iso lines d = Ok d' →
    ∃ recs,
      parse_records lines = Ok recs ∧
      OD.keys d' = foldl snoc_new (OD.keys d) (line_socket <$> recs) ∧
      (∀ k, core_keys_of d' k =
            foldl snoc_new (core_keys_of d k) (cores_listed recs k)) ∧
      (∀ k ck, cpu_keys_of d' k ck =
               foldl snoc_new (cpu_keys_of d k ck) (cpus_listed recs k ck)) ∧
      (keyed_by_id d → keyed_by_id d').
Proof.
  induction lines as [|line lines IH]; intros d d'; cbn [parse_lines parse_records].
  { intros [= <-]. exists []. repeat split; auto. }
  intros (d1 & Hline & Hrest)%result_bind_ok.
  unfold parse_line in Hline.
  apply result_bind_ok in Hline as (ids & Hids & Hadd). rewrite Hids.
  destruct (IH d1 d' Hrest) as (recs & Hrecs & Hkeys & Hcores & Hcpus & Hkeyed).
  rewrite Hrecs. cbn [mbind result_bind mret result_ret].
  destruct ids as [r|].
  - destruct (add_cpu_spec iso d (line_socket r) (line_core r) (line_cpu r))
      as (d1' & Hadd' & Hk1 & Hc1 & Hp1 & Hkeyed1).
    rewrite Hadd in Hadd'. injection Hadd' as <-.
    exists (r :: recs). split; [reflexivity|]. split; [|split; [|split]].
    + rewrite Hkeys, Hk1. reflexivity.
    + intros k. rewrite Hcores, Hc1. unfold cores_listed. cbn [List.filter].
      rewrite (Z.eqb_sym (line_socket r) k).
      destruct (k =? line_socket r); reflexivity.
    + intros k ck. rewrite Hcpus, Hp1. unfold cpus_listed. cbn [List.filter].
      rewrite (Z.eqb_sym (line_socket r) k), (Z.eqb_sym (line_core r) ck).
      destruct ((k =? line_socket r) && (ck =? line_core r)); reflexivity.
    + auto.
  - injection Hadd as <-. exists recs. repeat split; auto.
Qed.

Lemma keyed_core_ids (cs : OD.t Core) :
  Forall core_keyed cs → core_id <$> OD.values cs = OD.keys cs.
Proof.
  unfold OD.values, OD.keys. induction 1 as [|[k c] cs [Hk _] _ IH]; cbn in *;
    [reflexivity|]. rewrite Hk, IH. reflexivity.
Qed.

Lemma keyed_cpu_ids (ps : OD.t CPU) :
  Forall (λ kp : Z * CPU, cpu_id kp.2 = kp.1) ps →
  cpu_id <$> OD.values ps = OD.keys ps.
Proof.
  unfold OD.values, OD.keys. induction 1 as [|[k c] ps Hk _ IH]; cbn in *;
    [reflexivity|]. rewrite Hk, IH. reflexivity.
Qed.

(** C1 (amended): in the platform that [parse] returns, the sockets, the
    cores of every socket and the CPUs of every core are listed in the order
    in which the lines of the input first give their ids; the mappings are
    thus ascending when the ids first appear in ascending order, and nothing
    orders them otherwise. *)
Theorem parse_order_of_appearance text iso p :
  parse text iso = Ok p →
  ∃ recs,
    parse_records (PyStr.split (ascii_of_nat 10) text) = Ok recs ∧
    OD.keys (sockets p) = first_seen (line_socket <$> recs) ∧
    ∀ k s,
      OD.get k (sockets p) = Some s →
      Socket_core_ids s = first_seen (cores_listed recs k) ∧
      ∀ ck c,
        OD.get ck (cores s) = Some c →
        Core_cpu_ids c = first_seen (cpus_listed recs k ck).
Proof.
  unfold parse. intros (d & Hd & [= <-])%result_bind_ok. cbn [sockets].
  destruct (parse_lines_spec _ _ _ _ Hd)
    as (recs & Hrecs & Hkeys & Hcores & Hcpus & Hkeyed).
  exists recs. split; [exact Hrecs|]. split; [exact Hkeys|].
  specialize (Hkeyed (Forall_nil_2 _)).
  intros k s Hs.
  pose proof (OD_get_Forall _ _ _ _ Hkeyed Hs) as Hscores. cbn in Hscores.
  split.
  - unfold Socket_core_ids. rewrite (keyed_core_ids _ Hscores).
    specialize (Hcores k). unfold core_keys_of in Hcores. rewrite Hs in Hcores.
    exact Hcores.
  - intros ck c Hc.
    destruct (OD_get_Forall _ _ _ _ Hscores Hc) as [_ Hccpus]. cbn in Hccpus.
    unfold Core_cpu_ids. rewrite (keyed_cpu_ids _ Hccpus).
    specialize (Hcpus k ck). unfold cpu_keys_of in Hcpus.
    rewrite Hs, Hc in Hcpus. exact Hcpus.
Qed.

Lemma parse_order_of_appearance_witness :
  ∃ p recs,
    parse lscpu_sample (Some [1; 3]) = Ok p ∧
    parse_records (PyStr.split (ascii_of_nat 10) lscpu_sample) = Ok recs ∧
    OD.keys (sockets p) = first_seen (line_socket <$> recs) ∧
    first_seen (line_socket <$> recs) = [0; 1] ∧
    first_seen (cores_listed recs 0) = [0; 1] ∧
    first_seen (cpus_listed recs 0 0) = [0; 3].
Proof.
  assert (∃ p, parse lscpu_sample (Some [1; 3]) = Ok p) as [p Hp]
      by (eexists; vm_compute; reflexivity).
  destruct (parse_order_of_appearance _ _ _ Hp) as (recs & Hrecs & Hkeys & _).
  exists p, recs. split; [exact Hp|]. split; [exact Hrecs|].
  split; [exact Hkeys|].
  assert (Ok recs = parse_records (PyStr.split (ascii_of_nat 10) lscpu_sample))
    as Heq by (symmetry; exact Hrecs).
  vm_compute in Heq. injection Heq as ->. repeat split; reflexivity.
Defined.

(** ** Allocation: examples *)

Example packed_two_sockets :
  core_id <$> allocate_packed two_sockets false = [0; 1; 2; 3].
Proof. reflexivity. Qed.

Example spread_two_sockets :
  (λ l : list Core, core_id <$> l) <$> allocate_spread two_sockets false = Some [0; 3; 1; 2].
Proof. reflexivity. Qed.

Example spread_two_sockets_isolated :
  (λ l : list Core, core_id <$> l) <$> get_cores_general two_sockets "spread" true = Some [0; 3; 2].
Proof. reflexivity. Qed.

Example fallback_two_sockets :
  (λ l : list Core, core_id <$> l) <$> get_cores_general two_sockets "vertical" true = Some [0; 2; 3].
Proof. reflexivity. Qed.

(** ** The spread loop *)

Section SpreadLoop.
Context {A : Type}.
Implicit Types (sc : OD.t (list A)) (out : list A).

Lemma OD_get_app_fresh {V} k (pre d : OD.t V) :
  k ∉ OD.keys pre → OD.get k (pre ++ d) = OD.get k d.
Proof.
  unfold OD.keys. induction pre as [|[k0 v0] pre IH]; cbn; [reflexivity|].
  rewrite not_elem_of_cons. intros [Hne Hk].
  destruct (Z.eqb_spec k k0); [contradiction|]. auto.
Qed.

Lemma OD_set_app_fresh {V} k (v : V) (pre d : OD.t V) :
  k ∉ OD.keys pre → OD.set k v (pre ++ d) = pre ++ OD.set k v d.
Proof.
  unfold OD.keys. induction pre as [|[k0 v0] pre IH]; cbn; [reflexivity|].
  rewrite not_elem_of_cons. intros [Hne Hk].
  destruct (Z.eqb_spec k k0); [contradiction|]. rewrite (IH Hk). reflexivity.
Qed.

Lemma OD_del_app_fresh {V} k (pre d : OD.t V) :
  k ∉ OD.keys pre → OD.del k (pre ++ d) = pre ++ OD.del k d.
Proof.
  unfold OD.keys. induction pre as [|[k0 v0] pre IH]; cbn; [reflexivity|].
  rewrite not_elem_of_cons. intros [Hne Hk].
  destruct (Z.eqb_spec k k0); [contradiction|]. rewrite (IH Hk). reflexivity.
Qed.

(** One pass over the snapshot of the keys, from any point of the pass. *)
Lemma spread_steps_spec todo pre out :
  OD.wf (pre ++ todo) →
  foldl spread_step (pre ++ todo, out) (OD.keys todo) =
    (pre ++ round_tails todo, out ++ round_heads todo).
Proof.
  revert pre out. induction todo as [|[k l] todo IH]; intros pre out Hwf.
  { cbn. rewrite !app_nil_r. reflexivity. }
  assert (k ∉ OD.keys pre) as Hk.
  { unfold OD.wf, OD.keys in *. rewrite fmap_app in Hwf.
    apply NoDup_app in Hwf as (_ & Hd & _). intros Hin.
    apply (Hd k Hin). left. }
  cbn [OD.keys fmap list_fmap foldl fst]. unfold spread_step at 2.
  rewrite (OD_get_app_fresh _ _ _ Hk). cbn [OD.get]. rewrite Z.eqb_refl.
  destruct l as [|x rest].
  - rewrite (OD_del_app_fresh _ _ _ Hk). cbn [OD.del]. rewrite Z.eqb_refl.
    cbn [round_tails round_heads]. apply IH.
    unfold OD.wf, OD.keys in *. rewrite fmap_app in *. cbn in Hwf.
    eapply NoDup_app in Hwf as (H1 & H2 & H3%NoDup_cons).
    apply NoDup_app. split; [exact H1|]. split; [|apply H3].
    intros y Hy Hy'. apply (H2 y Hy). right. exact Hy'.
  - rewrite (OD_set_app_fresh _ _ _ _ Hk). cbn [OD.set]. rewrite Z.eqb_refl.
    cbn [round_tails round_heads].
    replace (pre ++ (k, rest) :: todo) with ((pre ++ [(k, rest)]) ++ todo)
      by (rewrite <- app_assoc; reflexivity).
    change (OD.keys todo) with (todo.*1). fold (OD.keys todo).
    rewrite IH.
    + rewrite <- !app_assoc. reflexivity.
    + unfold OD.wf, OD.keys in *. rewrite <- app_assoc.
      rewrite fmap_app in *. exact Hwf.
Qed.

Lemma spread_round_spec sc out :
  OD.wf sc → spread_round (sc, out) = (round_tails sc, out ++ round_heads sc).
Proof. intros Hwf. apply (spread_steps_spec sc [] out Hwf). Qed.

Lemma round_tails_keys_sublist sc :
  OD.keys (round_tails sc) `sublist_of` OD.keys sc.
Proof.
  unfold OD.keys. induction sc as [|[k [|x l]] sc IH]; cbn.
  - constructor.
  - apply sublist_cons, IH.
  - apply sublist_skip, IH.
Qed.

Lemma round_tails_wf sc : OD.wf sc → OD.wf (round_tails sc).
Proof.
  unfold OD.wf. intros H.
  eapply sublist_NoDup; [exact H|apply round_tails_keys_sublist].
Qed.

Lemma round_fuel sc :
  (spread_fuel (round_tails sc) + length sc = spread_fuel sc)%nat.
Proof.
  unfold spread_fuel, OD.values.
  induction sc as [|[k [|x l]] sc IH]; cbn [fmap list_fmap round_tails concat length snd app] in *.
  - reflexivity.
  - lia.
  - rewrite !length_app. lia.
Qed.

Lemma rounds_nil n : concat (rounds n ([] : OD.t (list A))) = [].
Proof. induction n as [|n IH]; cbn; [reflexivity|exact IH]. Qed.

(** With enough passes the loop ends, and its output is the outputs of the
    successive passes in order. *)
Lemma spread_loop_rounds fuel sc out :
  OD.wf sc → (spread_fuel sc ≤ fuel)%nat →
  spread_loop fuel (sc, out) = Some (out ++ concat (rounds fuel sc)).
Proof.
  revert sc out. induction fuel as [|fuel IH]; intros sc out Hwf Hfuel.
  - destruct sc; [|cbn in Hfuel; lia]. cbn. rewrite app_nil_r. reflexivity.
  - destruct sc as [|e sc'] eqn:Hsc.
    { cbn [spread_loop fst length Nat.ltb Nat.leb snd].
      rewrite rounds_nil, app_nil_r. reflexivity. }
    rewrite <- Hsc in *.
    assert ((0 <? length sc)%nat = true) as Hlen
        by (rewrite Hsc; reflexivity).
    cbn [spread_loop fst]. rewrite Hlen, (spread_round_spec _ _ Hwf).
    rewrite IH.
    + cbn [rounds concat]. rewrite app_assoc. reflexivity.
    + apply round_tails_wf, Hwf.
    + pose proof (round_fuel sc). apply Nat.ltb_lt in Hlen. lia.
Qed.

Lemma round_perm sc :
  concat (OD.values sc) ≡ₚ
    round_heads sc ++ concat (OD.values (round_tails sc)).
Proof.
  unfold OD.values. induction sc as [|[k [|x l]] sc IH]; cbn.
  - reflexivity.
  - exact IH.
  - rewrite IH. constructor. rewrite !app_assoc.
    apply Permutation_app_tail, Permutation_app_comm.
Qed.

Lemma rounds_perm fuel sc :
  (spread_fuel sc ≤ fuel)%nat → concat (rounds fuel sc) ≡ₚ concat (OD.values sc).
Proof.
  revert sc. induction fuel as [|fuel IH]; intros sc Hfuel.
  - destruct sc; [reflexivity|cbn in Hfuel; lia].
  - cbn [rounds concat]. rewrite round_perm.
    destruct sc as [|e sc'] eqn:Hsc.
    + cbn. rewrite rounds_nil. reflexivity.
    + rewrite <- Hsc in *. apply Permutation_app_head, IH.
      pose proof (round_fuel sc). rewrite Hsc in H at 2. cbn in H. lia.
Qed.

End SpreadLoop.

(** ** Packed and spread allocation *)

Lemma foldl_app_concat {A B} (f : B → list A) (l : list B) (acc : list A) :
  foldl (λ acc x, acc ++ f x) acc l = acc ++ concat (f <$> l).
Proof.
  revert acc. induction l as [|x l IH]; intros acc; cbn.
  - rewrite app_nil_r. reflexivity.
  - rewrite IH, app_assoc. reflexivity.
Qed.

Lemma allocate_packed_concat p iso :
  allocate_packed p iso = concat (selected_cores iso <$> OD.values (sockets p)).
Proof. unfold allocate_packed. rewrite foldl_app_concat. reflexivity. Qed.

Lemma concat_app_fmap {A B} (f : B → list A) (l1 l2 : list B) :
  concat (f <$> (l1 ++ l2)) = concat (f <$> l1) ++ concat (f <$> l2).
Proof. rewrite fmap_app. apply concat_app. Qed.

Lemma length_concat_sum {A} (ls : list (list A)) :
  length (concat ls) = sum_list (length <$> ls).
Proof.
  induction ls as [|l ls IH]; cbn; [reflexivity|].
  rewrite length_app, IH. reflexivity.
Qed.

Section SpreadInit.
Context {A : Type} (get : Z → Socket → list A).

Lemma spread_init_foldl (p : Platform) todo pre :
  OD.wf (sockets p) → sockets p = pre ++ todo →
  foldl (λ socket_cores socket,
           match OD.get socket (sockets p) with
           | Some s => OD.set socket (get socket s) socket_cores
           | None => socket_cores
           end)
        ((entry_of get) <$> pre) (OD.keys todo) = (entry_of get) <$> sockets p.
Proof.
  intros Hwf. revert pre. induction todo as [|[k s] todo IH]; intros pre Hp.
  - rewrite Hp, app_nil_r. reflexivity.
  - cbn [OD.keys fmap list_fmap foldl fst].
    rewrite (OD_get_wf k s (sockets p) Hwf)
      by (rewrite Hp; apply elem_of_app; right; left).
    rewrite OD_set_fresh.
    + change (OD.keys todo) with (todo.*1) in IH.
      replace (((entry_of get) <$> pre) ++ [(k, get k s)])
        with ((entry_of get) <$> (pre ++ [(k, s)]))
        by (rewrite fmap_app; reflexivity).
      apply IH. rewrite Hp, <- app_assoc. reflexivity.
    + unfold OD.wf, OD.keys in *. rewrite Hp, fmap_app in Hwf.
      apply NoDup_app in Hwf as (_ & Hd & _).
      rewrite <- list_fmap_compose. intros Hin. apply (Hd k); [exact Hin|left].
Qed.

Lemma spread_init_spec p :
  OD.wf (sockets p) → spread_init get p = (entry_of get) <$> sockets p.
Proof. intros Hwf. apply (spread_init_foldl p (sockets p) [] Hwf eq_refl). Qed.

Lemma spread_init_keys p :
  OD.wf (sockets p) → OD.keys (spread_init get p) = OD.keys (sockets p).
Proof.
  intros Hwf. rewrite (spread_init_spec p Hwf). unfold OD.keys.
  rewrite <- list_fmap_compose. reflexivity.
Qed.

Lemma spread_init_wf p : OD.wf (sockets p) → OD.wf (spread_init get p).
Proof. intros Hwf. unfold OD.wf. rewrite spread_init_keys; exact Hwf. Qed.

(** The spread loop always ends, with the outputs of its passes. *)
Lemma spread_rounds p :
  OD.wf (sockets p) →
  spread get p =
    Some (concat (rounds (spread_fuel (spread_init get p)) (spread_init get p))).
Proof.
  intros Hwf. unfold spread.
  rewrite spread_loop_rounds; [reflexivity|apply spread_init_wf, Hwf|lia].
Qed.

Lemma spread_perm p out :
  OD.wf (sockets p) → spread get p = Some out →
  out ≡ₚ concat ((λ ks, get ks.1 ks.2) <$> sockets p).
Proof.
  intros Hwf. rewrite (spread_rounds p Hwf). intros [= <-].
  rewrite rounds_perm by lia. rewrite (spread_init_spec p Hwf).
  unfold OD.values. rewrite <- list_fmap_compose. reflexivity.
Qed.

End SpreadInit.

(** C5: packed allocation is the concatenation, in the iteration order of
    the platform, of the core list of each socket (all its cores in the order
    of its core mapping, or the isolated ones among them in that order); so
    the cores of a socket all come before those of any later socket. *)
Theorem allocate_packed_order :
  (∀ p iso,
      get_cores_general p "packed" iso = Some (allocate_packed p iso) ∧
      allocate_packed p iso =
        concat (selected_cores iso <$> OD.values (sockets p)))
  ∧ (∀ s, selected_cores false s = OD.values (cores s) ∧
          selected_cores true s = List.filter is_isolated (OD.values (cores s)))
  ∧ (∀ p iso pre si mid sj post,
      OD.values (sockets p) = pre ++ si :: mid ++ sj :: post →
      allocate_packed p iso =
        concat (selected_cores iso <$> pre) ++ selected_cores iso si ++
        concat (selected_cores iso <$> mid) ++ selected_cores iso sj ++
        concat (selected_cores iso <$> post)).
Proof.
  split; [|split].
  - intros p iso. split; [reflexivity|apply allocate_packed_concat].
  - intros s. split; reflexivity.
  - intros p iso pre si mid sj post Hp.
    rewrite allocate_packed_concat, Hp.
    rewrite concat_app_fmap. cbn [fmap list_fmap concat].
    rewrite concat_app_fmap. reflexivity.
Qed.

Lemma allocate_packed_order_witness :
  OD.values (sockets two_sockets) =
    [] ++ {| socket_id := 0;
             cores := [(0, mkCore 0 None [(0, mkCPU 0 true)]);
                       (1, mkCore 1 None [(1, mkCPU 1 false)]);
                       (2, mkCore 2 None [(2, mkCPU 2 true)])] |}
       :: [] ++ {| socket_id := 1;
                   cores := [(3, mkCore 3 None [(3, mkCPU 3 true)])] |} :: []
  ∧ core_id <$> allocate_packed two_sockets true = [0; 2] ++ [3].
Proof.
  split; [reflexivity|].
  rewrite (proj2 (proj2 allocate_packed_order) two_sockets true [] _ [] _ []
             eq_refl).
  reflexivity.
Defined.

(** C6: packed and spread allocation return the same cores: the spread list
    is a permutation of the packed list, and both have as many elements as
    the sockets have selected cores in total. *)
Theorem allocate_spread_permutation p iso :
  OD.wf (sockets p) →
  ∃ out, allocate_spread p iso = Some out ∧
         out ≡ₚ allocate_packed p iso ∧
         length out = length (allocate_packed p iso) ∧
         length (allocate_packed p iso) =
           sum_list ((λ s, length (selected_cores iso s)) <$> OD.values (sockets p)).
Proof.
  intros Hwf. unfold allocate_spread.
  rewrite (spread_rounds _ p Hwf). eexists. split; [reflexivity|].
  assert (concat (rounds (spread_fuel (spread_init (λ _, selected_cores iso) p))
                    (spread_init (λ _, selected_cores iso) p))
          ≡ₚ allocate_packed p iso) as Hperm.
  { rewrite (spread_perm _ p _ Hwf (spread_rounds _ p Hwf)).
    rewrite allocate_packed_concat. unfold OD.values.
    rewrite <- list_fmap_compose. reflexivity. }
  split; [exact Hperm|]. split; [rewrite Hperm; reflexivity|].
  rewrite allocate_packed_concat, length_concat_sum, <- list_fmap_compose.
  reflexivity.
Qed.

Lemma allocate_spread_permutation_witness :
  OD.wf (sockets two_sockets) ∧
  ∃ out, allocate_spread two_sockets false = Some out ∧
         out ≡ₚ allocate_packed two_sockets false ∧
         length out = length (allocate_packed two_sockets false) ∧
         length (allocate_packed two_sockets false) =
           sum_list ((λ s, length (selected_cores false s))
                       <$> OD.values (sockets two_sockets)).
Proof.
  assert (OD.wf (sockets two_sockets)) as Hwf by (unfold OD.wf; compute_done).
  split; [exact Hwf|]. apply (allocate_spread_permutation two_sockets false Hwf).
Defined.

(** C7: a mode other than "packed" and "spread" is served as "packed". *)
Theorem get_cores_general_fallback p mode iso :
  mode ≠ "packed"%string → mode ≠ "spread"%string →
  get_cores_general p mode iso = get_cores_general p "packed" iso ∧
  get_cores_general p mode iso = Some (allocate_packed p iso).
Proof.
  intros Hp Hs. unfold get_cores_general.
  rewrite bool_decide_eq_false_2; [split; reflexivity|].
  rewrite !elem_of_cons, elem_of_nil. intros [?|[?|[]]]; contradiction.
Qed.

Lemma get_cores_general_fallback_witness :
  get_cores_general two_sockets "vertical" true =
    get_cores_general two_sockets "packed" true ∧
  get_cores_general two_sockets "vertical" true =
    Some (allocate_packed two_sockets true).
Proof.
  apply get_cores_general_fallback; intros H; discriminate H.
Defined.

(** ** Round robin *)

Lemma rounds_order (K K' pre : list Z) (s : Z) (k' j c : list Z) :
  NoDup K → K' `sublist_of` K → K = pre ++ s :: k' → K' = j ++ s :: c →
  (∀ x, x ∈ j → x ∈ pre) ∧ (∀ x, x ∈ c → x ∈ k').
Proof.
  intros HK Hsub -> ->.
  apply sublist_app_l in Hsub as (k1 & k2 & Heq & Hj & Hsc).
  apply sublist_cons_l in Hsc as (l1 & l2 & -> & Hc).
  rewrite app_assoc in Heq.
  pose proof HK as HK'. rewrite Heq in HK'.
  apply NoDup_app in HK as (_ & Hpre & _).
  apply NoDup_app in HK' as (_ & Hk1 & _).
  apply not_elem_of_app_cons_inv_l in Heq as (-> & _ & ->).
  - split; intros x Hx.
    + apply elem_of_app. left. eapply elem_of_sublist; eassumption.
    + eapply elem_of_sublist; eassumption.
  - intros Hs. apply (Hk1 s Hs). left.
  - intros Hs. apply (Hpre s Hs). left.
Qed.

Lemma rr_rounds_first (K : list Z) Ks (x : Z) :
  rr_rounds (K :: Ks) → x ∈ concat (K :: Ks) → x ∈ K.
Proof.
  intros Hrr. inversion Hrr as [|? ? _ Hsub _]; subst.
  cbn. intros [Hx|Hx]%elem_of_app; [exact Hx|].
  apply elem_of_concat in Hx as (K' & Hx & HK').
  eapply elem_of_sublist; [exact Hx|]. apply Hsub, HK'.
Qed.

(** Between two consecutive occurrences of a key in the rounds, no key
    occurs twice and every other key still to come occurs. *)
Lemma rr_rounds_gap Ks :
  rr_rounds Ks →
  ∀ pre s mid post,
    concat Ks = pre ++ s :: mid ++ s :: post → s ∉ mid →
    NoDup mid ∧ ∀ t, t ≠ s → t ∈ mid ++ post → t ∈ mid.
Proof.
  induction 1 as [|K Ks HK Hsub Hrr IH]; intros pre s mid post Heq Hs.
  { destruct pre; discriminate. }
  cbn [concat] in Heq.
  apply app_eq_inv in Heq as [(k & HKeq & Hrest)|(k & -> & Hrest)];
    [|eapply IH; eassumption].
  destruct k as [|s' k'].
  { eapply (IH []); [symmetry; exact Hrest|exact Hs]. }
  injection Hrest as <- Hrest.
  assert (s ∉ k') as Hsk'.
  { rewrite HKeq in HK. apply NoDup_app in HK as (_ & _ & [? _]%NoDup_cons).
    assumption. }
  assert (∃ j, mid = k' ++ j ∧ concat Ks = j ++ s :: post) as (j & -> & HC).
  { apply app_eq_inv in Hrest as [(j & Hmid & HC)|(j & Hk' & Hsp)].
    - exists j. auto.
    - destruct j as [|s' j'].
      + exists []. rewrite app_nil_r in Hk'. cbn in Hsp.
        rewrite app_nil_r. auto.
      + injection Hsp as <- _. exfalso. apply Hsk'. rewrite Hk'.
        apply elem_of_app. right. left. }
  assert (s ∉ j) as Hsj.
  { intros Hin. apply Hs, elem_of_app. right. exact Hin. }
  destruct Ks as [|K' Ks']; [destruct j; discriminate|].
  assert (s ∈ K') as HsK'.
  { apply (rr_rounds_first K' Ks' s Hrr). rewrite HC.
    apply elem_of_app. right. left. }
  apply list_elem_of_split_l in HsK' as (b & c & HK'eq & Hsb).
  cbn [concat] in HC. rewrite HK'eq, <- app_assoc in HC. cbn [app] in HC.
  apply not_elem_of_app_cons_inv_l in HC as (-> & _ & Hpost);
    [|assumption..].
  assert (K' `sublist_of` K) as HK'K by (apply Hsub; left).
  destruct (rounds_order K K' pre s k' j c HK HK'K HKeq HK'eq) as [Hj Hc].
  assert (NoDup K') as HndK' by (eapply sublist_NoDup; eassumption).
  rewrite HKeq in HK. apply NoDup_app in HK as (_ & Hpre & [_ Hk']%NoDup_cons).
  split.
  - apply NoDup_app. split; [exact Hk'|]. split.
    + intros x Hx Hxj. apply (Hpre x (Hj x Hxj)). right. exact Hx.
    + rewrite HK'eq in HndK'. apply NoDup_app in HndK' as (? & _ & _).
      assumption.
  - intros t Hts Ht. rewrite elem_of_app.
    rewrite <- Hpost, !elem_of_app in Ht.
    destruct Ht as [[?|?]|[Htc|HtKs]]; [auto..|].
    assert (t ∈ K') as HtK'.
    { apply (rr_rounds_first K' Ks' t Hrr). cbn. apply elem_of_app. auto. }
    rewrite HK'eq, elem_of_app, elem_of_cons in HtK'.
    destruct HtK' as [?|[?|?]]; [auto|contradiction|auto].
Qed.

Lemma occurrences_NoDup t l :
  NoDup l → (occurrences t l ≤ 1)%nat ∧ (t ∈ l → occurrences t l = 1%nat).
Proof.
  unfold occurrences. induction 1 as [|x l Hx Hl IH]; cbn.
  - split; [lia|]. intros H. inversion H.
  - destruct (Z.eqb_spec t x) as [->|Hne]; cbn.
    + assert (length (List.filter (Z.eqb x) l) = 0%nat) as ->.
      { destruct (List.filter (Z.eqb x) l) as [|y l'] eqn:Hf; [reflexivity|].
        exfalso. assert (In y (List.filter (Z.eqb x) l)) as Hy
            by (rewrite Hf; left; reflexivity).
        apply filter_In in Hy as [Hy ->%Z.eqb_eq].
        apply Hx, list_elem_of_In, Hy. }
      split; [lia|reflexivity].
    + destruct IH as [IH1 IH2]. split; [exact IH1|].
      intros [?|Hin]%elem_of_cons; [contradiction|auto].
Qed.

Section MapLists.
Context {A B : Type} (f : A → B).

Lemma round_heads_map (sc : OD.t (list A)) :
  round_heads (map_lists f sc) = f <$> round_heads sc.
Proof.
  unfold map_lists. induction sc as [|[k [|x l]] sc IH]; cbn.
  - reflexivity.
  - exact IH.
  - f_equal. exact IH.
Qed.

Lemma round_tails_map (sc : OD.t (list A)) :
  round_tails (map_lists f sc) = map_lists f (round_tails sc).
Proof.
  unfold map_lists. induction sc as [|[k [|x l]] sc IH]; cbn.
  - reflexivity.
  - exact IH.
  - f_equal. exact IH.
Qed.

Lemma rounds_map n (sc : OD.t (list A)) :
  rounds n (map_lists f sc) = fmap (M:=list) f <$> rounds n sc.
Proof.
  revert sc. induction n as [|n IH]; intros sc; cbn; [reflexivity|].
  rewrite round_heads_map, round_tails_map, IH. reflexivity.
Qed.

Lemma concat_fmap (ls : list (list A)) :
  concat (fmap (M:=list) f <$> ls) = f <$> concat ls.
Proof.
  induction ls as [|l ls IH]; cbn; [reflexivity|].
  rewrite fmap_app, IH. reflexivity.
Qed.

Lemma spread_fuel_map (sc : OD.t (list A)) :
  spread_fuel (map_lists f sc) = spread_fuel sc.
Proof.
  unfold spread_fuel, map_lists, OD.values.
  rewrite length_fmap, <- list_fmap_compose. f_equal.
  induction sc as [|[k l] sc IH]; cbn; [reflexivity|].
  rewrite !length_app, length_fmap, IH. reflexivity.
Qed.

Lemma map_lists_keys (sc : OD.t (list A)) :
  OD.keys (map_lists f sc) = OD.keys sc.
Proof. unfold OD.keys, map_lists. rewrite <- list_fmap_compose. reflexivity. Qed.

Lemma spread_init_map (get : Z → Socket → list A) p :
  OD.wf (sockets p) →
  map_lists f (spread_init get p) = spread_init (λ k s, f <$> get k s) p.
Proof.
  intros Hwf. rewrite !spread_init_spec by exact Hwf.
  unfold map_lists. rewrite <- list_fmap_compose. reflexivity.
Qed.

(** Applying [f] to the cores does not change the course of the loop. *)
Lemma spread_map (get : Z → Socket → list A) p :
  OD.wf (sockets p) →
  spread (λ k s, f <$> get k s) p = fmap (M:=list) f <$> spread get p.
Proof.
  intros Hwf.
  assert (OD.wf (sockets p)) as Hwf' by exact Hwf.
  rewrite !spread_rounds by exact Hwf.
  rewrite <- (spread_init_map get p Hwf), spread_fuel_map, rounds_map.
  rewrite concat_fmap. reflexivity.
Qed.

End MapLists.

Lemma key_lists_heads (sc : OD.t (list Z)) :
  key_lists sc → round_heads sc = OD.keys (round_tails sc).
Proof.
  unfold key_lists, OD.keys.
  induction 1 as [|[k [|x l]] sc Hkl Hsc IH]; cbn in *; [reflexivity|exact IH|].
  apply Forall_cons in Hkl as [<- _]. f_equal. exact IH.
Qed.

Lemma key_lists_tails (sc : OD.t (list Z)) :
  key_lists sc → key_lists (round_tails sc).
Proof.
  unfold key_lists.
  induction 1 as [|[k [|x l]] sc Hkl Hsc IH]; cbn in *; [constructor|exact IH|].
  apply Forall_cons in Hkl as [_ Hl]. constructor; [exact Hl|exact IH].
Qed.

Lemma rounds_sublist_keys n (sc : OD.t (list Z)) K :
  key_lists sc → K ∈ rounds n sc → K `sublist_of` OD.keys sc.
Proof.
  revert sc. induction n as [|n IH]; intros sc Hkl; cbn.
  - intros H. inversion H.
  - intros [->|HK]%elem_of_cons.
    + rewrite (key_lists_heads sc Hkl). apply round_tails_keys_sublist.
    + etrans; [|apply round_tails_keys_sublist].
      apply IH; [apply key_lists_tails, Hkl|exact HK].
Qed.

Lemma rounds_rr n (sc : OD.t (list Z)) :
  OD.wf sc → key_lists sc → rr_rounds (rounds n sc).
Proof.
  revert sc. induction n as [|n IH]; intros sc Hwf Hkl; cbn; [constructor|].
  pose proof (round_tails_wf sc Hwf) as Hwf'.
  pose proof (key_lists_tails sc Hkl) as Hkl'.
  constructor.
  - rewrite (key_lists_heads sc Hkl). exact Hwf'.
  - intros K' HK'. rewrite (key_lists_heads sc Hkl).
    apply (rounds_sublist_keys n _ K' Hkl' HK').
  - apply IH; assumption.
Qed.

Lemma labelled_keys_key_lists p iso :
  OD.wf (sockets p) →
  key_lists (map_lists fst (spread_init (labelled_cores iso) p)).
Proof.
  intros Hwf. rewrite (spread_init_spec _ p Hwf).
  unfold key_lists, map_lists. rewrite <- list_fmap_compose.
  apply Forall_fmap, Forall_forall. intros [k s] _. cbn.
  unfold labelled_cores. rewrite <- list_fmap_compose.
  apply Forall_fmap, Forall_forall. intros c _. reflexivity.
Qed.

Lemma labelled_cores_snd iso k s :
  (labelled_cores iso k s).*2 = selected_cores iso s.
Proof.
  unfold labelled_cores. rewrite <- list_fmap_compose.
  apply list_fmap_id.
Qed.

(** The labels do not change the cores that the loop returns. *)
Lemma allocate_spread_labelled_snd p iso :
  OD.wf (sockets p) →
  allocate_spread p iso = fmap (M:=list) snd <$> allocate_spread_labelled p iso.
Proof.
  intros Hwf. unfold allocate_spread, allocate_spread_labelled.
  rewrite <- (spread_map snd _ p Hwf). unfold spread.
  assert (spread_init (λ _, selected_cores iso) p =
          spread_init (λ k s, (labelled_cores iso k s).*2) p) as ->;
    [|reflexivity].
  rewrite !spread_init_spec by exact Hwf.
  apply list_fmap_ext. intros i [k s] _. unfold entry_of. cbn.
  rewrite labelled_cores_snd. reflexivity.
Qed.

(** C4: spread allocation is a round robin over the sockets.  In the list
    it returns, labelled with the key of the socket each core comes from,
    between two consecutive cores of a socket no other socket occurs twice,
    and every other socket that still has a core to give occurs exactly
    once. *)
Theorem spread_round_robin p iso :
  OD.wf (sockets p) →
  ∃ tr, allocate_spread_labelled p iso = Some tr ∧
        get_cores_general p "spread" iso = Some tr.*2 ∧
        tr ≡ₚ concat ((λ ks, labelled_cores iso ks.1 ks.2) <$> sockets p) ∧
        ∀ pre s mid post,
          tr.*1 = pre ++ s :: mid ++ s :: post → s ∉ mid →
          ∀ t, t ≠ s →
               (occurrences t mid ≤ 1)%nat ∧
               (t ∈ mid ++ post → occurrences t mid = 1%nat).
Proof.
  intros Hwf.
  pose proof (spread_rounds (labelled_cores iso) p Hwf) as Htr.
  eexists. split; [exact Htr|]. split; [|split].
  - change (get_cores_general p "spread" iso) with (allocate_spread p iso).
    rewrite (allocate_spread_labelled_snd p iso Hwf).
    unfold allocate_spread_labelled. rewrite Htr. reflexivity.
  - apply (spread_perm _ p _ Hwf Htr).
  - intros pre s mid post Heq Hs t Hts.
    rewrite <- concat_fmap, <- rounds_map in Heq.
    destruct (rr_rounds_gap _ (rounds_rr _ _
                (eq_ind_r NoDup (spread_init_wf _ p Hwf) (map_lists_keys fst _))
                (labelled_keys_key_lists p iso Hwf))
                pre s mid post Heq Hs) as [Hnd Hin].
    destruct (occurrences_NoDup t mid Hnd) as [Hle Hone].
    split; [exact Hle|]. intros Ht. apply Hone, Hin; assumption.
Qed.

Lemma spread_round_robin_witness :
  OD.wf (sockets two_sockets) ∧
  ∃ tr, allocate_spread_labelled two_sockets false = Some tr ∧
        get_cores_general two_sockets "spread" false = Some tr.*2 ∧
        (tr.*1 = [] ++ 0 :: [1] ++ 0 :: [0] → 0 ∉ [1] → 1 ≠ 0 →
         (occurrences 1%Z [1%Z] ≤ 1)%nat ∧
         (1 ∈ [1] ++ [0] → occurrences 1 [1] = 1%nat)).
Proof.
  assert (OD.wf (sockets two_sockets)) as Hwf by (unfold OD.wf; compute_done).
  split; [exact Hwf|].
  destruct (spread_round_robin two_sockets false Hwf) as (tr & Htr & Hg & _ & Hgap).
  exists tr. split; [exact Htr|]. split; [exact Hg|].
  intros Heq Hs Hne. exact (Hgap [] 0 [1] [0] Heq Hs 1 Hne).
Defined.

(** ** Frame of the allocation queries *)

Section Frame.
Import Heap.

Lemma bind_run {A B} (m : M A) (f : A → M B) h :
  (m ≫= f) h = match m h with
               | (Ret a, h') => f a h'
               | (Exc e, h') => (Exc e, h')
               | (OutOfFuel, h') => (OutOfFuel, h')
               end.
Proof. reflexivity. Qed.

Lemma preserves_refl n h : preserves n h h.
Proof. split; [lia|auto]. Qed.

Lemma preserves_trans n h1 h2 h3 :
  preserves n h1 h2 → preserves n h2 h3 → preserves n h1 h3.
Proof.
  intros [Hl1 H1] [Hl2 H2]. split; [lia|].
  intros l Hl. rewrite (H2 l Hl). apply H1, Hl.
Qed.

Lemma preserves_alloc n h o : (n ≤ length h)%nat → preserves n h (h ++ [o]).
Proof.
  intros Hn. split; [rewrite length_app; lia|]. intros l Hl.
  apply lookup_app_l. lia.
Qed.

Lemma preserves_write n h l o : (n ≤ l)%nat → preserves n h (<[l := o]> h).
Proof.
  intros Hl. split; [rewrite length_insert; lia|].
  intros l' Hl'. apply list_lookup_insert_ne. lia.
Qed.

(** What is preserved below the length of a store is a prefix. *)
Lemma preserves_prefix h h' :
  preserves (length h) h h' → h' = h ++ drop (length h) h'.
Proof.
  intros [Hlen H]. rewrite <- (take_drop (length h) h') at 1. f_equal.
  apply list_eq. intros i. destruct (decide (i < length h)%nat) as [Hi|Hi].
  - rewrite lookup_take_lt by exact Hi. apply H, Hi.
  - rewrite lookup_take_ge by lia. symmetry. apply lookup_ge_None_2. lia.
Qed.

(** *** Rules *)

Lemma triple_ret {A} n (P : heap → Prop) (a : A) : triple n P (mret a) (λ a' h, a' = a ∧ P h).
Proof.
  intros h Hn HP. split; [apply preserves_refl|].
  intros a' [= <-]. auto.
Qed.

Lemma triple_conseq {A} n (P P' : heap → Prop) (m : M A) (Q Q' : A → heap → Prop) :
  triple n P' m Q' → (∀ h, P h → P' h) → (∀ a h, Q' a h → Q a h) →
  triple n P m Q.
Proof.
  intros Hm HP HQ h Hn Hh. destruct (Hm h Hn (HP h Hh)) as [Hpres Hret].
  split; [exact Hpres|]. intros a Ha. apply HQ, Hret, Ha.
Qed.

Lemma triple_bind {A B} n P (m : M A) (f : A → M B) Q R :
  triple n P m Q → (∀ a, triple n (Q a) (f a) R) → triple n P (m ≫= f) R.
Proof.
  intros Hm Hf h Hn HP. destruct (Hm h Hn HP) as [Hpres Hret].
  rewrite bind_run. destruct (m h) as [[a|e|] h1] eqn:Hmh; cbn in *.
  - assert (n ≤ length h1)%nat as Hn1 by (destruct Hpres; lia).
    destruct (Hf a h1 Hn1 (Hret a eq_refl)) as [Hpres' Hret'].
    split; [eapply preserves_trans; eassumption|exact Hret'].
  - split; [exact Hpres|discriminate].
  - split; [exact Hpres|discriminate].
Qed.

Lemma triple_raise {A} n P e (Q : A → heap → Prop) : triple n P (raise e) Q.
Proof. intros h _ _. split; [apply preserves_refl|discriminate]. Qed.

Lemma triple_out_of_fuel {A} n P (Q : A → heap → Prop) : triple n P out_of_fuel Q.
Proof. intros h _ _. split; [apply preserves_refl|discriminate]. Qed.

Lemma triple_read_only {A} n P (m : M A) :
  read_only m → triple n P m (λ _ h, P h).
Proof.
  intros Hm h _ HP. specialize (Hm h).
  destruct (m h) as [r h1]; cbn in *; subst h1.
  split; [apply preserves_refl|auto].
Qed.

Lemma triple_alloc n P o :
  triple n P (alloc o) (λ l h', ∃ h, P h ∧ h' = h ++ [o] ∧ l = length h).
Proof.
  intros h Hn HP. split; [apply preserves_alloc, Hn|].
  intros l [= <-]. eauto.
Qed.

Lemma triple_write n P l o :
  (n ≤ l)%nat →
  triple n P (write l o)
         (λ _ h', ∃ h, P h ∧ h' = <[l := o]> h ∧ (l < length h)%nat).
Proof.
  intros Hl h _ HP. unfold write.
  destruct (Nat.ltb_spec l (length h)); cbn.
  - split; [apply preserves_write, Hl|]. intros _ _. eauto.
  - split; [apply preserves_refl|discriminate].
Qed.

Lemma triple_for_each {A} n P (xs : list A) body :
  (∀ x, triple n P (body x) (λ _ h, P h)) →
  triple n P (for_each xs body) (λ _ h, P h).
Proof.
  intros Hbody. induction xs as [|x xs IH]; cbn [for_each].
  - intros h _ HP. split; [apply preserves_refl|]. intros _ _. exact HP.
  - eapply triple_bind; [apply Hbody|]. intros u. exact IH.
Qed.

(** *** Runs that only read *)

Lemma read_only_ret {A} (a : A) : read_only (mret a).
Proof. intros h. reflexivity. Qed.

Lemma read_only_raise {A} e : read_only (raise e : M A).
Proof. intros h. reflexivity. Qed.

Lemma read_only_bind {A B} (m : M A) (f : A → M B) :
  read_only m → (∀ a, read_only (f a)) → read_only (m ≫= f).
Proof.
  intros Hm Hf h. rewrite bind_run. specialize (Hm h).
  destruct (m h) as [[a|e|] h1]; cbn in *; subst; [apply Hf|reflexivity..].
Qed.

Lemma read_only_read l : read_only (read l).
Proof. intros h. unfold read. destruct (h !! l); reflexivity. Qed.

Lemma read_only_read_dict l : read_only (read_dict l).
Proof.
  apply read_only_bind; [apply read_only_read|].
  intros []; first [apply read_only_ret|apply read_only_raise].
Qed.

Lemma read_only_read_list l : read_only (read_list l).
Proof.
  apply read_only_bind; [apply read_only_read|].
  intros []; first [apply read_only_ret|apply read_only_raise].
Qed.

Lemma read_only_dict_get d k : read_only (dict_get d k).
Proof.
  apply read_only_bind; [apply read_only_read_dict|].
  intros items. destruct (OD.get k items);
    first [apply read_only_ret|apply read_only_raise].
Qed.

Lemma read_only_Core_cpus c : read_only (Stored.Core_cpus c).
Proof.
  apply read_only_bind; [apply read_only_read|].
  intros []; first [apply read_only_ret|apply read_only_raise].
Qed.

Lemma read_only_CPU_isolated c : read_only (Stored.CPU_isolated c).
Proof.
  apply read_only_bind; [apply read_only_read|].
  intros []; first [apply read_only_ret|apply read_only_raise].
Qed.

Lemma read_only_Socket_cores s : read_only (Stored.Socket_cores s).
Proof.
  apply read_only_bind; [apply read_only_read|].
  intros []; first [apply read_only_ret|apply read_only_raise].
Qed.

Lemma read_only_Platform_sockets p : read_only (Stored.Platform_sockets p).
Proof.
  apply read_only_bind; [apply read_only_read|].
  intros []; first [apply read_only_ret|apply read_only_raise].
Qed.

Lemma read_only_is_isolated_loop cpus keys :
  read_only (Stored.is_isolated_loop cpus keys).
Proof.
  induction keys as [|k keys IH]; cbn [Stored.is_isolated_loop].
  - apply read_only_ret.
  - apply read_only_bind; [apply read_only_dict_get|]. intros cpu.
    apply read_only_bind; [apply read_only_CPU_isolated|]. intros b.
    destruct (negb b); [apply read_only_ret|exact IH].
Qed.

(** [Core.is_isolated] mutates nothing. *)
Lemma read_only_is_isolated c : read_only (Stored.is_isolated c).
Proof.
  apply read_only_bind; [apply read_only_Core_cpus|]. intros cpus.
  apply read_only_bind; [apply read_only_read_dict|]. intros items.
  destruct (length items =? 0)%nat;
    [apply read_only_ret|apply read_only_is_isolated_loop].
Qed.

Lemma read_only_filter_isolated cores : read_only (Stored.filter_isolated cores).
Proof.
  induction cores as [|c cores IH]; cbn [Stored.filter_isolated].
  - apply read_only_ret.
  - apply read_only_bind; [apply read_only_is_isolated|]. intros b.
    apply read_only_bind; [exact IH|]. intros rest. apply read_only_ret.
Qed.

(** *** Values read from the store *)

Lemma read_ret l h o : (read l h).1 = Ret o → h !! l = Some o.
Proof. unfold read. destruct (h !! l); cbn; congruence. Qed.

Lemma read_dict_ret l h items :
  (read_dict l h).1 = Ret items → h !! l = Some (ODict items).
Proof.
  unfold read_dict. rewrite bind_run. unfold read.
  destruct (h !! l) as [[]|]; cbn; try discriminate. congruence.
Qed.

Lemma dict_get_ret d k h v :
  (dict_get d k h).1 = Ret v →
  ∃ items, h !! d = Some (ODict items) ∧ v ∈ OD.values items.
Proof.
  unfold dict_get. rewrite bind_run.
  pose proof (read_only_read_dict d h) as Hh.
  pose proof (read_dict_ret d h) as Hr.
  destruct (read_dict d h) as [[items|e|] h1]; cbn in *; try discriminate.
  subst h1. destruct (OD.get k items) as [v'|] eqn:Hg; cbn; [|discriminate].
  intros [= <-]. exists items. split; [auto|]. eapply OD_get_values, Hg.
Qed.

Lemma triple_read_only_ret {A} n P (m : M A) (Q : A → heap → Prop) :
  read_only m → (∀ h a, P h → (m h).1 = Ret a → Q a h) → triple n P m Q.
Proof.
  intros Hm HQ h _ HP. specialize (HQ h). specialize (Hm h).
  destruct (m h) as [r h1]; cbn in *; subst h1.
  split; [apply preserves_refl|]. intros a ->. apply HQ; auto.
Qed.

Lemma triple_read_dict n P l :
  triple n P (read_dict l) (λ items h, P h ∧ h !! l = Some (ODict items)).
Proof.
  apply triple_read_only_ret; [apply read_only_read_dict|].
  intros h items HP Hi. split; [exact HP|apply read_dict_ret, Hi].
Qed.

Lemma triple_dict_get n P d k :
  triple n P (dict_get d k)
         (λ v h, P h ∧ ∃ items, h !! d = Some (ODict items) ∧ v ∈ OD.values items).
Proof.
  apply triple_read_only_ret; [apply read_only_dict_get|].
  intros h v HP Hv. split; [exact HP|apply (dict_get_ret d k), Hv].
Qed.

(** *** Lists *)

Lemma triple_list_update n P l (f : list loc → M unit) :
  (n ≤ l)%nat → stable_list_writes P →
  (∀ items, (∃ xs, f items = write l (OList xs)) ∨ (∃ e, f items = raise e)) →
  triple n P (read_list l ≫= f) (λ _ h, P h).
Proof.
  intros Hl HP Hf. eapply triple_bind; [apply triple_read_only, read_only_read_list|].
  intros items. cbn beta.
  destruct (Hf items) as [[xs ->]|[e ->]].
  - eapply triple_conseq; [apply (triple_write n P), Hl|auto|].
    intros _ h' (h & Hh & -> & Hlt). apply HP; assumption.
  - apply triple_raise.
Qed.

Lemma triple_list_append n P l x :
  (n ≤ l)%nat → stable_list_writes P →
  triple n P (list_append l x) (λ _ h, P h).
Proof.
  intros Hl HP. apply triple_list_update; [exact Hl|exact HP|].
  intros items. left. eauto.
Qed.

Lemma triple_list_extend n P l xs :
  (n ≤ l)%nat → stable_list_writes P →
  triple n P (list_extend l xs) (λ _ h, P h).
Proof.
  intros Hl HP. apply triple_list_update; [exact Hl|exact HP|].
  intros items. left. eauto.
Qed.

Lemma triple_list_del_head n P l :
  (n ≤ l)%nat → stable_list_writes P →
  triple n P (list_del_head l) (λ _ h, P h).
Proof.
  intros Hl HP. apply triple_list_update; [exact Hl|exact HP|].
  intros [|x rest]; [right|left]; eauto.
Qed.

(** *** The lists that sockets hand out are new *)

Lemma triple_selected_cores n P iso s :
  stable_alloc P →
  triple n P (Stored.selected_cores iso s)
         (λ l h', P h' ∧ (n ≤ l)%nat ∧ (l < length h')%nat).
Proof.
  intros HP.
  assert (∀ xs, triple n (λ h, P h) (alloc (OList xs))
                       (λ l h', P h' ∧ (n ≤ l)%nat ∧ (l < length h')%nat)) as Halloc.
  { intros xs h Hn Hh. split; [apply preserves_alloc, Hn|].
    intros l [= <-]. cbn. split; [apply HP, Hh|].
    rewrite length_app. cbn. lia. }
  unfold Stored.selected_cores, Stored.Socket_get_cores, Stored.Socket_get_isolated_cores.
  destruct iso.
  - eapply triple_bind; [apply triple_read_only, read_only_Socket_cores|].
    intros cores. cbn beta.
    eapply triple_bind; [apply triple_read_only, read_only_read_dict|].
    intros items. cbn beta.
    eapply triple_bind; [apply triple_read_only, read_only_filter_isolated|].
    intros selected. apply Halloc.
  - eapply triple_bind; [apply triple_read_only, read_only_Socket_cores|].
    intros cores. cbn beta.
    eapply triple_bind; [apply triple_read_only, read_only_read_dict|].
    intros items. apply Halloc.
Qed.

Lemma stable_list_writes_True : stable_list_writes (λ _, True).
Proof. intros h l xs _ _. exact I. Qed.

Lemma stable_alloc_True : stable_alloc (λ _, True).
Proof. intros h o _. exact I. Qed.

(** *** Packed allocation *)

Lemma triple_pure_pre {A} n (φ : Prop) P P' (m : M A) Q :
  (∀ h, P h → φ ∧ P' h) → (φ → triple n P' m Q) → triple n P m Q.
Proof.
  intros HP Hm h Hn Hh. destruct (HP h Hh) as [Hφ Hh'].
  apply (Hm Hφ h Hn Hh').
Qed.

Lemma triple_ret_post {A} n P (a : A) (Q : A → heap → Prop) :
  (∀ h, P h → Q a h) → triple n P (mret a) Q.
Proof.
  intros HQ h _ HP. split; [apply preserves_refl|].
  intros a' [= <-]. apply HQ, HP.
Qed.

Lemma triple_alloc_fresh n P o :
  stable_alloc P →
  triple n P (alloc o)
         (λ l h', P h' ∧ (n ≤ l)%nat ∧ (l < length h')%nat ∧ h' !! l = Some o).
Proof.
  intros HP h Hn Hh. split; [apply preserves_alloc, Hn|].
  intros l [= <-]. cbn. split; [apply HP, Hh|]. split; [exact Hn|].
  split; [rewrite length_app; cbn; lia|].
  rewrite lookup_app_r by lia. rewrite Nat.sub_diag. reflexivity.
Qed.

Lemma triple_allocate_packed n self iso :
  triple n (λ _, True) (Stored.allocate_packed self iso) (λ _ _, True).
Proof.
  unfold Stored.allocate_packed.
  eapply triple_bind; [apply triple_alloc_fresh, stable_alloc_True|].
  intros c. cbn beta.
  apply (triple_pure_pre n (n ≤ c)%nat _ (λ _, True)); [tauto|]. intros Hc.
  eapply triple_bind; [apply triple_read_only, read_only_Platform_sockets|].
  intros sockets. cbn beta.
  eapply triple_bind; [apply triple_read_only, read_only_read_dict|].
  intros items. cbn beta.
  eapply triple_bind; [|intros u; apply triple_ret_post; auto].
  apply triple_for_each. intros socket.
  eapply triple_bind; [apply triple_selected_cores, stable_alloc_True|].
  intros l. cbn beta.
  eapply triple_bind; [apply triple_read_only, read_only_read_list|].
  intros xs. cbn beta.
  eapply triple_conseq.
  - apply (triple_list_extend n (λ _, True) c xs Hc stable_list_writes_True).
  - intros h _. exact I.
  - intros u h _. exact I.
Qed.

(** *** Spread allocation *)

Lemma OD_values_del {V} k (d : OD.t V) x :
  x ∈ OD.values (OD.del k d) → x ∈ OD.values d.
Proof.
  unfold OD.values. induction d as [|[k0 v0] d IH]; cbn; [auto|].
  destruct (k =? k0); cbn; rewrite !elem_of_cons; [auto|].
  intros [->|H]; auto.
Qed.

Lemma spread_inv_alloc n d : stable_alloc (spread_inv n d).
Proof.
  intros h o [Hd Hf]. split; [rewrite length_app; lia|].
  intros items Hi. apply Hf. rewrite lookup_app_l in Hi by exact Hd. exact Hi.
Qed.

Lemma spread_inv_list_writes n d : stable_list_writes (spread_inv n d).
Proof.
  intros h l xs [Hd Hf] Hl. split; [rewrite length_insert; exact Hd|].
  intros items Hi. destruct (decide (l = d)) as [->|Hne].
  - rewrite list_lookup_insert_eq in Hi by exact Hd. discriminate.
  - rewrite list_lookup_insert_ne in Hi by exact Hne. apply Hf, Hi.
Qed.

Lemma spread_inv_dict_write n d h items :
  spread_inv n d h → Forall (λ v, (n ≤ v)%nat) (OD.values items) →
  spread_inv n d (<[d := ODict items]> h).
Proof.
  intros [Hd Hf] Hitems. split; [rewrite length_insert; exact Hd|].
  intros items' Hi. rewrite list_lookup_insert_eq in Hi by exact Hd.
  injection Hi as <-. exact Hitems.
Qed.

Lemma triple_dict_update n d (g : OD.t loc → OD.t loc) :
  (n ≤ d)%nat →
  (∀ items, Forall (λ v, (n ≤ v)%nat) (OD.values items) →
            Forall (λ v, (n ≤ v)%nat) (OD.values (g items))) →
  triple n (spread_inv n d)
         (items ← read_dict d; write d (ODict (g items)))
         (λ _ h, spread_inv n d h).
Proof.
  intros Hd Hg. eapply triple_bind; [apply triple_read_dict|].
  intros items. cbn beta.
  eapply triple_conseq; [apply (triple_write n _ d), Hd|intros h H; exact H|].
  intros _ h' (h & [Hinv Hitems] & -> & _). cbn beta.
  apply spread_inv_dict_write; [exact Hinv|]. apply Hg.
  destruct Hinv as [_ Hf]. apply Hf, Hitems.
Qed.

Lemma triple_dict_set n d k v :
  (n ≤ d)%nat → (n ≤ v)%nat →
  triple n (spread_inv n d) (dict_set d k v) (λ _ h, spread_inv n d h).
Proof.
  intros Hd Hv. apply (triple_dict_update n d (OD.set k v) Hd).
  intros items Hitems. apply Forall_forall. intros x Hx.
  apply OD_values_set in Hx as [->|Hx]; [exact Hv|].
  eapply Forall_forall in Hitems; eassumption.
Qed.

Lemma triple_dict_del n d k :
  (n ≤ d)%nat →
  triple n (spread_inv n d) (dict_del d k) (λ _ h, spread_inv n d h).
Proof.
  intros Hd. apply (triple_dict_update n d (OD.del k) Hd).
  intros items Hitems. apply Forall_forall. intros x Hx.
  apply OD_values_del in Hx. eapply Forall_forall in Hitems; eassumption.
Qed.

(** A list found in [socket_cores] is one that the call allocated. *)
Lemma triple_dict_get_fresh n d k :
  triple n (spread_inv n d) (dict_get d k)
         (λ v h, (n ≤ v)%nat ∧ spread_inv n d h).
Proof.
  eapply triple_conseq; [apply triple_dict_get|intros h H; exact H|].
  intros v h [Hinv (items & Hitems & Hv)]. split; [|exact Hinv].
  destruct Hinv as [_ Hf]. specialize (Hf items Hitems).
  eapply Forall_forall in Hf; eassumption.
Qed.

Lemma triple_spread_step n d o k :
  (n ≤ d)%nat → (n ≤ o)%nat →
  triple n (spread_inv n d) (Stored.spread_step d o k) (λ _ h, spread_inv n d h).
Proof.
  intros Hd Ho. unfold Stored.spread_step.
  eapply triple_bind; [apply triple_dict_get_fresh|]. intros l. cbn beta.
  apply (triple_pure_pre n (n ≤ l)%nat _ (spread_inv n d)); [tauto|]. intros Hl.
  eapply triple_bind; [apply triple_read_only, read_only_read_list|].
  intros xs. cbn beta.
  destruct (length xs =? 0)%nat; [apply triple_dict_del, Hd|].
  eapply triple_bind; [apply triple_dict_get_fresh|]. intros l0. cbn beta.
  apply (triple_pure_pre n (n ≤ l0)%nat _ (spread_inv n d)); [tauto|]. intros Hl0.
  eapply triple_bind; [apply triple_read_only, read_only_read_list|].
  intros [|core rest]; cbn beta iota; [apply triple_raise|].
  eapply triple_bind;
    [apply (triple_list_append n _ o core Ho (spread_inv_list_writes n d))|].
  intros u. cbn beta.
  eapply triple_bind; [apply triple_dict_get_fresh|]. intros l1. cbn beta.
  apply (triple_pure_pre n (n ≤ l1)%nat _ (spread_inv n d)); [tauto|]. intros Hl1.
  apply (triple_list_del_head n _ l1 Hl1 (spread_inv_list_writes n d)).
Qed.

Lemma triple_spread_loop n d o fuel :
  (n ≤ d)%nat → (n ≤ o)%nat →
  triple n (spread_inv n d) (Stored.spread_loop fuel d o) (λ _ h, spread_inv n d h).
Proof.
  intros Hd Ho. induction fuel as [|fuel IH]; cbn [Stored.spread_loop].
  - eapply triple_bind; [apply triple_read_only, read_only_read_dict|].
    intros items. cbn beta.
    destruct (0 <? length items)%nat; [apply triple_out_of_fuel|].
    apply triple_ret_post. auto.
  - eapply triple_bind; [apply triple_read_only, read_only_read_dict|].
    intros items. cbn beta.
    destruct (0 <? length items)%nat; [|apply triple_ret_post; auto].
    eapply triple_bind; [|intros u; exact IH].
    apply triple_for_each. intros k. apply triple_spread_step; assumption.
Qed.

Lemma triple_allocate_spread n fuel self iso :
  triple n (λ _, True) (Stored.allocate_spread fuel self iso) (λ _ _, True).
Proof.
  unfold Stored.allocate_spread.
  eapply triple_bind; [apply triple_alloc_fresh, stable_alloc_True|].
  intros o. cbn beta.
  apply (triple_pure_pre n (n ≤ o)%nat _ (λ _, True)); [tauto|]. intros Ho.
  eapply triple_bind; [apply triple_alloc_fresh, stable_alloc_True|].
  intros d. cbn beta.
  apply (triple_pure_pre n (n ≤ d)%nat _ (spread_inv n d)).
  { intros h (_ & Hd & Hlt & Hlook). split; [exact Hd|]. split; [exact Hlt|].
    intros items Hi. rewrite Hlook in Hi. injection Hi as <-. constructor. }
  intros Hd.
  eapply triple_bind; [apply triple_read_only, read_only_Platform_sockets|].
  intros sockets. cbn beta.
  eapply triple_bind; [apply triple_read_only, read_only_read_dict|].
  intros items. cbn beta.
  eapply triple_bind.
  { apply triple_for_each. intros socket.
    eapply triple_bind; [apply triple_read_only, read_only_dict_get|].
    intros s. cbn beta.
    eapply triple_bind; [apply triple_selected_cores, spread_inv_alloc|].
    intros l. cbn beta.
    apply (triple_pure_pre n (n ≤ l)%nat _ (spread_inv n d)); [tauto|].
    intros Hl. apply triple_dict_set; assumption. }
  intros u. cbn beta.
  eapply triple_bind; [apply triple_spread_loop; assumption|].
  intros u'. apply triple_ret_post. auto.
Qed.

Lemma triple_get_cores_general n fuel self mode iso :
  triple n (λ _, True) (Stored.get_cores_general fuel self mode iso) (λ _ _, True).
Proof.
  unfold Stored.get_cores_general.
  set (mode' := if negb _ then _ else _). clearbody mode'.
  destruct (String.eqb mode' "packed").
  - eapply triple_bind; [apply triple_allocate_packed|].
    intros l. apply triple_ret_post. auto.
  - destruct (String.eqb mode' "spread").
    + eapply triple_bind; [apply triple_allocate_spread|].
      intros l. apply triple_ret_post. auto.
    + apply triple_ret_post. auto.
Qed.

End Frame.

(** ** The store model computes what the value model computes *)

Section StoreRuns.
Import Heap.

Lemma run_bind {A B} (m : M A) (f : A → M B) h a h' :
  m h = (Ret a, h') → (m ≫= f) h = f a h'.
Proof. intros H. rewrite bind_run, H. reflexivity. Qed.

Lemma alloc_run o h : alloc o h = (Ret (length h), h ++ [o]).
Proof. reflexivity. Qed.

Lemma read_run h l o : h !! l = Some o → read l h = (Ret o, h).
Proof. intros H. unfold read. rewrite H. reflexivity. Qed.

Lemma read_dict_run h l items :
  h !! l = Some (ODict items) → read_dict l h = (Ret items, h).
Proof.
  intros H. unfold read_dict. rewrite (run_bind _ _ _ _ _ (read_run _ _ _ H)).
  reflexivity.
Qed.

Lemma read_list_run h l items :
  h !! l = Some (OList items) → read_list l h = (Ret items, h).
Proof.
  intros H. unfold read_list. rewrite (run_bind _ _ _ _ _ (read_run _ _ _ H)).
  reflexivity.
Qed.

Lemma dict_get_run h d k items v :
  h !! d = Some (ODict items) → OD.get k items = Some v →
  dict_get d k h = (Ret v, h).
Proof.
  intros H Hg. unfold dict_get.
  rewrite (run_bind _ _ _ _ _ (read_dict_run _ _ _ H)), Hg. reflexivity.
Qed.

Lemma write_run h l o :
  (l < length h)%nat → write l o h = (Ret tt, <[l := o]> h).
Proof.
  intros H. unfold write. apply Nat.ltb_lt in H. rewrite H. reflexivity.
Qed.

Lemma lookup_lt_length (h : list obj) l o : h !! l = Some o → (l < length h)%nat.
Proof. apply lookup_lt_Some. Qed.

Lemma dict_write_run h d items items' :
  h !! d = Some (ODict items) →
  (x ← read_dict d; write d (ODict (items' x))) h =
    (Ret tt, <[d := ODict (items' items)]> h).
Proof.
  intros H. rewrite (run_bind _ _ _ _ _ (read_dict_run _ _ _ H)).
  apply write_run. eapply lookup_lt_length, H.
Qed.

Lemma list_write_run h l xs (f : list nat → list nat) :
  h !! l = Some (OList xs) →
  (x ← read_list l; write l (OList (f x))) h = (Ret tt, <[l := OList (f xs)]> h).
Proof.
  intros H. rewrite (run_bind _ _ _ _ _ (read_list_run _ _ _ H)).
  apply write_run. eapply lookup_lt_length, H.
Qed.

(** *** Representation *)

Lemma heap_le_refl h : heap_le h h.
Proof. intros l o H. exact H. Qed.

Lemma heap_le_trans h1 h2 h3 : heap_le h1 h2 → heap_le h2 h3 → heap_le h1 h3.
Proof. intros H1 H2 l o H. apply H2, H1, H. Qed.

Lemma heap_le_app h ext : heap_le h (h ++ ext).
Proof. intros l o H. apply lookup_app_l_Some, H. Qed.

Lemma heap_le_insert h l o :
  h !! l = None → heap_le h (<[l := o]> h).
Proof.
  intros Hl l' o' H. rewrite list_lookup_insert_ne; [exact H|].
  intros ->. congruence.
Qed.

Lemma preserves_heap_le h h' : preserves (length h) h h' → heap_le h h'.
Proof.
  intros [_ H] l o Hl. rewrite H; [exact Hl|]. eapply lookup_lt_length, Hl.
Qed.

Lemma repr_items_impl {V} (R R' : nat → V → Prop) items d :
  (∀ l v, R l v → R' l v) → repr_items R items d → repr_items R' items d.
Proof.
  intros HR H. eapply Forall2_impl; [exact H|].
  intros [k l] [k' v] [? ?]. split; [assumption|]. apply HR. assumption.
Qed.

Lemma repr_dict_mono {V} (R R' : nat → V → Prop) h h' l d :
  heap_le h h' → (∀ l v, R l v → R' l v) →
  repr_dict R h l d → repr_dict R' h' l d.
Proof.
  intros Hle HR (items & Hl & Hi). exists items.
  split; [apply Hle, Hl|eapply repr_items_impl; eassumption].
Qed.

Lemma repr_cpu_mono h h' l cpu : heap_le h h' → repr_cpu h l cpu → repr_cpu h' l cpu.
Proof. intros Hle H. apply Hle, H. Qed.

Lemma repr_core_mono h h' l c : heap_le h h' → repr_core h l c → repr_core h' l c.
Proof.
  intros Hle (dl & Hl & Hd). exists dl. split; [apply Hle, Hl|].
  eapply repr_dict_mono; [exact Hle| |exact Hd].
  intros ? ?. apply repr_cpu_mono, Hle.
Qed.

Lemma repr_socket_mono h h' l s :
  heap_le h h' → repr_socket h l s → repr_socket h' l s.
Proof.
  intros Hle (dl & Hl & Hd). exists dl. split; [apply Hle, Hl|].
  eapply repr_dict_mono; [exact Hle| |exact Hd].
  intros ? ?. apply repr_core_mono, Hle.
Qed.

Lemma repr_items_keys {V} (R : nat → V → Prop) items d :
  repr_items R items d → OD.keys items = OD.keys d.
Proof.
  unfold OD.keys. induction 1 as [|[k l] [k' v] items d [Hk _] _ IH]; cbn in *;
    [reflexivity|]. rewrite Hk, IH. reflexivity.
Qed.

Lemma repr_items_values {V} (R : nat → V → Prop) items d :
  repr_items R items d → Forall2 R (OD.values items) (OD.values d).
Proof.
  unfold OD.values. induction 1 as [|[k l] [k' v] items d [_ HR] _ IH]; cbn in *;
    constructor; assumption.
Qed.

Lemma repr_items_get {V} (R : nat → V → Prop) items d k v :
  repr_items R items d → OD.get k d = Some v →
  ∃ l, OD.get k items = Some l ∧ R l v.
Proof.
  induction 1 as [|[k1 l] [k2 v'] items d [Hk HR] _ IH]; cbn in *;
    [discriminate|]. subst k2.
  destruct (k =? k1); [|exact IH]. intros [= <-]. eauto.
Qed.

(** *** Queries that only read *)

Lemma is_isolated_loop_run h dl items (d : OD.t CPU) ks :
  h !! dl = Some (ODict items) → repr_items (repr_cpu h) items d →
  Forall (λ k, k ∈ OD.keys d) ks →
  Stored.is_isolated_loop dl ks h =
    (Ret (forallb (λ k, match OD.get k d with
                        | Some cpu => isolated cpu
                        | None => false
                        end) ks), h).
Proof.
  intros Hdl Hitems. induction 1 as [|k ks Hk _ IH]; [reflexivity|].
  cbn [Stored.is_isolated_loop forallb].
  destruct (OD_get_key _ _ Hk) as [cpu Hcpu]. rewrite Hcpu.
  destruct (repr_items_get _ _ _ _ _ Hitems Hcpu) as (l & Hl & Hrepr).
  rewrite (run_bind _ _ _ _ _ (dict_get_run _ _ _ _ _ Hdl Hl)).
  unfold Stored.CPU_isolated at 1.
  rewrite (run_bind _ _ _ _ _
             (run_bind _ _ _ _ _ (read_run _ _ _ Hrepr))).
  destruct (isolated cpu); [exact IH|reflexivity].
Qed.

Lemma is_isolated_run h c core :
  repr_core h c core → Stored.is_isolated c h = (Ret (is_isolated core), h).
Proof.
  intros (dl & Hc & items & Hdl & Hitems). unfold Stored.is_isolated, is_isolated.
  unfold Stored.Core_cpus.
  rewrite (run_bind _ _ _ _ _ (run_bind _ _ _ _ _ (read_run _ _ _ Hc))).
  rewrite (run_bind _ _ _ _ _ (read_dict_run _ _ _ Hdl)).
  rewrite (Forall2_length _ _ _ Hitems).
  destruct (length (cpus core) =? 0)%nat; [reflexivity|].
  rewrite (repr_items_keys _ _ _ Hitems).
  apply (is_isolated_loop_run h dl items (cpus core)); [assumption..|].
  apply Forall_forall. auto.
Qed.

Lemma filter_isolated_run h h0 ls cs :
  heap_le h0 h → Forall2 (repr_core h0) ls cs →
  ∃ ls', Stored.filter_isolated ls h = (Ret ls', h) ∧
         Forall2 (repr_core h0) ls' (List.filter is_isolated cs).
Proof.
  intros Hle. induction 1 as [|l c ls cs Hlc _ (ls' & Hrun & Hrel)];
    [exists []; split; [reflexivity|constructor]|].
  cbn [Stored.filter_isolated List.filter].
  rewrite (run_bind _ _ _ _ _ (is_isolated_run h l c (repr_core_mono _ _ _ _ Hle Hlc))).
  rewrite (run_bind _ _ _ _ _ Hrun).
  destruct (is_isolated c); eexists; split; try reflexivity;
    [constructor|]; assumption.
Qed.

(** *** The list a socket hands out *)

Lemma selected_cores_run h h0 iso sl s :
  heap_le h0 h → repr_socket h0 sl s →
  ∃ ls, Stored.selected_cores iso sl h = (Ret (length h), h ++ [OList ls]) ∧
        Forall2 (repr_core h0) ls (selected_cores iso s).
Proof.
  intros Hle (dl & Hs & items & Hdl & Hitems).
  apply Hle in Hs. apply Hle in Hdl.
  pose proof (repr_items_values _ _ _ Hitems) as Hvals.
  unfold Stored.selected_cores, selected_cores.
  destruct iso.
  - unfold Stored.Socket_get_isolated_cores, Stored.Socket_get_isolated_cores, Stored.Socket_cores.
    rewrite (run_bind _ _ _ _ _ (run_bind _ _ _ _ _ (read_run _ _ _ Hs))).
    rewrite (run_bind _ _ _ _ _ (read_dict_run _ _ _ Hdl)).
    destruct (filter_isolated_run h h0 _ _ Hle Hvals) as (ls' & Hrun & Hrel).
    rewrite (run_bind _ _ _ _ _ Hrun). exists ls'. split; [reflexivity|exact Hrel].
  - unfold Stored.Socket_get_cores, Socket_get_cores, Stored.Socket_cores.
    rewrite (run_bind _ _ _ _ _ (run_bind _ _ _ _ _ (read_run _ _ _ Hs))).
    rewrite (run_bind _ _ _ _ _ (read_dict_run _ _ _ Hdl)).
    eexists. split; [reflexivity|exact Hvals].
Qed.

(** *** Packed allocation *)

Lemma heap_le_fresh_write h0 h c o :
  heap_le h0 h → (length h0 ≤ c)%nat → heap_le h0 (<[c := o]> h).
Proof.
  intros Hle Hc l o' Hl. rewrite list_lookup_insert_ne; [apply Hle, Hl|].
  apply lookup_lt_length in Hl. lia.
Qed.

Lemma packed_loop_run h0 c iso sls ss :
  Forall2 (repr_socket h0) sls ss → (length h0 ≤ c)%nat →
  ∀ cur acc_l acc_c,
    heap_le h0 cur → cur !! c = Some (OList acc_l) →
    Forall2 (repr_core h0) acc_l acc_c →
    ∃ cur' acc_l',
      for_each sls (λ socket,
                      l ← Stored.selected_cores iso socket;
                      xs ← read_list l;
                      list_extend c xs) cur = (Ret tt, cur') ∧
      heap_le h0 cur' ∧ cur' !! c = Some (OList acc_l') ∧
      Forall2 (repr_core h0) acc_l'
              (foldl (λ cores socket, cores ++ selected_cores iso socket) acc_c ss).
Proof.
  intros Hss Hc. induction Hss as [|sl s sls ss Hs _ IH];
    intros cur acc_l acc_c Hle Hcur Hacc.
  { exists cur, acc_l. repeat split; assumption. }
  cbn [for_each foldl].
  destruct (selected_cores_run cur h0 iso sl s Hle Hs) as (ls & Hrun & Hls).
  pose proof (lookup_lt_length _ _ _ Hcur) as Hclt.
  assert ((cur ++ [OList ls]) !! length cur = Some (OList ls)) as Hnew.
  { rewrite lookup_app_r by lia. rewrite Nat.sub_diag. reflexivity. }
  assert ((cur ++ [OList ls]) !! c = Some (OList acc_l)) as Hc'
      by (apply lookup_app_l_Some, Hcur).
  edestruct (IH (<[c := OList (acc_l ++ ls)]> (cur ++ [OList ls]))
                (acc_l ++ ls) (acc_c ++ selected_cores iso s))
    as (cur' & acc_l' & Hrun' & Hle' & Hcur' & Hacc').
  - apply heap_le_fresh_write; [|exact Hc].
    eapply heap_le_trans; [exact Hle|apply heap_le_app].
  - apply list_lookup_insert_eq. rewrite length_app. lia.
  - apply Forall2_app; assumption.
  - exists cur', acc_l'. split; [|auto].
    rewrite bind_run.
    rewrite (run_bind _ _ _ _ _ Hrun).
    rewrite (run_bind _ _ _ _ _ (read_list_run _ _ _ Hnew)).
    unfold list_extend. rewrite (list_write_run _ _ _ (λ x, x ++ ls) Hc').
    exact Hrun'.
Qed.

Lemma allocate_packed_run h ploc p iso :
  repr_platform h ploc p →
  ∃ h' ls,
    Stored.allocate_packed ploc iso h = (Ret (length h), h') ∧
    heap_le h h' ∧ h' !! length h = Some (OList ls) ∧
    Forall2 (repr_core h) ls (allocate_packed p iso).
Proof.
  intros (dl & Hp & items & Hdl & Hitems).
  pose proof (repr_items_values _ _ _ Hitems) as Hvals.
  edestruct (packed_loop_run h (length h) iso _ _ Hvals (le_n _)
               (h ++ [OList []]) [] [])
    as (h' & ls & Hrun & Hle & Hc & Hls).
  - apply heap_le_app.
  - rewrite lookup_app_r by lia. rewrite Nat.sub_diag. reflexivity.
  - constructor.
  - exists h', ls. split; [|auto].
    unfold Stored.allocate_packed, alloc. rewrite bind_run. cbn [fst snd].
    unfold Stored.Platform_sockets.
    rewrite (run_bind _ _ _ _ _ (run_bind _ _ _ _ _
               (read_run _ _ _ (heap_le_app h _ _ _ Hp)))).
    rewrite (run_bind _ _ _ _ _ (read_dict_run _ _ _ (heap_le_app h _ _ _ Hdl))).
    rewrite (run_bind _ _ _ _ _ Hrun). reflexivity.
Qed.

(** *** Spread allocation: one step *)

Lemma spread_step_at {A} k (l : list A) pre todo out :
  k ∉ OD.keys pre →
  spread_step (pre ++ (k, l) :: todo, out) k =
    match l with
    | [] => (pre ++ todo, out)
    | x :: rest => (pre ++ (k, rest) :: todo, out ++ [x])
    end.
Proof.
  intros Hk. unfold spread_step.
  rewrite (OD_get_app_fresh _ _ _ Hk). cbn [OD.get]. rewrite Z.eqb_refl.
  destruct l as [|x rest].
  - rewrite (OD_del_app_fresh _ _ _ Hk). cbn [OD.del]. rewrite Z.eqb_refl.
    reflexivity.
  - rewrite (OD_set_app_fresh _ _ _ _ Hk). cbn [OD.set]. rewrite Z.eqb_refl.
    reflexivity.
Qed.

(** The lists of the loop state are read back unchanged from a store that
    agrees on their addresses. *)
Lemma spread_lists_frame (h h' : list obj) ditems (sc : OD.t (list nat)) :
  Forall2 (λ (di : Z * nat) (e : Z * list nat),
             di.1 = e.1 ∧ h !! di.2 = Some (OList e.2)) ditems sc →
  (∀ l, l ∈ OD.values ditems → h' !! l = h !! l) →
  Forall2 (λ (di : Z * nat) (e : Z * list nat),
             di.1 = e.1 ∧ h' !! di.2 = Some (OList e.2)) ditems sc.
Proof.
  unfold OD.values. induction 1 as [|[k l] e ditems sc [Hk Hl] _ IH];
    intros Hsame; constructor.
  - split; [exact Hk|]. cbn in *. rewrite Hsame; [exact Hl|left].
  - apply IH. intros l' Hl'. apply Hsame. right. exact Hl'.
Qed.

Lemma spread_lists_keys (h : list obj) ditems (sc : OD.t (list nat)) :
  Forall2 (λ (di : Z * nat) (e : Z * list nat),
             di.1 = e.1 ∧ h !! di.2 = Some (OList e.2)) ditems sc →
  OD.keys ditems = OD.keys sc.
Proof.
  unfold OD.keys. induction 1 as [|[k l] e ditems sc [Hk _] _ IH]; cbn in *;
    [reflexivity|]. rewrite Hk, IH. reflexivity.
Qed.

Lemma spread_step_sim d o h k l pre todo out :
  k ∉ OD.keys pre →
  spread_state d o h (pre ++ (k, l) :: todo, out) →
  ∃ h', Stored.spread_step d o k h = (Ret tt, h') ∧
        spread_state d o h' (spread_step (pre ++ (k, l) :: todo, out) k).
Proof.
  intros Hk (ditems & Hd & Ho & Hrel & Hnd). cbn [fst snd] in *.
  rewrite (spread_step_at _ _ _ _ _ Hk).
  apply Forall2_app_inv_r in Hrel as (dpre & drest & Hpre & Hrest & ->).
  apply Forall2_cons_inv_r in Hrest as ([k' lk] & dtodo & [Hk' Hlk] & Htodo & ->).
  cbn in Hk', Hlk. subst k'.
  assert (k ∉ OD.keys dpre) as Hkd by (rewrite (spread_lists_keys _ _ _ Hpre); exact Hk).
  assert (OD.get k (dpre ++ (k, lk) :: dtodo) = Some lk) as Hget.
  { rewrite (OD_get_app_fresh _ _ _ Hkd). cbn. rewrite Z.eqb_refl. reflexivity. }
  apply NoDup_cons in Hnd as [Hd_notin Hnd]. apply NoDup_cons in Hnd as [Ho_notin Hnd].
  rewrite not_elem_of_cons in Hd_notin. destruct Hd_notin as [Hdo Hd_vals].
  unfold OD.values in *. rewrite fmap_app in *. cbn [fmap list_fmap snd] in *.
  apply NoDup_app in Hnd as (Hnd_pre & Hdisj & [Hlk_todo Hnd_todo]%NoDup_cons).
  assert (lk ∉ dpre.*2) as Hlk_pre.
  { intros Hin. apply (Hdisj lk Hin). left. }
  assert (d ≠ lk ∧ o ≠ lk) as [Hdlk Holk].
  { split; intros ->; [apply Hd_vals|apply Ho_notin];
      apply elem_of_app; right; left. }
  pose proof (lookup_lt_length _ _ _ Hd) as Hdlt.
  pose proof (lookup_lt_length _ _ _ Ho) as Holt.
  pose proof (lookup_lt_length _ _ _ Hlk) as Hlklt.
  unfold Stored.spread_step.
  rewrite (run_bind _ _ _ _ _ (dict_get_run _ _ _ _ _ Hd Hget)).
  rewrite (run_bind _ _ _ _ _ (read_list_run _ _ _ Hlk)).
  destruct l as [|x rest]; cbn [length Nat.eqb].
  - (* the socket is exhausted: its key is deleted *)
    unfold dict_del. rewrite (dict_write_run _ _ _ (OD.del k) Hd).
    rewrite (OD_del_app_fresh _ _ _ Hkd). cbn [OD.del]. rewrite Z.eqb_refl.
    eexists. split; [reflexivity|]. exists (dpre ++ dtodo). cbn [fst snd].
    split; [apply list_lookup_insert_eq, Hdlt|].
    split; [rewrite list_lookup_insert_ne by exact Hdo; exact Ho|].
    split.
    + apply Forall2_app; (eapply spread_lists_frame; [eassumption|]);
        intros l' Hl'; apply list_lookup_insert_ne; intros ->;
        apply Hd_vals, elem_of_app; [left|right; right]; exact Hl'.
    + unfold OD.values. rewrite fmap_app. apply NoDup_cons. split.
      { rewrite not_elem_of_cons. split; [exact Hdo|].
        intros [?|?]%elem_of_app; apply Hd_vals, elem_of_app; [left|right; right];
          assumption. }
      apply NoDup_cons. split.
      { intros [?|?]%elem_of_app; apply Ho_notin, elem_of_app; [left|right; right];
          assumption. }
      apply NoDup_app. split; [exact Hnd_pre|]. split; [|exact Hnd_todo].
      intros y Hy Hy'. apply (Hdisj y Hy). right. exact Hy'.
  - (* the head core goes to the output and leaves the list *)
    rewrite (run_bind _ _ _ _ _ (dict_get_run _ _ _ _ _ Hd Hget)).
    rewrite (run_bind _ _ _ _ _ (read_list_run _ _ _ Hlk)).
    unfold list_append. rewrite bind_run.
    rewrite (list_write_run _ _ _ (λ items, items ++ [x]) Ho).
    set (h1 := <[o := OList (out ++ [x])]> h).
    assert (h1 !! d = Some (ODict (dpre ++ (k, lk) :: dtodo))) as Hd1
        by (unfold h1; rewrite list_lookup_insert_ne by (intros ->; apply Hdo; reflexivity);
            exact Hd).
    assert (h1 !! lk = Some (OList (x :: rest))) as Hlk1
        by (unfold h1; rewrite list_lookup_insert_ne by exact Holk; exact Hlk).
    rewrite (run_bind _ _ _ _ _ (dict_get_run _ _ _ _ _ Hd1 Hget)).
    unfold list_del_head.
    rewrite (run_bind _ _ _ _ _ (read_list_run _ _ _ Hlk1)).
    rewrite write_run by (unfold h1; rewrite length_insert; exact Hlklt).
    eexists. split; [reflexivity|]. exists (dpre ++ (k, lk) :: dtodo).
    cbn [fst snd].
    split; [rewrite list_lookup_insert_ne by (intros ->; apply Hdlk; reflexivity);
            exact Hd1|].
    split.
    { rewrite list_lookup_insert_ne by (intros ->; apply Holk; reflexivity).
      unfold h1. apply list_lookup_insert_eq, Holt. }
    assert (∀ l', l' ≠ lk → l' ≠ o →
                  <[lk := OList rest]> h1 !! l' = h !! l') as Hother.
    { intros l' H1 H2. rewrite list_lookup_insert_ne by (intros ->; apply H1; reflexivity).
      unfold h1. apply list_lookup_insert_ne. intros ->. apply H2. reflexivity. }
    split.
    + apply Forall2_app; [|constructor].
      * eapply spread_lists_frame; [exact Hpre|]. intros l' Hl'.
        apply Hother; intros ->; [apply Hlk_pre, Hl'|].
        apply Ho_notin, elem_of_app. left. exact Hl'.
      * cbn. split; [reflexivity|].
        apply list_lookup_insert_eq. unfold h1. rewrite length_insert. exact Hlklt.
      * eapply spread_lists_frame; [exact Htodo|]. intros l' Hl'.
        apply Hother; intros ->; [apply Hlk_todo, Hl'|].
        apply Ho_notin, elem_of_app. right. right. exact Hl'.
    + unfold OD.values. rewrite fmap_app. cbn [fmap list_fmap snd].
      apply NoDup_cons. split; [rewrite not_elem_of_cons; split; assumption|].
      apply NoDup_cons. split; [exact Ho_notin|].
      apply NoDup_app. split; [exact Hnd_pre|]. split; [exact Hdisj|].
      apply NoDup_cons. split; assumption.
Qed.

(** *** Spread allocation: passes and loop *)

Lemma spread_round_sim d o todo :
  ∀ pre out h,
    OD.wf (pre ++ todo) → spread_state d o h (pre ++ todo, out) →
    ∃ h', for_each (OD.keys todo) (Stored.spread_step d o) h = (Ret tt, h') ∧
          spread_state d o h' (pre ++ round_tails todo, out ++ round_heads todo).
Proof.
  induction todo as [|[k l] todo IH]; intros pre out h Hwf Hst.
  { exists h. cbn. rewrite !app_nil_r in *. auto. }
  assert (k ∉ OD.keys pre) as Hk.
  { unfold OD.wf, OD.keys in *. rewrite fmap_app in Hwf.
    apply NoDup_app in Hwf as (_ & Hd & _). intros Hin.
    apply (Hd k Hin). left. }
  destruct (spread_step_sim d o h k l pre todo out Hk Hst) as (h1 & Hrun & Hst1).
  rewrite (spread_step_at _ _ _ _ _ Hk) in Hst1.
  cbn [OD.keys fmap list_fmap fst for_each]. rewrite (run_bind _ _ _ _ _ Hrun).
  change (todo.*1) with (OD.keys todo).
  destruct l as [|x rest]; cbn [round_tails round_heads].
  - apply IH; [|exact Hst1].
    unfold OD.wf, OD.keys in *. rewrite fmap_app in *. cbn in Hwf.
    apply NoDup_app in Hwf as (H1 & H2 & H3%NoDup_cons).
    apply NoDup_app. split; [exact H1|]. split; [|apply H3].
    intros y Hy Hy'. apply (H2 y Hy). right. exact Hy'.
  - replace (pre ++ (k, rest) :: todo) with ((pre ++ [(k, rest)]) ++ todo) in Hst1
      by (rewrite <- app_assoc; reflexivity).
    destruct (IH (pre ++ [(k, rest)]) (out ++ [x]) h1) as (h2 & Hrun2 & Hst2).
    + unfold OD.wf, OD.keys in *. rewrite <- app_assoc.
      rewrite fmap_app in *. exact Hwf.
    + exact Hst1.
    + exists h2. split; [exact Hrun2|].
      rewrite <- !app_assoc in Hst2. exact Hst2.
Qed.

Lemma spread_state_length d o h sc out :
  spread_state d o h (sc, out) →
  ∃ ditems, h !! d = Some (ODict ditems) ∧ length ditems = length sc ∧
            OD.keys ditems = OD.keys sc ∧ h !! o = Some (OList out).
Proof.
  intros (ditems & Hd & Ho & Hrel & _). exists ditems. cbn in *.
  split; [exact Hd|]. split; [eapply Forall2_length, Hrel|].
  split; [eapply spread_lists_keys, Hrel|exact Ho].
Qed.

Lemma spread_loop_sim d o fuel :
  ∀ sc out h,
    OD.wf sc → (spread_fuel sc ≤ fuel)%nat → spread_state d o h (sc, out) →
    ∃ h', Stored.spread_loop fuel d o h = (Ret tt, h') ∧
          h' !! o = Some (OList (out ++ concat (rounds fuel sc))).
Proof.
  induction fuel as [|fuel IH]; intros sc out h Hwf Hfuel Hst;
    destruct (spread_state_length _ _ _ _ _ Hst) as (ditems & Hd & Hlen & Hkeys & Ho).
  - destruct sc; [|cbn in Hfuel; lia]. exists h.
    cbn [Stored.spread_loop]. rewrite (run_bind _ _ _ _ _ (read_dict_run _ _ _ Hd)).
    rewrite Hlen. cbn. rewrite app_nil_r. auto.
  - cbn [Stored.spread_loop]. rewrite (run_bind _ _ _ _ _ (read_dict_run _ _ _ Hd)).
    rewrite Hlen, Hkeys. destruct sc as [|e sc'] eqn:Hsc.
    { exists h. cbn [length Nat.ltb Nat.leb]. rewrite rounds_nil, app_nil_r. auto. }
    rewrite <- Hsc in *.
    assert ((0 <? length sc)%nat = true) as Hpos by (rewrite Hsc; reflexivity).
    rewrite Hpos.
    destruct (spread_round_sim d o sc [] out h Hwf Hst) as (h1 & Hrun & Hst1).
    cbn [app] in Hst1. rewrite (run_bind _ _ _ _ _ Hrun).
    destruct (IH (round_tails sc) (out ++ round_heads sc) h1)
      as (h2 & Hrun2 & Ho2).
    + apply round_tails_wf, Hwf.
    + pose proof (round_fuel sc). apply Nat.ltb_lt in Hpos. lia.
    + exact Hst1.
    + exists h2. split; [exact Hrun2|].
      cbn [rounds concat]. rewrite app_assoc. exact Ho2.
Qed.

(** Passes made after the lists are exhausted output nothing. *)
Lemma rounds_exhausted {A} n (sc : OD.t (list A)) m :
  (spread_fuel sc ≤ n)%nat → concat (rounds (n + m) sc) = concat (rounds n sc).
Proof.
  revert sc. induction n as [|n IH]; intros sc Hfuel.
  - destruct sc; [|cbn in Hfuel; lia]. rewrite !rounds_nil. reflexivity.
  - cbn [Nat.add rounds concat]. f_equal. destruct sc as [|e sc'] eqn:Hsc.
    + cbn. rewrite !rounds_nil. reflexivity.
    + rewrite <- Hsc in *. apply IH. pose proof (round_fuel sc) as H.
      rewrite Hsc in H at 2. cbn in H. lia.
Qed.

Lemma rounds_rel {A B} (R : A → B → Prop) n :
  ∀ (sc : OD.t (list A)) (sc' : OD.t (list B)),
    Forall2 (λ e e', e.1 = e'.1 ∧ Forall2 R e.2 e'.2) sc sc' →
    Forall2 R (concat (rounds n sc)) (concat (rounds n sc')).
Proof.
  induction n as [|n IH]; intros sc sc' Hrel; cbn [rounds concat]; [constructor|].
  apply Forall2_app.
  - induction Hrel as [|[k l] [k' l'] sc sc' [_ Hl] _ IHrel]; cbn in *;
      [constructor|].
    destruct Hl; [exact IHrel|constructor; assumption].
  - apply IH.
    induction Hrel as [|[k l] [k' l'] sc sc' [Hk Hl] _ IHrel]; cbn in *;
      [constructor|].
    destruct Hl; [exact IHrel|constructor; [split; assumption|exact IHrel]].
Qed.

Lemma spread_fuel_rel {A B} (R : A → B → Prop)
    (sc : OD.t (list A)) (sc' : OD.t (list B)) :
  Forall2 (λ e e', e.1 = e'.1 ∧ Forall2 R e.2 e'.2) sc sc' →
  spread_fuel sc = spread_fuel sc' ∧ OD.keys sc = OD.keys sc'.
Proof.
  unfold spread_fuel, OD.values, OD.keys.
  induction 1 as [|[k l] [k' l'] sc sc' [Hk Hl] _ [IH1 IH2]]; cbn in *;
    [split; reflexivity|].
  rewrite !length_app, (Forall2_length _ _ _ Hl), Hk, IH2.
  split; [lia|reflexivity].
Qed.

(** *** Spread allocation: the first loop *)

Lemma repr_lists_keys h iso sc socks :
  repr_lists h iso sc socks → OD.keys sc = OD.keys socks.
Proof.
  unfold OD.keys. induction 1 as [|[k l] [k' s] sc socks [Hk _] _ IH]; cbn in *;
    [reflexivity|]. rewrite Hk, IH. reflexivity.
Qed.

Lemma spread_init_sim h0 sl iso d o items socks :
  OD.wf socks → h0 !! sl = Some (ODict items) → (length h0 ≤ d)%nat →
  ∀ todo_i todo_s pre_i pre_s cur sc,
    items = pre_i ++ todo_i → socks = pre_s ++ todo_s →
    repr_items (repr_socket h0) pre_i pre_s →
    repr_items (repr_socket h0) todo_i todo_s →
    heap_le h0 cur → spread_state d o cur (sc, []) →
    repr_lists h0 iso sc pre_s →
    ∃ cur' sc',
      for_each (OD.keys todo_i)
               (λ socket,
                  s ← dict_get sl socket;
                  l ← Stored.selected_cores iso s;
                  dict_set d socket l) cur = (Ret tt, cur') ∧
      heap_le h0 cur' ∧ spread_state d o cur' (sc', []) ∧
      repr_lists h0 iso sc' socks.
Proof.
  intros Hwf Hsl Hd. induction todo_i as [|[k skl] todo_i IH];
    intros todo_s pre_i pre_s cur sc Hitems Hsocks Hpre Htodo Hle Hst Hsc.
  { apply Forall2_nil_inv_l in Htodo as ->. rewrite app_nil_r in Hsocks.
    subst socks. exists cur, sc. auto. }
  apply Forall2_cons_inv_l in Htodo as ([k' s] & todo_s' & [Hk Hs] & Htodo & ->).
  cbn in Hk, Hs. subst k'.
  assert (k ∉ OD.keys pre_s) as Hk_s.
  { unfold OD.wf, OD.keys in *. rewrite Hsocks, fmap_app in Hwf.
    apply NoDup_app in Hwf as (_ & Hdisj & _). intros Hin.
    apply (Hdisj k Hin). left. }
  assert (k ∉ OD.keys pre_i) as Hk_i
      by (rewrite (repr_items_keys _ _ _ Hpre); exact Hk_s).
  assert (OD.get k items = Some skl) as Hget.
  { rewrite Hitems, (OD_get_app_fresh _ _ _ Hk_i). cbn. rewrite Z.eqb_refl.
    reflexivity. }
  destruct (selected_cores_run cur h0 iso skl s Hle Hs) as (ls & Hrun & Hls).
  destruct Hst as (ditems & Hdl & Ho & Hrel & Hnd). cbn [fst snd] in *.
  pose proof (lookup_lt_length _ _ _ Hdl) as Hdlt.
  pose proof (lookup_lt_length _ _ _ Ho) as Holt.
  assert (k ∉ OD.keys ditems) as Hk_d.
  { rewrite (spread_lists_keys _ _ _ Hrel), (repr_lists_keys _ _ _ _ Hsc).
    exact Hk_s. }
  assert (∀ l, l ∈ OD.values ditems → (l < length cur)%nat) as Hbound.
  { clear -Hrel. unfold OD.values.
    induction Hrel as [|[k l] e ditems sc [_ Hl] _ IH]; cbn in *.
    - intros l H. inversion H.
    - intros l' [->|H]%elem_of_cons; [eapply lookup_lt_length, Hl|auto]. }
  set (cur1 := cur ++ [OList ls]).
  set (cur2 := <[d := ODict (ditems ++ [(k, length cur)])]> cur1).
  assert (cur1 !! d = Some (ODict ditems)) as Hdl1
      by (apply lookup_app_l_Some, Hdl).
  assert (dict_set d k (length cur) cur1 = (Ret tt, cur2)) as Hset.
  { unfold dict_set. rewrite (dict_write_run _ _ _ (OD.set k (length cur)) Hdl1).
    rewrite (OD_set_fresh _ _ _ Hk_d). reflexivity. }
  assert (∀ l, (l < length cur)%nat → l ≠ d → cur2 !! l = cur !! l) as Hsame.
  { intros l Hl Hne. unfold cur2, cur1.
    rewrite list_lookup_insert_ne by (intros ->; apply Hne; reflexivity).
    apply lookup_app_l, Hl. }
  apply NoDup_cons in Hnd as [Hd_notin Hnd]. apply NoDup_cons in Hnd as [Ho_notin Hnd].
  rewrite not_elem_of_cons in Hd_notin. destruct Hd_notin as [Hdo Hd_vals].
  destruct (IH todo_s' (pre_i ++ [(k, skl)]) (pre_s ++ [(k, s)]) cur2
               (sc ++ [(k, ls)])) as (cur' & sc' & Hrun' & Hle' & Hst' & Hsc').
  - rewrite <- app_assoc. exact Hitems.
  - rewrite <- app_assoc. exact Hsocks.
  - apply Forall2_app; [exact Hpre|]. constructor; [split; auto|constructor].
  - exact Htodo.
  - unfold cur2. apply heap_le_fresh_write; [|exact Hd].
    eapply heap_le_trans; [exact Hle|apply heap_le_app].
  - exists (ditems ++ [(k, length cur)]). cbn [fst snd].
    split; [unfold cur2; apply list_lookup_insert_eq;
            unfold cur1; rewrite length_app; lia|].
    split; [rewrite Hsame by (auto; intros ->; apply Hdo; reflexivity); exact Ho|].
    split.
    + apply Forall2_app.
      * eapply spread_lists_frame; [exact Hrel|]. intros l Hl.
        apply Hsame; [apply Hbound, Hl|]. intros ->. apply Hd_vals, Hl.
      * constructor; [|constructor]. cbn. split; [reflexivity|].
        unfold cur2, cur1. rewrite list_lookup_insert_ne by lia.
        rewrite lookup_app_r by lia. rewrite Nat.sub_diag. reflexivity.
    + unfold OD.values in *. rewrite fmap_app. cbn [fmap list_fmap snd].
      apply NoDup_cons. split.
      { rewrite not_elem_of_cons. split; [exact Hdo|].
        intros [?|Hin]%elem_of_app; [apply Hd_vals; assumption|].
        apply list_elem_of_singleton in Hin. lia. }
      apply NoDup_cons. split.
      { intros [?|Hin]%elem_of_app; [apply Ho_notin; assumption|].
        apply list_elem_of_singleton in Hin. lia. }
      apply NoDup_app. split; [exact Hnd|]. split; [|apply NoDup_singleton].
      intros l Hl Hin. apply list_elem_of_singleton in Hin. subst l.
      apply Hbound in Hl. lia.
  - apply Forall2_app; [exact Hsc|]. constructor; [split; auto|constructor].
  - exists cur', sc'. split; [|auto].
    cbn [OD.keys fmap list_fmap fst for_each]. rewrite bind_run.
    rewrite (run_bind _ _ _ _ _ (dict_get_run _ _ _ _ _ (Hle _ _ Hsl) Hget)).
    rewrite (run_bind _ _ _ _ _ Hrun). fold cur1. rewrite Hset. exact Hrun'.
Qed.

Lemma allocate_spread_run h ploc p iso fuel :
  repr_platform h ploc p → OD.wf (sockets p) →
  (spread_fuel (spread_init (λ _, selected_cores iso) p) ≤ fuel)%nat →
  ∃ h' ls cores,
    Stored.allocate_spread fuel ploc iso h = (Ret (length h), h') ∧
    h' !! length h = Some (OList ls) ∧
    allocate_spread p iso = Some cores ∧
    Forall2 (repr_core h) ls cores.
Proof.
  intros (sl & Hp & items & Hsl & Hitems) Hwf Hfuel.
  set (o := length h). set (d := S (length h)).
  set (h1 := (h ++ [OList []]) ++ [ODict []]).
  assert (heap_le h h1) as Hle1.
  { eapply heap_le_trans; apply heap_le_app. }
  assert (spread_state d o h1 ([], [])) as Hst1.
  { exists []. cbn [fst snd]. unfold h1, d, o. split; [|split; [|split]].
    - rewrite lookup_app_r by (rewrite length_app; cbn; lia).
      rewrite length_app. cbn. replace (S (length h) - (length h + 1))%nat with 0%nat by lia.
      reflexivity.
    - rewrite lookup_app_l by (rewrite length_app; cbn; lia).
      rewrite lookup_app_r by lia. rewrite Nat.sub_diag. reflexivity.
    - constructor.
    - cbn. apply NoDup_cons. split; [rewrite list_elem_of_singleton; lia|].
      apply NoDup_singleton. }
  destruct (spread_init_sim h sl iso d o items (sockets p) Hwf Hsl
              (Nat.le_succ_diag_r _) items (sockets p) [] [] h1 [])
    as (h2 & sc & Hrun2 & Hle2 & Hst2 & Hsc); try reflexivity; try assumption;
    try constructor.
  pose proof (spread_init_spec (λ _, selected_cores iso) p Hwf) as Hinit.
  assert (Forall2 (λ (e : Z * list nat) (e' : Z * list Core),
                     e.1 = e'.1 ∧ Forall2 (repr_core h) e.2 e'.2)
                  sc (spread_init (λ _, selected_cores iso) p)) as Hrel.
  { rewrite Hinit. apply Forall2_fmap_r.
    eapply Forall2_impl; [exact Hsc|]. intros [k l] [k' s] H. exact H. }
  destruct (spread_fuel_rel _ _ _ Hrel) as [Hfuel_eq Hkeys_eq].
  assert (OD.wf sc) as Hwf_sc.
  { unfold OD.wf. rewrite Hkeys_eq. apply spread_init_wf, Hwf. }
  destruct (spread_loop_sim d o fuel sc [] h2 Hwf_sc) as (h3 & Hrun3 & Ho3);
    [lia|exact Hst2|].
  exists h3, (concat (rounds fuel sc)).
  exists (concat (rounds fuel (spread_init (λ _, selected_cores iso) p))).
  split; [|split; [exact Ho3|split]].
  - unfold Stored.allocate_spread.
    rewrite (run_bind _ _ _ _ _ (alloc_run _ h)).
    rewrite (run_bind _ _ _ _ _ (alloc_run _ (h ++ [OList []]))).
    rewrite length_app. cbn [length]. rewrite Nat.add_1_r. fold h1 d o.
    unfold Stored.Platform_sockets.
    rewrite (run_bind _ _ _ _ _ (run_bind _ _ _ _ _ (read_run _ _ _ (Hle1 _ _ Hp)))).
    rewrite (run_bind _ _ _ _ _ (read_dict_run _ _ _ (Hle1 _ _ Hsl))).
    rewrite (run_bind _ _ _ _ _ Hrun2), (run_bind _ _ _ _ _ Hrun3). reflexivity.
  - unfold allocate_spread. rewrite (spread_rounds _ p Hwf). f_equal.
    replace fuel with (spread_fuel (spread_init (λ _, selected_cores iso) p)
                       + (fuel - spread_fuel (spread_init (λ _, selected_cores iso) p)))%nat
      at 1 by lia.
    symmetry. apply rounds_exhausted. lia.
  - apply rounds_rel, Hrel.
Qed.

End StoreRuns.

Lemma repr_platform_mono h h' l p :
  heap_le h h' → repr_platform h l p → repr_platform h' l p.
Proof.
  intros Hle (dl & Hl & Hd). exists dl. split; [apply Hle, Hl|].
  eapply repr_dict_mono; [exact Hle| |exact Hd].
  intros ? ?. apply repr_socket_mono, Hle.
Qed.

Lemma get_cores_general_heap_le fuel self mode isolated (h : list Heap.obj) :
  heap_le h (Stored.get_cores_general fuel self mode isolated h).2.
Proof.
  apply preserves_heap_le.
  apply (triple_get_cores_general (length h) fuel self mode isolated h (le_n _) I).
Qed.

(** On a store that holds the platform [p], each query returns the address
    of a list of the cores that the query on [p] returns, given passes
    enough for the spread loop. *)
Theorem stored_queries_agree h self p mode isolated fuel :
  repr_platform h self p → OD.wf (sockets p) →
  (spread_fuel (spread_init (λ _, selected_cores isolated) p) ≤ fuel)%nat →
  ∃ l h' ls cores,
    Stored.get_cores_general fuel self mode isolated h = (Heap.Ret (Some l), h') ∧
    h' !! l = Some (Heap.OList ls) ∧
    get_cores_general p mode isolated = Some cores ∧
    Forall2 (repr_core h') ls cores.
Proof.
  intros Hp Hwf Hfuel.
  pose proof (get_cores_general_heap_le fuel self mode isolated h) as Hle.
  unfold Stored.get_cores_general, get_cores_general in *.
  set (mode' := if negb _ then _ else _) in *.
  assert (mode' = "packed"%string ∨ mode' = "spread"%string) as Hmode.
  { subst mode'.
    destruct (decide (mode ∈ ["spread"%string; "packed"%string])) as [Hin|Hnin].
    - rewrite (bool_decide_eq_true_2 _ Hin). cbn [negb].
      rewrite !elem_of_cons, elem_of_nil in Hin. tauto.
    - rewrite (bool_decide_eq_false_2 _ Hnin). left. reflexivity. }
  clearbody mode'. destruct Hmode as [-> | ->].
  - change (String.eqb "packed" "packed") with true in *. cbv iota in *.
    destruct (allocate_packed_run h self p isolated Hp)
      as (h' & ls & Hrun & _ & Hl & Hls).
    rewrite (run_bind _ _ _ _ _ Hrun) in Hle |- *. cbn in Hle.
    exists (length h), h', ls, (allocate_packed p isolated).
    repeat split; try assumption.
    eapply Forall2_impl; [exact Hls|]. intros ? ?. apply repr_core_mono, Hle.
  - change (String.eqb "spread" "packed") with false in *.
    change (String.eqb "spread" "spread") with true in *. cbv iota in *.
    destruct (allocate_spread_run h self p isolated fuel Hp Hwf Hfuel)
      as (h' & ls & cores & Hrun & Hl & Hcores & Hls).
    rewrite (run_bind _ _ _ _ _ Hrun) in Hle |- *. cbn in Hle.
    exists (length h), h', ls, cores. repeat split; try assumption.
    eapply Forall2_impl; [exact Hls|]. intros ? ?. apply repr_core_mono, Hle.
Qed.

(** C9: the allocation queries change no object that the store held before
    the call: whatever the mode, the flag and the way the call ends, the
    store it leaves is the store it found followed by the objects the call
    allocated.  Every earlier object (the platform, the dictionaries of
    sockets, cores and CPUs, every core with its pool) is read back as it
    was, and a platform that the store held is held unchanged. *)
Theorem allocation_frame :
  ∀ fuel self mode isolated (h : list Heap.obj),
    let h' := (Stored.get_cores_general fuel self mode isolated h).2 in
    (∃ new, h' = h ++ new) ∧
    (∀ l o, h !! l = Some o → h' !! l = Some o) ∧
    (∀ p, repr_platform h self p → repr_platform h' self p) ∧
    (Stored.get_cores fuel self mode h).2 =
      (Stored.get_cores_general fuel self mode false h).2 ∧
    (Stored.get_isolated_cores fuel self mode h).2 =
      (Stored.get_cores_general fuel self mode true h).2.
Proof.
  intros fuel self mode isolated h h'.
  destruct (triple_get_cores_general (length h) fuel self mode isolated h
              (le_n _) I) as [Hpres _].
  fold h' in Hpres. pose proof (preserves_heap_le _ _ Hpres) as Hle.
  apply preserves_prefix in Hpres.
  split; [eauto|]. split; [exact Hle|]. split; [|split; reflexivity].
  intros p. apply repr_platform_mono, Hle.
Qed.

(** *** Every platform can be stored *)

Section Storing.
Import Heap.
Context {V : Type} (store_value : V → M nat) (R : list obj → nat → V → Prop).
Hypothesis store_value_spec :
  ∀ v h, ∃ l h', store_value v h = (Ret l, h') ∧ heap_le h h' ∧ R h' l v.
Hypothesis R_mono : ∀ h h' l v, heap_le h h' → R h l v → R h' l v.

Lemma store_items_spec (d : OD.t V) h :
  ∃ items h', Layout.store_items store_value d h = (Ret items, h') ∧
              heap_le h h' ∧ repr_items (R h') items d.
Proof.
  revert h. induction d as [|[k v] d IH]; intros h.
  { exists [], h. repeat split; [apply heap_le_refl|constructor]. }
  destruct (store_value_spec v h) as (l & h1 & Hrun1 & Hle1 & Hl).
  destruct (IH h1) as (items & h2 & Hrun2 & Hle2 & Hitems).
  exists ((k, l) :: items), h2. cbn [Layout.store_items].
  rewrite (run_bind _ _ _ _ _ Hrun1), (run_bind _ _ _ _ _ Hrun2).
  split; [reflexivity|]. split; [eapply heap_le_trans; eassumption|].
  constructor; [|exact Hitems]. split; [reflexivity|].
  eapply R_mono; eassumption.
Qed.

Lemma store_dict_spec (d : OD.t V) h :
  ∃ l h', Layout.store_dict store_value d h = (Ret l, h') ∧
          heap_le h h' ∧ repr_dict (R h') h' l d.
Proof.
  destruct (store_items_spec d h) as (items & h1 & Hrun & Hle & Hitems).
  exists (length h1), (h1 ++ [ODict items]). unfold Layout.store_dict.
  rewrite (run_bind _ _ _ _ _ Hrun). split; [reflexivity|].
  split; [eapply heap_le_trans; [exact Hle|apply heap_le_app]|].
  exists items. split.
  - rewrite lookup_app_r by lia. rewrite Nat.sub_diag. reflexivity.
  - eapply repr_items_impl; [|exact Hitems].
    intros l v. apply R_mono, heap_le_app.
Qed.

End Storing.

Lemma store_cpu_spec cpu h :
  ∃ l h', Layout.store_cpu cpu h = (Heap.Ret l, h') ∧
          heap_le h h' ∧ repr_cpu h' l cpu.
Proof.
  exists (length h), (h ++ [Heap.OCPU (cpu_id cpu) (isolated cpu)]).
  split; [reflexivity|]. split; [apply heap_le_app|].
  unfold repr_cpu. rewrite lookup_app_r by lia. rewrite Nat.sub_diag. reflexivity.
Qed.

Lemma store_core_spec c h :
  ∃ l h', Layout.store_core c h = (Heap.Ret l, h') ∧
          heap_le h h' ∧ repr_core h' l c.
Proof.
  destruct (store_dict_spec Layout.store_cpu repr_cpu store_cpu_spec
              repr_cpu_mono (cpus c) h) as (dl & h1 & Hrun & Hle & Hd).
  exists (length h1), (h1 ++ [Heap.OCore (core_id c) (pool c) dl]).
  unfold Layout.store_core. rewrite (run_bind _ _ _ _ _ Hrun).
  split; [reflexivity|]. split; [eapply heap_le_trans; [exact Hle|apply heap_le_app]|].
  exists dl. split.
  - rewrite lookup_app_r by lia. rewrite Nat.sub_diag. reflexivity.
  - eapply repr_dict_mono; [apply heap_le_app| |exact Hd].
    intros ? ?. apply repr_cpu_mono, heap_le_app.
Qed.

Lemma store_socket_spec s h :
  ∃ l h', Layout.store_socket s h = (Heap.Ret l, h') ∧
          heap_le h h' ∧ repr_socket h' l s.
Proof.
  destruct (store_dict_spec Layout.store_core repr_core store_core_spec
              repr_core_mono (cores s) h) as (dl & h1 & Hrun & Hle & Hd).
  exists (length h1), (h1 ++ [Heap.OSocket (socket_id s) dl]).
  unfold Layout.store_socket. rewrite (run_bind _ _ _ _ _ Hrun).
  split; [reflexivity|]. split; [eapply heap_le_trans; [exact Hle|apply heap_le_app]|].
  exists dl. split.
  - rewrite lookup_app_r by lia. rewrite Nat.sub_diag. reflexivity.
  - eapply repr_dict_mono; [apply heap_le_app| |exact Hd].
    intros ? ?. apply repr_core_mono, heap_le_app.
Qed.

(** Laid out in any store, a platform is held by the resulting store. *)
Lemma store_platform_spec p h :
  ∃ l h', Layout.store_platform p h = (Heap.Ret l, h') ∧
          heap_le h h' ∧ repr_platform h' l p.
Proof.
  destruct (store_dict_spec Layout.store_socket repr_socket store_socket_spec
              repr_socket_mono (sockets p) h) as (dl & h1 & Hrun & Hle & Hd).
  exists (length h1), (h1 ++ [Heap.OPlatform dl]).
  unfold Layout.store_platform. rewrite (run_bind _ _ _ _ _ Hrun).
  split; [reflexivity|]. split; [eapply heap_le_trans; [exact Hle|apply heap_le_app]|].
  exists dl. split.
  - rewrite lookup_app_r by lia. rewrite Nat.sub_diag. reflexivity.
  - eapply repr_dict_mono; [apply heap_le_app| |exact Hd].
    intros ? ?. apply repr_socket_mono, heap_le_app.
Qed.

(** *** The queries on a stored platform *)

Example two_sockets_stored_at :
  two_sockets_stored.1 = Heap.Ret 17%nat ∧ length two_sockets_stored.2 = 18%nat.
Proof. split; reflexivity. Qed.

Example stored_spread :
  let h := two_sockets_stored.2 in
  let r := Stored.get_cores_general 6 17 "spread" false h in
  r.1 = Heap.Ret (Some 18%nat) ∧
  Layout.core_ids_at r.2 18 = Some [0; 3; 1; 2] ∧
  (λ l : list Core, core_id <$> l) <$> get_cores_general two_sockets "spread" false
    = Some [0; 3; 1; 2].
Proof. repeat split; vm_compute; reflexivity. Qed.

Example stored_packed_isolated :
  let h := two_sockets_stored.2 in
  let r := Stored.get_isolated_cores 0 17 "packed" h in
  r.1 = Heap.Ret (Some 18%nat) ∧
  Layout.core_ids_at r.2 18 = Some [0; 2; 3] ∧
  (λ l : list Core, core_id <$> l) <$> Platform_get_isolated_cores two_sockets "packed"
    = Some [0; 2; 3].
Proof. repeat split; vm_compute; reflexivity. Qed.

(** Two calls in a row: the second finds the platform as the first did. *)
Example stored_spread_twice :
  let h := two_sockets_stored.2 in
  let r1 := Stored.get_cores_general 6 17 "spread" true h in
  let r2 := Stored.get_cores_general 6 17 "spread" true r1.2 in
  Layout.core_ids_at r1.2 18 = Some [0; 3; 2] ∧
  (∃ l, r2.1 = Heap.Ret (Some l) ∧ Layout.core_ids_at r2.2 l = Some [0; 3; 2]).
Proof. split; [vm_compute; reflexivity|]. eexists. split; vm_compute; reflexivity. Qed.


Lemma two_sockets_held :
  repr_platform two_sockets_stored.2 17 two_sockets.
Proof.
  destruct (store_platform_spec two_sockets []) as (l & h & Hrun & _ & Hrepr).
  unfold two_sockets_stored. rewrite Hrun. cbn [snd].
  assert (Layout.store_platform two_sockets [] = (Heap.Ret l, h)) as Hrun' by exact Hrun.
  vm_compute in Hrun'. injection Hrun' as <- _. exact Hrepr.
Qed.

(** On the store laid out for a platform, the queries return the cores
    that the queries on the platform return. *)
Corollary stored_platform_queries p mode isolated fuel :
  OD.wf (sockets p) →
  (spread_fuel (spread_init (λ _, selected_cores isolated) p) ≤ fuel)%nat →
  ∃ self h l h' ls cores,
    Layout.store_platform p [] = (Heap.Ret self, h) ∧
    Stored.get_cores_general fuel self mode isolated h = (Heap.Ret (Some l), h') ∧
    h' !! l = Some (Heap.OList ls) ∧
    get_cores_general p mode isolated = Some cores ∧
    Forall2 (repr_core h') ls cores.
Proof.
  intros Hwf Hfuel.
  destruct (store_platform_spec p []) as (self & h & Hrun & _ & Hrepr).
  destruct (stored_queries_agree h self p mode isolated fuel Hrepr Hwf Hfuel)
    as (l & h' & ls & cores & H).
  exists self, h, l, h', ls, cores. split; [exact Hrun|exact H].
Qed.

Lemma allocation_frame_witness :
  let h := two_sockets_stored.2 in
  let h' := (Stored.get_cores_general 6 17 "spread" true h).2 in
  (h !! 17%nat = Some (Heap.OPlatform 16) ∧ h' !! 17%nat = Some (Heap.OPlatform 16))
  ∧ (repr_platform h 17 two_sockets ∧ repr_platform h' 17 two_sockets).
Proof.
  pose proof (allocation_frame 6 17 "spread" true two_sockets_stored.2)
    as (_ & Hobj & Hheld & _).
  split; (split; [|first [apply Hobj|apply Hheld]]);
    first [reflexivity|exact two_sockets_held].
Defined.

(** * Further properties *)

(** ** The constructors *)

Lemma sorted_of_Sorted {A} (key : A → Z) (l : list A) :
  Sorted (key_le key) l → sorted key l = l.
Proof.
  induction 1 as [|x l Hl IH Hx]; [reflexivity|].
  cbn [sorted foldr]. fold (sorted key l). rewrite IH.
  destruct Hx as [|y l' Hxy]; cbn [insert_sorted]; [reflexivity|].
  unfold key_le in Hxy. apply Z.leb_le in Hxy. rewrite Hxy. reflexivity.
Qed.

(** X1: a socket built from a dictionary of cores has the given id and holds
    exactly the given items, in ascending order of [core_id]; items that
    are in that order already stay as they are, and without a dictionary the
    socket has no cores. *)
Theorem Socket_init_items sid (d : OD.t Core) :
  OD.wf d →
  socket_id (Socket_init sid (Some d)) = sid ∧
  cores (Socket_init sid (Some d)) ≡ₚ d ∧
  Sorted (key_le (λ pair : Z * Core, core_id pair.2))
         (cores (Socket_init sid (Some d))) ∧
  (Sorted (key_le (λ pair : Z * Core, core_id pair.2)) d →
   cores (Socket_init sid (Some d)) = d) ∧
  cores (Socket_init sid None) = [].
Proof.
  intros Hd. unfold Socket_init. cbn [socket_id cores]. 
  assert ((if truthy d then d else []) = d) as -> by (destruct d; reflexivity).
  assert (OD.of_items (sorted (λ pair : Z * Core, core_id pair.2) d) =
            sorted (λ pair : Z * Core, core_id pair.2) d) as ->.
  { apply OD_of_items_wf. unfold OD.wf, OD.keys in Hd.
    rewrite sorted_perm. exact Hd. }
  split; [reflexivity|]. split; [apply sorted_perm|].
  split; [apply sorted_Sorted|]. split; [apply sorted_of_Sorted|reflexivity].
Qed.

Lemma Socket_init_items_witness :
  let d := [(7, mkCore 7 None []); (2, mkCore 2 None []); (5, mkCore 5 None [])] in
  OD.wf d ∧
  OD.keys (cores (Socket_init 0 (Some d))) = [2; 5; 7] ∧
  cores (Socket_init 0 (Some d)) ≡ₚ d.
Proof.
  assert (OD.wf [(7, mkCore 7 None []); (2, mkCore 2 None []);
                 (5, mkCore 5 None [])]) as Hd by (unfold OD.wf; compute_done).
  split; [exact Hd|]. split; [reflexivity|].
  exact (proj1 (proj2 (Socket_init_items 0 _ Hd))).
Defined.

(** X2: a core built from a dictionary of CPUs has the given id, no pool, and
    holds exactly the given items, in ascending order of [cpu_id]; items
    that are in that order already stay as they are, and without a
    dictionary the core has no CPUs. *)
Theorem Core_init_items cid (d : OD.t CPU) :
  OD.wf d →
  core_id (Core_init cid (Some d)) = cid ∧
  pool (Core_init cid (Some d)) = None ∧
  cpus (Core_init cid (Some d)) ≡ₚ d ∧
  Sorted (key_le (λ pair : Z * CPU, cpu_id pair.2))
         (cpus (Core_init cid (Some d))) ∧
  (Sorted (key_le (λ pair : Z * CPU, cpu_id pair.2)) d →
   cpus (Core_init cid (Some d)) = d) ∧
  cpus (Core_init cid None) = [].
Proof.
  intros Hd. unfold Core_init. cbn [core_id pool cpus]. 
  assert ((if truthy d then d else []) = d) as -> by (destruct d; reflexivity).
  assert (OD.of_items (sorted (λ pair : Z * CPU, cpu_id pair.2) d) =
            sorted (λ pair : Z * CPU, cpu_id pair.2) d) as ->.
  { apply OD_of_items_wf. unfold OD.wf, OD.keys in Hd.
    rewrite sorted_perm. exact Hd. }
  split; [reflexivity|]. split; [reflexivity|]. split; [apply sorted_perm|].
  split; [apply sorted_Sorted|]. split; [apply sorted_of_Sorted|reflexivity].
Qed.

Lemma Core_init_items_witness :
  let d := [(9, mkCPU 9 false); (1, mkCPU 1 true)] in
  OD.wf d ∧
  OD.keys (cpus (Core_init 3 (Some d))) = [1; 9] ∧
  cpus (Core_init 3 (Some d)) ≡ₚ d.
Proof.
  assert (OD.wf [(9, mkCPU 9 false); (1, mkCPU 1 true)]) as Hd
    by (unfold OD.wf; compute_done).
  split; [exact Hd|]. split; [reflexivity|].
  exact (proj1 (proj2 (proj2 (Core_init_items 3 _ Hd)))).
Defined.

(** ** Topology builder: the lines it takes *)

Lemma line_ids_ok line : is_ok (line_ids line) ↔ line_ok line = true.
Proof.
  unfold line_ids, line_ok, is_ok, is_int.
  destruct (PyStr.truthy line && negb (PyStr.startswith "#" line));
    [|split; eauto].
  destruct (PyStr.split "," line) as [|f0 [|f1 [|f2 rest]]];
    cbn [lookup list_lookup from_option mbind result_bind mret result_ret];
    try (split; [intros [? [=]]|discriminate]).
  destruct (PyStr.int f2); cbn [mbind result_bind];
    [|split; [intros [? [=]]|discriminate]].
  destruct (PyStr.int f1); cbn [mbind result_bind];
    [|split; [intros [? [=]]|discriminate]].
  destruct (PyStr.int f0) as [|e] eqn:H0; cbn [mbind result_bind];
    [|split; [intros [? [=]]|discriminate]].
  split; eauto.
Qed.

(** The exception of a line that [parse] does not take: [IndexError] when it
    has fewer than three fields, [ValueError] otherwise. *)
Lemma line_ids_bad line :
  line_ok line = false →
  line_ids line =
    Raise (if (length (PyStr.split "," line) <? 3)%nat
           then IndexError else ValueError).
Proof.
  unfold line_ids, line_ok, is_int.
  destruct (PyStr.truthy line && negb (PyStr.startswith "#" line));
    [|discriminate].
  destruct (PyStr.split "," line) as [|f0 [|f1 [|f2 rest]]];
    cbn [lookup list_lookup from_option mbind result_bind mret result_ret
         length]; try reflexivity.
  assert ((S (S (S (length rest))) <? 3)%nat = false) as ->
    by (apply Nat.ltb_ge; lia).
  destruct (PyStr.int f2) as [|e2] eqn:H2; cbn [mbind result_bind];
    [|intros _; f_equal; eapply int_raise; eassumption].
  destruct (PyStr.int f1) as [|e1] eqn:H1; cbn [mbind result_bind];
    [|intros _; f_equal; eapply int_raise; eassumption].
  destruct (PyStr.int f0) as [|e0] eqn:H0; cbn [mbind result_bind];
    [discriminate|intros _; f_equal; eapply int_raise; eassumption].
Qed.

Lemma add_cpu_ok iso d sid cid pid : is_ok (add_cpu iso d sid cid pid).
Proof.
  destruct (add_cpu_spec iso d sid cid pid) as (d' & H & _). exists d'. exact H.
Qed.

Lemma parse_line_ok iso d line : is_ok (parse_line iso d line) ↔ line_ok line = true.
Proof.
  rewrite <- line_ids_ok. unfold parse_line, is_ok.
  destruct (line_ids line) as [[r|]|e]; cbn [mbind result_bind mret result_ret].
  - split; [eauto|intros _; apply add_cpu_ok].
  - split; eauto.
  - split; intros [? [=]].
Qed.

Lemma parse_lines_ok iso lines :
  ∀ d, is_ok (parse_lines iso lines d) ↔ forallb line_ok lines = true.
Proof.
  induction lines as [|line lines IH]; intros d; cbn [parse_lines forallb].
  { split; [reflexivity|intros _; eexists; reflexivity]. }
  rewrite andb_true_iff, <- (parse_line_ok iso d line).
  destruct (parse_line iso d line) as [d1|e]; cbn [mbind result_bind].
  - rewrite IH. split; [intros H; split; [eexists; reflexivity|exact H]|tauto].
  - split; [intros [? [=]]|intros [[? [=]] _]].
Qed.

Lemma parse_lines_bad iso l1 line l2 :
  ∀ d, forallb line_ok l1 = true → line_ok line = false →
       parse_lines iso (l1 ++ line :: l2) d =
         Raise (if (length (PyStr.split "," line) <? 3)%nat
                then IndexError else ValueError).
Proof.
  induction l1 as [|l l1 IH]; intros d; cbn [app parse_lines forallb].
  - intros _ Hbad. unfold parse_line. rewrite (line_ids_bad line Hbad). reflexivity.
  - intros [Hl Hl1]%andb_true_iff Hbad.
    apply (parse_line_ok iso d) in Hl as [d1 ->]. cbn [mbind result_bind].
    apply IH; assumption.
Qed.

Lemma parse_is_ok text iso :
  is_ok (parse text iso) ↔
    is_ok (parse_lines (match iso with
                        | Some l => if truthy l then l else []
                        | None => []
                        end) (PyStr.split (ascii_of_nat 10) text) []).
Proof.
  unfold parse, is_ok.
  destruct (parse_lines _ _ _); cbn [mbind result_bind mret result_ret].
  - split; eauto.
  - split; intros [? [=]].
Qed.

(** X3: [parse] returns a platform exactly when every line of the text is
    empty, starts with [#], or has at least three comma-separated fields of
    which the first three are integer literals; the list of isolated CPUs
    has no part in it. *)
Theorem parse_accepts text iso :
  is_ok (parse text iso) ↔
    forallb line_ok (PyStr.split (ascii_of_nat 10) text) = true.
Proof. rewrite parse_is_ok. apply parse_lines_ok. Qed.

Lemma parse_accepts_witness :
  is_ok (parse lscpu_sample (Some [1; 5])) ∧
  ¬ is_ok (parse "0,0" None).
Proof.
  split.
  - apply (proj2 (parse_accepts lscpu_sample (Some [1; 5]))). reflexivity.
  - intros H. apply (proj1 (parse_accepts "0,0" None)) in H. discriminate H.
Defined.

(** X4: at the first line that is not empty, not a comment and not three
    integers, [parse] raises: [IndexError] when the line has fewer than
    three fields, [ValueError] otherwise; later lines are not looked at. *)
Theorem parse_first_bad_line text iso l1 line l2 :
  PyStr.split (ascii_of_nat 10) text = l1 ++ line :: l2 →
  forallb line_ok l1 = true →
  line_ok line = false →
  parse text iso =
    Raise (if (length (PyStr.split "," line) <? 3)%nat
           then IndexError else ValueError).
Proof.
  intros Hsplit Hl1 Hbad. unfold parse. rewrite Hsplit.
  rewrite (parse_lines_bad _ l1 line l2 [] Hl1 Hbad). reflexivity.
Qed.

Lemma parse_first_bad_line_witness :
  parse "0,0,0
1,x,0
2" None = Raise ValueError ∧
  parse "0,0,0
1,1
2,x,0" None = Raise IndexError.
Proof.
  split.
  - apply (parse_first_bad_line _ None ["0,0,0"%string] "1,x,0"%string ["2"%string]);
      reflexivity.
  - apply (parse_first_bad_line _ None ["0,0,0"%string] "1,1"%string ["2,x,0"%string]);
      reflexivity.
Defined.

(** X5: a text in which every line is empty or a comment, the empty text
    included, gives a platform without sockets. *)
Theorem parse_no_records text iso :
  forallb line_skipped (PyStr.split (ascii_of_nat 10) text) = true →
  parse text iso = Ok {| sockets := [] |}.
Proof.
  intros H. unfold parse.
  assert (∀ iso' lines d, forallb line_skipped lines = true →
                          parse_lines iso' lines d = Ok d) as Hskip.
  { intros iso' lines d. induction lines as [|l lines IH]; cbn [forallb parse_lines];
      [reflexivity|].
    intros [Hl Hrest]%andb_true_iff. unfold parse_line, line_ids.
    unfold line_skipped in Hl. apply negb_true_iff in Hl. rewrite Hl.
    cbn [mbind result_bind mret result_ret]. auto. }
  rewrite Hskip by exact H. reflexivity.
Qed.

Lemma parse_no_records_witness :
  parse "" None = Ok {| sockets := [] |} ∧
  parse "# CPU,Core,Socket

# end" (Some [0]) = Ok {| sockets := [] |}.
Proof.
  split.
  - apply (parse_no_records "" None). reflexivity.
  - apply (parse_no_records _ (Some [0])). reflexivity.
Defined.

(** ** Topology builder: what the platform holds *)

Lemma snoc_new_elem l x y : y ∈ snoc_new l x ↔ y ∈ l ∨ y = x.
Proof.
  unfold snoc_new. case_bool_decide as Hx.
  - split; [auto|]. intros [H| ->]; assumption.
  - rewrite elem_of_app, list_elem_of_singleton. reflexivity.
Qed.

Lemma snoc_new_NoDup l x : NoDup l → NoDup (snoc_new l x).
Proof.
  intros Hl. unfold snoc_new. case_bool_decide as Hx; [exact Hl|].
  apply NoDup_app. split; [exact Hl|]. split; [|apply NoDup_singleton].
  intros y Hy ->%list_elem_of_singleton. contradiction.
Qed.

Lemma foldl_snoc_new_elem l : ∀ init y,
  y ∈ foldl snoc_new init l ↔ y ∈ init ∨ y ∈ l.
Proof.
  induction l as [|x l IH]; intros init y; cbn [foldl].
  - rewrite elem_of_nil. tauto.
  - rewrite IH, snoc_new_elem, elem_of_cons. tauto.
Qed.

Lemma foldl_snoc_new_NoDup l : ∀ init,
  NoDup init → NoDup (foldl snoc_new init l).
Proof.
  induction l as [|x l IH]; intros init Hinit; cbn [foldl]; [exact Hinit|].
  apply IH, snoc_new_NoDup, Hinit.
Qed.

Lemma first_seen_elem l y : y ∈ first_seen l ↔ y ∈ l.
Proof. unfold first_seen. rewrite foldl_snoc_new_elem, elem_of_nil. tauto. Qed.

Lemma first_seen_NoDup l : NoDup (first_seen l).
Proof. apply foldl_snoc_new_NoDup, NoDup_nil_2. Qed.

Lemma cores_listed_elem recs k ck :
  ck ∈ cores_listed recs k ↔
    ∃ r, r ∈ recs ∧ line_socket r = k ∧ line_core r = ck.
Proof.
  unfold cores_listed. rewrite list_elem_of_fmap. split.
  - intros (r & -> & Hr). apply list_elem_of_In, filter_In in Hr as [Hr Hk].
    exists r. apply list_elem_of_In in Hr. split; [exact Hr|]. split; [lia|reflexivity].
  - intros (r & Hr & Hk & Hck). exists r. split; [auto|].
    apply list_elem_of_In, filter_In. split; [apply list_elem_of_In, Hr|lia].
Qed.

Lemma cpus_listed_elem recs k ck pk :
  pk ∈ cpus_listed recs k ck ↔
    ∃ r, r ∈ recs ∧ line_socket r = k ∧ line_core r = ck ∧ line_cpu r = pk.
Proof.
  unfold cpus_listed. rewrite list_elem_of_fmap. split.
  - intros (r & -> & Hr). apply list_elem_of_In, filter_In in Hr as [Hr Hk].
    exists r. apply list_elem_of_In in Hr. split; [exact Hr|].
    apply andb_true_iff in Hk as [H1 H2]. repeat split; lia.
  - intros (r & Hr & Hk & Hck & Hpk). exists r. split; [auto|].
    apply list_elem_of_In, filter_In. split; [apply list_elem_of_In, Hr|].
    apply andb_true_iff; split; lia.
Qed.

Lemma OD_elem_keys {V} k (v : V) (d : OD.t V) : (k, v) ∈ d → k ∈ OD.keys d.
Proof.
  intros H. unfold OD.keys. apply list_elem_of_fmap. exists (k, v). auto.
Qed.

Lemma OD_keys_nil {V} (d : OD.t V) : OD.keys d = [] → d = [].
Proof. destruct d; [reflexivity|discriminate]. Qed.

Lemma add_cpu_fresh iso d sid cid pid d' :
  sockets_fresh d → add_cpu iso d sid cid pid = Ok d' → sockets_fresh d'.
Proof.
  unfold sockets_fresh, add_cpu. intros Hd.
  pose proof (ensure_Forall sid (Socket_init sid None) d socket_fresh) as Hf1.
  cbv zeta in *.
  set (d1 := if negb (OD.mem sid d)
             then OD.set sid (Socket_init sid None) d else d) in *.
  assert (Forall socket_fresh d1) as Hd1.
  { apply Hf1; [|exact Hd]. split; [reflexivity|]. cbn. constructor. }
  clearbody d1. clear Hf1.
  destruct (OD.get sid d1) as [s|] eqn:Hs;
    cbn [from_option mbind result_bind]; [|discriminate].
  destruct (OD_get_Forall _ _ _ _ Hd1 Hs) as [Hsid Hpools]. cbn in Hsid, Hpools.
  pose proof (ensure_Forall cid (Core_init cid None) (cores s)
                (λ kc : Z * Core, pool kc.2 = None)) as Hf2.
  cbv zeta in *.
  set (sc := if negb (OD.mem cid (cores s))
             then OD.set cid (Core_init cid None) (cores s) else cores s) in *.
  assert (Forall (λ kc : Z * Core, pool kc.2 = None) sc) as Hsc
    by (apply Hf2; [reflexivity|exact Hpools]).
  clearbody sc. clear Hf2.
  destruct (OD.get cid sc) as [c|] eqn:Hc;
    cbn [from_option mbind result_bind mret result_ret]; [|discriminate].
  pose proof (OD_get_Forall _ _ _ _ Hsc Hc) as Hpool. cbn in Hpool.
  intros [= <-]. apply OD_set_Forall; [|exact Hd1].
  split; [exact Hsid|]. cbn [snd cores].
  apply OD_set_Forall; [exact Hpool|exact Hsc].
Qed.

Lemma parse_lines_fresh iso lines :
  ∀ d d', sockets_fresh d → parse_lines iso lines d = Ok d' → sockets_fresh d'.
Proof.
  induction lines as [|line lines IH]; intros d d' Hd; cbn [parse_lines].
  - intros [= <-]. exact Hd.
  - intros (d1 & H1 & H2)%result_bind_ok. eapply IH; [|exact H2].
    unfold parse_line in H1. apply result_bind_ok in H1 as ([r|] & _ & H1).
    + eapply add_cpu_fresh; eauto.
    + injection H1 as <-. exact Hd.
Qed.

(** Everything the loop of [parse] establishes from an empty dictionary. *)
Lemma parse_built text iso p :
  parse text iso = Ok p →
  ∃ recs,
    parse_records (PyStr.split (ascii_of_nat 10) text) = Ok recs ∧
    OD.keys (sockets p) = first_seen (line_socket <$> recs) ∧
    (∀ k, core_keys_of (sockets p) k = first_seen (cores_listed recs k)) ∧
    (∀ k ck, cpu_keys_of (sockets p) k ck = first_seen (cpus_listed recs k ck)) ∧
    keyed_by_id (sockets p) ∧ sockets_fresh (sockets p).
Proof.
  unfold parse. intros (d & Hd & [= <-])%result_bind_ok. cbn [sockets].
  destruct (parse_lines_spec _ _ _ _ Hd)
    as (recs & Hrecs & Hkeys & Hcores & Hcpus & Hkeyed).
  exists recs. repeat split; auto.
  - apply Hkeyed, Forall_nil_2.
  - eapply parse_lines_fresh; [|exact Hd]. apply Forall_nil_2.
Qed.

Lemma parse_shape text iso p :
  parse text iso = Ok p →
  OD.wf (sockets p) ∧
  ∀ k s, (k, s) ∈ sockets p →
    socket_id s = k ∧ cores s ≠ [] ∧ OD.wf (cores s) ∧
    ∀ ck c, (ck, c) ∈ cores s →
      core_id c = ck ∧ pool c = None ∧ cpus c ≠ [] ∧ OD.wf (cpus c) ∧
      cpu_ids c = Core_cpu_ids c ∧
      ∀ pk cpu, (pk, cpu) ∈ cpus c → cpu_id cpu = pk.
Proof.
  intros (recs & _ & Hkeys & Hcores & Hcpus & Hkeyed & Hfresh)%parse_built.
  assert (OD.wf (sockets p)) as Hwf
    by (unfold OD.wf; rewrite Hkeys; apply first_seen_NoDup).
  split; [exact Hwf|]. intros k s Hks.
  pose proof (OD_get_wf _ _ _ Hwf Hks) as Hs.
  pose proof (Hcores k) as Hck. unfold core_keys_of in Hck. rewrite Hs in Hck.
  assert (OD.wf (cores s)) as Hwfs
    by (unfold OD.wf; rewrite Hck; apply first_seen_NoDup).
  destruct (OD_get_Forall _ _ _ _ Hfresh Hs) as [Hsid Hpools].
  cbn [fst snd] in Hsid, Hpools.
  pose proof (OD_get_Forall _ _ _ _ Hkeyed Hs) as Hskeyed.
  cbn [fst snd] in Hskeyed.
  split; [exact Hsid|]. split; [|split; [exact Hwfs|]].
  - intros Hnil. apply OD_elem_keys in Hks. rewrite Hkeys in Hks.
    apply first_seen_elem, list_elem_of_fmap in Hks as (r & Hr1 & Hr2).
    assert (line_core r ∈ first_seen (cores_listed recs k)) as Hin.
    { apply first_seen_elem, cores_listed_elem. exists r. auto. }
    rewrite <- Hck, Hnil in Hin. inversion Hin.
  - intros ck c Hkc.
    pose proof (OD_get_wf _ _ _ Hwfs Hkc) as Hc.
    pose proof (Hcpus k ck) as Hpk. unfold cpu_keys_of in Hpk.
    rewrite Hs, Hc in Hpk.
    destruct (OD_get_Forall _ _ _ _ Hskeyed Hc) as [Hcid Hckeyed].
    cbn [fst snd] in Hcid, Hckeyed.
    pose proof (OD_get_Forall _ _ _ _ Hpools Hc) as Hpool. cbn [snd] in Hpool.
    split; [exact Hcid|]. split; [exact Hpool|].
    split; [|split; [|split]].
    + intros Hnil. apply OD_elem_keys in Hkc. rewrite Hck in Hkc.
      apply first_seen_elem, cores_listed_elem in Hkc as (r & Hr & Hr1 & Hr2).
      assert (line_cpu r ∈ first_seen (cpus_listed recs k ck)) as Hin.
      { apply first_seen_elem, cpus_listed_elem. exists r. auto. }
      rewrite <- Hpk, Hnil in Hin. inversion Hin.
    + unfold OD.wf. rewrite Hpk. apply first_seen_NoDup.
    + unfold cpu_ids, Core_cpu_ids. symmetry. apply keyed_cpu_ids, Hckeyed.
    + intros pk cpu Hcpu. rewrite Forall_forall in Hckeyed.
      apply (Hckeyed (pk, cpu) Hcpu).
Qed.

(** X6: in a platform returned by [parse] no dictionary has a key twice; every
    socket, core and CPU is stored under its own id; no core has a pool; and
    there is no socket without cores and no core without CPUs. *)
Theorem parse_invariants text iso p :
  parse text iso = Ok p →
  OD.wf (sockets p) ∧
  ∀ k s, (k, s) ∈ sockets p →
    socket_id s = k ∧ cores s ≠ [] ∧ OD.wf (cores s) ∧
    ∀ ck c, (ck, c) ∈ cores s →
      core_id c = ck ∧ pool c = None ∧ cpus c ≠ [] ∧ OD.wf (cpus c) ∧
      cpu_ids c = Core_cpu_ids c ∧
      ∀ pk cpu, (pk, cpu) ∈ cpus c → cpu_id cpu = pk.
Proof. apply parse_shape. Qed.

Lemma parse_invariants_witness :
  ∃ p, parse lscpu_sample (Some [1; 3]) = Ok p ∧ OD.wf (sockets p).
Proof.
  assert (∃ p, parse lscpu_sample (Some [1; 3]) = Ok p) as [p Hp]
      by (eexists; vm_compute; reflexivity).
  exists p. split; [exact Hp|].
  exact (proj1 (parse_invariants _ _ _ Hp)).
Defined.

Lemma Platform_get_socket_get p k :
  Platform_get_socket p k = Ok (OD.get k (sockets p)).
Proof.
  unfold Platform_get_socket, OD.mem.
  destruct (OD.get k (sockets p)); reflexivity.
Qed.

(** X20: [get_socket] never raises: it returns the socket stored under the
    id, and [None] exactly when the platform has no such id. *)
Theorem get_socket_total p id :
  is_ok (Platform_get_socket p id) ∧
  (∀ s, Platform_get_socket p id = Ok (Some s) ↔ OD.get id (sockets p) = Some s) ∧
  (∀ s, Platform_get_socket p id = Ok (Some s) → (id, s) ∈ sockets p) ∧
  (Platform_get_socket p id = Ok None ↔ id ∉ OD.keys (sockets p)).
Proof.
  rewrite Platform_get_socket_get. split; [eexists; reflexivity|].
  split; [|split].
  - intros s. split; [intros [= H]; exact H|intros ->; reflexivity].
  - intros s [= H]. apply OD_get_Some_elem, H.
  - rewrite <- OD_get_None. split; [intros [= H]; exact H|intros ->; reflexivity].
Qed.

Lemma get_socket_total_witness :
  (1, mkSocket 1 [(3, mkCore 3 None [(3, mkCPU 3 true)])]) ∈ sockets two_sockets ∧
  Platform_get_socket two_sockets 7 = Ok None.
Proof.
  split.
  - apply (proj1 (proj2 (proj2 (get_socket_total two_sockets 1)))). reflexivity.
  - apply (proj2 (proj2 (proj2 (proj2 (get_socket_total two_sockets 7))))).
    unfold OD.keys. compute_done.
Defined.

Lemma cpu_keys_of_elem d k ck pk :
  pk ∈ cpu_keys_of d k ck ↔
    ∃ s c cpu, OD.get k d = Some s ∧ OD.get ck (cores s) = Some c ∧
               OD.get pk (cpus c) = Some cpu.
Proof.
  unfold cpu_keys_of. split.
  - destruct (OD.get k d) as [s|] eqn:Hs; [|intros H; inversion H].
    destruct (OD.get ck (cores s)) as [c|] eqn:Hc; [|intros H; inversion H].
    intros [cpu Hcpu]%OD_get_key. exists s, c, cpu. auto.
  - intros (s & c & cpu & -> & -> & Hcpu).
    destruct (decide (pk ∈ OD.keys (cpus c))) as [|Hn]; [assumption|].
    apply OD_get_None in Hn. congruence.
Qed.

(** X7: what goes into [parse] can be looked up in the platform and nothing
    else can.  Along the socket, core and CPU ids of any line that is not
    skipped, [get_socket] and the two mappings lead to the CPU with that id,
    isolated exactly when the id is in the given list; every CPU that can be
    reached is named by such a line; and [get_socket] answers [None] exactly
    for the ids that no line gives as a socket. *)
Theorem parse_lookup text iso p recs :
  parse text iso = Ok p →
  parse_records (PyStr.split (ascii_of_nat 10) text) = Ok recs →
  (∀ r, r ∈ recs →
        ∃ s c, Platform_get_socket p (line_socket r) = Ok (Some s) ∧
               OD.get (line_core r) (cores s) = Some c ∧
               OD.get (line_cpu r) (cpus c) =
                 Some {| cpu_id := line_cpu r;
                         isolated := bool_decide (line_cpu r ∈ default [] iso) |})
  ∧ (∀ k s ck c pk cpu,
        Platform_get_socket p k = Ok (Some s) →
        OD.get ck (cores s) = Some c →
        OD.get pk (cpus c) = Some cpu →
        ∃ r, r ∈ recs ∧ line_socket r = k ∧ line_core r = ck ∧ line_cpu r = pk)
  ∧ (∀ k, Platform_get_socket p k = Ok None ↔ k ∉ line_socket <$> recs).
Proof.
  intros Hp Hrecs.
  destruct (parse_built _ _ _ Hp)
    as (recs' & Hrecs' & Hkeys & Hcores & Hcpus & Hkeyed & Hfresh).
  rewrite Hrecs in Hrecs'. injection Hrecs' as <-.
  split; [|split].
  - intros r Hr.
    assert (line_cpu r ∈ cpu_keys_of (sockets p) (line_socket r) (line_core r))
      as (s & c & cpu & Hs & Hc & Hcpu)%cpu_keys_of_elem.
    { rewrite Hcpus. apply first_seen_elem, cpus_listed_elem. exists r. auto. }
    exists s, c. rewrite Platform_get_socket_get. split; [f_equal; exact Hs|].
    split; [exact Hc|]. rewrite Hcpu. f_equal.
    pose proof (OD_get_Forall _ _ _ _ Hkeyed Hs) as Hskeyed.
    destruct (OD_get_Forall _ _ _ _ Hskeyed Hc) as [_ Hckeyed].
    pose proof (OD_get_Forall _ _ _ _ Hckeyed Hcpu) as Hid.
    cbn [fst snd] in Hid.
    assert (cpu_flag_ok (default [] iso) cpu) as Hflag.
    { assert (default [] iso = match iso with Some l => l | None => [] end)
        as -> by (destruct iso; reflexivity).
      apply (parse_flag_ok _ _ _ Hp), Platform_cpus_elem.
      exists s, c. split; [|split]; eapply OD_get_values; eassumption. }
    unfold cpu_flag_ok in Hflag. destruct cpu as [i b]. cbn in *.
    subst. reflexivity.
  - intros k s ck c pk cpu Hs Hc Hcpu. rewrite Platform_get_socket_get in Hs.
    injection Hs as Hs.
    apply cpus_listed_elem, first_seen_elem. rewrite <- Hcpus.
    apply cpu_keys_of_elem. eauto 6.
  - intros k. rewrite Platform_get_socket_get, <- first_seen_elem, <- Hkeys,
      <- OD_get_None.
    split; [intros [= H]; exact H|intros ->; reflexivity].
Qed.

Lemma parse_lookup_witness :
  ∃ s c, Platform_get_socket (mkPlatform
           [(0, mkSocket 0 [(1, mkCore 1 None [(2, mkCPU 2 true)])])]) 0 =
           Ok (Some s) ∧
         OD.get 1 (cores s) = Some c ∧
         OD.get 2 (cpus c) = Some {| cpu_id := 2; isolated := true |}.
Proof.
  assert (parse "2,1,0" (Some [2]) =
            Ok (mkPlatform [(0, mkSocket 0 [(1, mkCore 1 None [(2, mkCPU 2 true)])])]))
    as Hp by reflexivity.
  assert (parse_records (PyStr.split (ascii_of_nat 10) "2,1,0") =
            Ok [mkLineIds 0 1 2]) as Hrecs by reflexivity.
  apply (proj1 (parse_lookup _ _ _ _ Hp Hrecs) (mkLineIds 0 1 2)).
  apply list_elem_of_singleton. reflexivity.
Defined.

(** ** Queries on a platform *)

Lemma filter_concat {A} (f : A → bool) (ls : list (list A)) :
  List.filter f (concat ls) = concat (List.filter f <$> ls).
Proof.
  induction ls as [|l ls IH]; [reflexivity|].
  cbn [concat fmap list_fmap]. rewrite List.filter_app, IH. reflexivity.
Qed.

Lemma filter_complement_perm {A} (f : A → bool) (l : list A) :
  List.filter f l ++ List.filter (λ x, negb (f x)) l ≡ₚ l.
Proof.
  induction l as [|x l IH]; [reflexivity|]. cbn [List.filter].
  destruct (f x); cbn [negb app].
  - constructor. exact IH.
  - rewrite <- Permutation_middle. constructor. exact IH.
Qed.

Lemma filter_sublist {A} (f : A → bool) (l : list A) :
  List.filter f l `sublist_of` l.
Proof.
  induction l as [|x l IH]; [constructor|]. cbn [List.filter].
  destruct (f x); constructor; exact IH.
Qed.

Lemma elem_of_List_filter {A} (f : A → bool) (l : list A) x :
  x ∈ List.filter f l ↔ x ∈ l ∧ f x = true.
Proof. rewrite !list_elem_of_In. apply filter_In. Qed.

Lemma existsb_filter {A} (f : A → bool) (l : list A) :
  existsb f l = true ↔ List.filter f l ≠ [].
Proof.
  induction l as [|x l IH]; cbn [existsb List.filter].
  - split; [discriminate|congruence].
  - destruct (f x); cbn [orb]; [|exact IH]. split; [discriminate|reflexivity].
Qed.

Lemma Platform_get_shared_cores_concat p :
  Platform_get_shared_cores p =
    concat (Socket_get_shared_cores <$> OD.values (sockets p)).
Proof. unfold Platform_get_shared_cores. rewrite foldl_app_concat. reflexivity. Qed.

Lemma Platform_get_cores_from_pool_concat p pl :
  Platform_get_cores_from_pool p pl =
    concat ((λ s, Socket_get_cores_from_pool s pl) <$> OD.values (sockets p)).
Proof.
  unfold Platform_get_cores_from_pool.
  rewrite (foldl_app_concat (λ s, Socket_get_cores_from_pool s pl)). reflexivity.
Qed.

Lemma allocate_packed_isolated_filter p :
  allocate_packed p true = List.filter is_isolated (allocate_packed p false).
Proof.
  rewrite !allocate_packed_concat, filter_concat, <- list_fmap_compose.
  reflexivity.
Qed.

Lemma Platform_get_shared_cores_filter p :
  Platform_get_shared_cores p =
    List.filter (λ c, negb (is_isolated c)) (allocate_packed p false).
Proof.
  rewrite Platform_get_shared_cores_concat, allocate_packed_concat,
    filter_concat, <- list_fmap_compose.
  reflexivity.
Qed.

Lemma existsb_concat {A} (f : A → bool) (ls : list (list A)) :
  existsb (existsb f) ls = existsb f (concat ls).
Proof.
  induction ls as [|l ls IH]; [reflexivity|].
  cbn [existsb concat]. rewrite existsb_app, IH. reflexivity.
Qed.

Lemma Platform_has_isolated_cores_packed p :
  Platform_has_isolated_cores p = existsb is_isolated (allocate_packed p false).
Proof.
  unfold Platform_has_isolated_cores, Socket_has_isolated_cores.
  rewrite allocate_packed_concat, <- existsb_concat.
  induction (OD.values (sockets p)) as [|s l IH]; [reflexivity|].
  cbn [existsb fmap list_fmap]. rewrite IH. reflexivity.
Qed.

(** Whatever the mode, [get_cores_general] returns the cores of the packed
    order, as a list in some order. *)
Lemma get_cores_general_perm p mode iso :
  OD.wf (sockets p) →
  ∃ out, get_cores_general p mode iso = Some out ∧ out ≡ₚ allocate_packed p iso.
Proof.
  intros Hwf.
  assert (∃ out, allocate_spread p iso = Some out ∧ out ≡ₚ allocate_packed p iso)
    as Hspread.
  { unfold allocate_spread. rewrite (spread_rounds _ p Hwf).
    eexists. split; [reflexivity|].
    rewrite (spread_perm _ p _ Hwf (spread_rounds _ p Hwf)).
    rewrite allocate_packed_concat. unfold OD.values.
    rewrite <- list_fmap_compose. reflexivity. }
  unfold get_cores_general. case_bool_decide as Hm; cbn [negb].
  - rewrite !elem_of_cons, elem_of_nil in Hm. destruct Hm as [->|[->|[]]].
    + exact Hspread.
    + eexists. split; reflexivity.
  - eexists. split; reflexivity.
Qed.

(** X8: [has_isolated_cores] answers [True] exactly when the list of isolated
    cores is not empty: on a socket, on a platform in the packed order, and
    on a platform in whatever mode [get_isolated_cores] is asked. *)
Theorem has_isolated_cores_iff p :
  (∀ s, Socket_has_isolated_cores s = true ↔ Socket_get_isolated_cores s ≠ []) ∧
  (Platform_has_isolated_cores p = true ↔ allocate_packed p true ≠ []) ∧
  (OD.wf (sockets p) →
   ∀ mode, ∃ out, Platform_get_isolated_cores p mode = Some out ∧
                  (Platform_has_isolated_cores p = true ↔ out ≠ [])).
Proof.
  assert (Platform_has_isolated_cores p = true ↔ allocate_packed p true ≠ [])
    as Hpacked.
  { rewrite Platform_has_isolated_cores_packed, allocate_packed_isolated_filter.
    apply existsb_filter. }
  split; [intros s; apply existsb_filter|]. split; [exact Hpacked|].
  intros Hwf mode.
  destruct (get_cores_general_perm p mode true Hwf) as (out & Hout & Hperm).
  exists out. split; [exact Hout|]. rewrite Hpacked. split.
  - intros Hne ->. apply Permutation_nil_l in Hperm. auto.
  - intros Hne Hnil. rewrite Hnil in Hperm. apply Permutation_nil_r in Hperm. auto.
Qed.

Lemma has_isolated_cores_iff_witness :
  OD.wf (sockets two_sockets) ∧
  ∃ out, Platform_get_isolated_cores two_sockets "spread" = Some out ∧
         (Platform_has_isolated_cores two_sockets = true ↔ out ≠ []).
Proof.
  assert (OD.wf (sockets two_sockets)) as Hwf by (unfold OD.wf; compute_done).
  split; [exact Hwf|].
  exact (proj2 (proj2 (has_isolated_cores_iff two_sockets)) Hwf "spread"%string).
Defined.

(** X9: the isolated cores and the shared cores of a platform divide its
    cores between them: each of the two lists is the list of all cores, in
    the packed order, with the cores of the other kind left out, and no core
    is in both. *)
Theorem shared_isolated_partition p :
  allocate_packed p true = List.filter is_isolated (allocate_packed p false) ∧
  Platform_get_shared_cores p =
    List.filter (λ c, negb (is_isolated c)) (allocate_packed p false) ∧
  allocate_packed p true ++ Platform_get_shared_cores p ≡ₚ allocate_packed p false ∧
  (length (allocate_packed p true) + length (Platform_get_shared_cores p) =
     length (allocate_packed p false))%nat ∧
  (∀ c, c ∈ Platform_get_shared_cores p → c ∉ allocate_packed p true).
Proof.
  assert (allocate_packed p true ++ Platform_get_shared_cores p
            ≡ₚ allocate_packed p false) as Hperm.
  { rewrite allocate_packed_isolated_filter, Platform_get_shared_cores_filter.
    apply filter_complement_perm. }
  split; [apply allocate_packed_isolated_filter|].
  split; [apply Platform_get_shared_cores_filter|].
  split; [exact Hperm|]. split.
  - rewrite <- Hperm, length_app. reflexivity.
  - intros c. rewrite allocate_packed_isolated_filter,
      Platform_get_shared_cores_filter, !elem_of_List_filter.
    intros [_ H1] [_ H2]. rewrite H2 in H1. discriminate.
Qed.

Lemma shared_isolated_partition_witness :
  mkCore 1 None [(1, mkCPU 1 false)] ∈ Platform_get_shared_cores two_sockets ∧
  mkCore 1 None [(1, mkCPU 1 false)] ∉ allocate_packed two_sockets true.
Proof.
  assert (mkCore 1 None [(1, mkCPU 1 false)] ∈ Platform_get_shared_cores two_sockets)
    as Hin by (apply list_elem_of_singleton; reflexivity).
  split; [exact Hin|].
  exact (proj2 (proj2 (proj2 (proj2 (shared_isolated_partition two_sockets)))) _ Hin).
Defined.

(** X10: the cores of a pool are the cores of the platform that carry this
    pool, in the packed order; two different pools share no core. *)
Theorem get_cores_from_pool_filter p pl :
  Platform_get_cores_from_pool p pl =
    List.filter (λ c, bool_decide (pool c = pl)) (allocate_packed p false) ∧
  Platform_get_cores_from_pool p pl `sublist_of` allocate_packed p false ∧
  (∀ c, c ∈ Platform_get_cores_from_pool p pl ↔
          c ∈ allocate_packed p false ∧ pool c = pl) ∧
  (∀ pl' c, c ∈ Platform_get_cores_from_pool p pl →
            c ∈ Platform_get_cores_from_pool p pl' → pl' = pl).
Proof.
  assert (Platform_get_cores_from_pool p pl =
            List.filter (λ c, bool_decide (pool c = pl)) (allocate_packed p false))
    as Heq.
  { rewrite Platform_get_cores_from_pool_concat, allocate_packed_concat,
      filter_concat, <- list_fmap_compose.
    reflexivity. }
  assert (∀ pl0 c, c ∈ Platform_get_cores_from_pool p pl0 → pool c = pl0) as Hpool.
  { intros pl0 c. rewrite Platform_get_cores_from_pool_concat, elem_of_concat.
    intros (l & Hc & (s & -> & _)%list_elem_of_fmap).
    apply elem_of_List_filter in Hc as [_ Hc]. apply bool_decide_eq_true in Hc.
    exact Hc. }
  split; [exact Heq|]. split; [rewrite Heq; apply filter_sublist|]. split.
  - intros c. rewrite Heq, elem_of_List_filter, bool_decide_eq_true. reflexivity.
  - intros pl' c H1 H2. rewrite <- (Hpool _ _ H1), <- (Hpool _ _ H2). reflexivity.
Qed.

Lemma get_cores_from_pool_filter_witness :
  core_id <$> Platform_get_cores_from_pool pooled_sockets (Some "exclusive"%string)
    = [0; 3] ∧
  mkCore 2 None [(2, mkCPU 2 true)] ∈ allocate_packed pooled_sockets false ∧
  pool (mkCore 2 None [(2, mkCPU 2 true)]) = None.
Proof.
  split; [reflexivity|].
  apply (proj1 (proj1 (proj2 (proj2 (get_cores_from_pool_filter pooled_sockets None)))
                  (mkCore 2 None [(2, mkCPU 2 true)]))).
  apply list_elem_of_singleton. reflexivity.
Defined.

Lemma filter_all {A} (f : A → bool) (l : list A) :
  (∀ x, x ∈ l → f x = true) → List.filter f l = l.
Proof.
  induction l as [|x l IH]; intros H; [reflexivity|]. cbn [List.filter].
  rewrite H by left. rewrite IH; [reflexivity|].
  intros y Hy. apply H. right. exact Hy.
Qed.

Lemma filter_none {A} (f : A → bool) (l : list A) :
  (∀ x, x ∈ l → f x = false) → List.filter f l = [].
Proof.
  induction l as [|x l IH]; intros H; [reflexivity|]. cbn [List.filter].
  rewrite H by left. apply IH. intros y Hy. apply H. right. exact Hy.
Qed.

Lemma allocate_packed_elem p c :
  c ∈ allocate_packed p false ↔
    ∃ s, s ∈ OD.values (sockets p) ∧ c ∈ OD.values (cores s).
Proof.
  rewrite allocate_packed_concat, elem_of_concat. split.
  - intros (l & Hc & (s & -> & Hs)%list_elem_of_fmap). exists s. auto.
  - intros (s & Hs & Hc). exists (selected_cores false s). split; [exact Hc|].
    apply list_elem_of_fmap. exists s. auto.
Qed.

Lemma OD_values_elem {V} (v : V) (d : OD.t V) :
  v ∈ OD.values d ↔ ∃ k, (k, v) ∈ d.
Proof.
  unfold OD.values. rewrite list_elem_of_fmap. split.
  - intros ([k v'] & -> & H). exists k. exact H.
  - intros (k & H). exists (k, v). auto.
Qed.

(** X11: as [parse] hands it over, a platform has all its cores in no pool:
    asked for the pool [None], [get_cores_from_pool] returns every core, and
    asked for a named pool it returns the empty list. *)
Theorem parse_pools text iso p :
  parse text iso = Ok p →
  Platform_get_cores_from_pool p None = allocate_packed p false ∧
  ∀ name, Platform_get_cores_from_pool p (Some name) = [].
Proof.
  intros (recs & _ & _ & _ & _ & _ & Hfresh)%parse_built.
  assert (∀ c, c ∈ allocate_packed p false → pool c = None) as Hpool.
  { intros c (s & [k Hs]%OD_values_elem & [ck Hc]%OD_values_elem)%allocate_packed_elem.
    unfold sockets_fresh in Hfresh. rewrite Forall_forall in Hfresh.
    destruct (Hfresh _ Hs) as [_ Hpools]. rewrite Forall_forall in Hpools.
    apply (Hpools _ Hc). }
  assert (∀ pl, Platform_get_cores_from_pool p pl =
                List.filter (λ c, bool_decide (pool c = pl)) (allocate_packed p false))
    as Heq.
  { intros pl. rewrite Platform_get_cores_from_pool_concat, allocate_packed_concat,
      filter_concat, <- list_fmap_compose.
    reflexivity. }
  split.
  - rewrite Heq. apply filter_all. intros c Hc. apply bool_decide_eq_true, Hpool, Hc.
  - intros name. rewrite Heq. apply filter_none. intros c Hc.
    apply bool_decide_eq_false. rewrite (Hpool c Hc). discriminate.
Qed.

Lemma parse_pools_witness :
  ∃ p, parse lscpu_sample None = Ok p ∧
       Platform_get_cores_from_pool p None = allocate_packed p false.
Proof.
  assert (∃ p, parse lscpu_sample None = Ok p) as [p Hp]
      by (eexists; vm_compute; reflexivity).
  exists p. split; [exact Hp|].
  exact (proj1 (parse_pools _ _ _ Hp)).
Defined.

(** ** Isolation parser: what it accepts *)

Lemma is_ok_bind {A B} (m : result A) (f : A → result B) :
  is_ok (m ≫= f) ↔ ∃ a, m = Ok a ∧ is_ok (f a).
Proof.
  unfold is_ok. destruct m as [a|e]; cbn [mbind result_bind].
  - split; [intros [b Hb]; eauto|]. intros (a' & [= <-] & H). exact H.
  - split; [intros [? [=]]|intros (? & [=] & _)].
Qed.

Lemma token_ok_iff tok cpus :
  is_ok (parse_cpu_token cpus tok) ↔ token_ok tok = true.
Proof.
  split; [|apply token_ok_run].
  unfold token_ok, parse_cpu_token, is_int.
  destruct (negb (PyStr.contains "-" tok)).
  - destruct (PyStr.int tok); [reflexivity|intros [? [=]]].
  - destruct (PyStr.split "-" tok) as [|lo [|hi [|z l]]]; try reflexivity.
    destruct (PyStr.int lo) as [l|]; [|intros [? [=]]].
    destruct (PyStr.int hi) as [h|]; [|intros [? [=]]].
    cbn [mbind result_bind]. unfold PyStr.extend_range.
    destruct (PyStr.range_len l (h + 1) <=? PyStr.maxsize);
      [reflexivity|intros [? [=]]].
Qed.

Lemma tokens_ok_iff l : ∀ cpus,
  is_ok (parse_cpus_loop l cpus) ↔ forallb token_ok l = true.
Proof.
  induction l as [|tok l IH]; intros cpus; cbn [parse_cpus_loop forallb].
  - split; [reflexivity|intros _; eexists; reflexivity].
  - rewrite is_ok_bind, andb_true_iff, <- (token_ok_iff tok cpus). split.
    + intros (cpus' & Htok & Hl). split; [eexists; exact Htok|].
      apply (IH cpus'), Hl.
    + intros [[cpus' Htok] Hl]. exists cpus'. split; [exact Htok|].
      apply IH, Hl.
Qed.

Lemma field_ok_iff f st : is_ok (parse_field st f) ↔ field_ok f = true.
Proof.
  split; [|apply field_ok_run].
  unfold field_ok, field_all, parse_field. destruct st as [i n].
  destruct (PyStr.split "=" f) as [|key [|value [|z l]]]; try reflexivity.
  unfold parse_cpus_from_isolcpus.
  pose proof (tokens_ok_iff (PyStr.split "," value) []) as Htoks.
  destruct (String.eqb key "isolcpus"), (String.eqb key "rcu_nocbs"); cbn [orb];
    try reflexivity; rewrite <- Htoks;
    destruct (parse_cpus_loop (PyStr.split "," value) []);
    cbn [mbind result_bind mret result_ret];
    try (intros _; eexists; reflexivity); intros [? [=]].
Qed.

Lemma fields_ok_iff l : ∀ st,
  is_ok (parse_fields l st) ↔ forallb field_ok l = true.
Proof.
  induction l as [|f l IH]; intros st; cbn [parse_fields forallb].
  - split; [reflexivity|intros _; eexists; reflexivity].
  - rewrite is_ok_bind, andb_true_iff, <- (field_ok_iff f st). split.
    + intros (st' & Hf & Hl). split; [eexists; exact Hf|]. apply (IH st'), Hl.
    + intros [[st' Hf] Hl]. exists st'. split; [exact Hf|]. apply IH, Hl.
Qed.

Lemma isol_nocbs_ok cmdline :
  is_ok (isol_nocbs cmdline) ↔ cmdline_ok cmdline = true.
Proof.
  unfold isol_nocbs, cmdline_ok. rewrite PyStrFacts.split_ws_rstrip.
  apply fields_ok_iff.
Qed.

Lemma parse_isolcpus_ok cmdline :
  is_ok (parse_isolcpus cmdline) ↔ cmdline_ok cmdline = true.
Proof.
  rewrite <- isol_nocbs_ok. unfold parse_isolcpus. rewrite is_ok_bind. split.
  - intros (st & H & _). exists st. exact H.
  - intros [[i n] H]. exists (i, n). split; [exact H|]. eexists. reflexivity.
Qed.

(** Without two-part ranges only [int] can stop the parser. *)
Lemma token_plain_raise tok cpus e :
  token_plain tok = true → parse_cpu_token cpus tok = Raise e →
  e = ValueError.
Proof.
  unfold token_plain, parse_cpu_token.
  destruct (negb (PyStr.contains "-" tok)); cbn [orb].
  - intros _. destruct (PyStr.int tok) eqn:Hi; cbn [mbind result_bind];
      [discriminate|].
    intros [= <-]. eapply int_raise, Hi.
  - destruct (PyStr.split "-" tok) as [|lo [|hi [|z l]]]; discriminate.
Qed.

Lemma tokens_plain_raise l : ∀ cpus e,
  forallb token_plain l = true → parse_cpus_loop l cpus = Raise e →
  e = ValueError.
Proof.
  induction l as [|tok l IH]; intros cpus e; cbn [forallb parse_cpus_loop];
    [discriminate|].
  intros [Htok Hl]%andb_true_iff [H|(cpus' & _ & H)]%result_bind_raise.
  - eapply token_plain_raise; eassumption.
  - eapply IH; eassumption.
Qed.

Lemma field_plain_raise f st e :
  field_all token_plain f = true → parse_field st f = Raise e →
  e = ValueError.
Proof.
  unfold field_all, parse_field. destruct st as [i n].
  destruct (PyStr.split "=" f) as [|key [|value [|z l]]]; try discriminate.
  unfold parse_cpus_from_isolcpus.
  pose proof (tokens_plain_raise (PyStr.split "," value) []) as Htoks.
  destruct (String.eqb key "isolcpus"), (String.eqb key "rcu_nocbs"); cbn [orb];
    try discriminate; intros Hok;
    destruct (parse_cpus_loop (PyStr.split "," value) []) as [r|e'] eqn:Hloop;
    cbn [mbind result_bind mret result_ret]; try discriminate;
    intros [= <-]; apply (Htoks _ Hok eq_refl).
Qed.

Lemma fields_plain_raise l : ∀ st e,
  forallb (field_all token_plain) l = true → parse_fields l st = Raise e →
  e = ValueError.
Proof.
  induction l as [|f l IH]; intros st e; cbn [forallb parse_fields];
    [discriminate|].
  intros [Hf Hl]%andb_true_iff [H|(st' & _ & H)]%result_bind_raise.
  - eapply field_plain_raise; eassumption.
  - eapply IH; eassumption.
Qed.

Lemma parse_isolcpus_plain_raise cmdline e :
  cmdline_plain cmdline = true → parse_isolcpus cmdline = Raise e →
  e = ValueError.
Proof.
  unfold cmdline_plain. intros Hok H. apply parse_isolcpus_raises in H.
  rewrite isol_nocbs_fields in H. eapply fields_plain_raise; eassumption.
Qed.

(** X12: [parse_isolcpus] returns a list only if, in the values of
    [isolcpus] and [rcu_nocbs], every id and every bound of a two-part
    range is an integer literal and no such range has more than
    [sys.maxsize] ids.  On a text without two-part ranges it returns
    exactly when every id is an integer literal, and raises [ValueError]
    otherwise. *)
Theorem parse_isolcpus_accepts cmdline :
  (is_ok (parse_isolcpus cmdline) → cmdline_ok cmdline = true) ∧
  (cmdline_plain cmdline = true →
   (cmdline_ok cmdline = true → is_ok (parse_isolcpus cmdline)) ∧
   (cmdline_ok cmdline = false → parse_isolcpus cmdline = Raise ValueError)).
Proof.
  split; [apply parse_isolcpus_ok|]. intros Hplain.
  split; [apply parse_isolcpus_ok|]. intros Hbad.
  destruct (parse_isolcpus cmdline) as [r|e] eqn:Hrun.
  - assert (is_ok (parse_isolcpus cmdline)) as Hok
      by (rewrite Hrun; eexists; reflexivity).
    apply parse_isolcpus_ok in Hok. congruence.
  - rewrite (parse_isolcpus_plain_raise cmdline e Hplain Hrun). reflexivity.
Qed.

Lemma parse_isolcpus_accepts_witness :
  cmdline_ok "isolcpus=0-3 rcu_nocbs=0-5" = true ∧
  parse_isolcpus "isolcpus=0,1-2-3 rcu_nocbs=1,x" = Raise ValueError ∧
  is_ok (parse_isolcpus "isolcpuz=x rcu_nocbs=0-1-x,2").
Proof.
  split; [|split].
  - apply (proj1 (parse_isolcpus_accepts "isolcpus=0-3 rcu_nocbs=0-5")).
    eexists. vm_compute. reflexivity.
  - apply (proj2 (parse_isolcpus_accepts "isolcpus=0,1-2-3 rcu_nocbs=1,x"));
      vm_compute; reflexivity.
  - apply (proj2 (parse_isolcpus_accepts "isolcpuz=x rcu_nocbs=0-1-x,2"));
      vm_compute; reflexivity.
Defined.

(** ** Isolation parser: ranges *)







(** ** Isolation parser: accumulation *)

Lemma parse_cpus_loop_shift l : ∀ cpus,
  parse_cpus_loop l cpus = (r ← parse_cpus_loop l []; mret (cpus ++ r)).
Proof.
  assert (∀ cpus tok, parse_cpu_token cpus tok =
                      (r ← parse_cpu_token [] tok; mret (cpus ++ r))) as Htok.
  { intros cpus tok. unfold parse_cpu_token.
    destruct (negb (PyStr.contains "-" tok)).
    - destruct (PyStr.int tok); reflexivity.
    - destruct (PyStr.split "-" tok) as [|lo [|hi [|z l']]];
        cbn [mbind result_bind mret result_ret]; rewrite ?app_nil_r; try reflexivity.
      destruct (PyStr.int lo) as [x|]; [|reflexivity].
      destruct (PyStr.int hi) as [y|]; [|reflexivity].
      cbn [mbind result_bind]. unfold PyStr.extend_range.
      destruct (PyStr.range_len x (y + 1) <=? PyStr.maxsize); reflexivity. }
  induction l as [|tok l IH]; intros cpus; cbn [parse_cpus_loop].
  - cbn. rewrite app_nil_r. reflexivity.
  - rewrite (Htok cpus tok).
    destruct (parse_cpu_token [] tok) as [r|e]; cbn [mbind result_bind mret result_ret];
      [|reflexivity].
    rewrite (IH (cpus ++ r)), (IH r).
    destruct (parse_cpus_loop l []) as [r'|e]; cbn [mbind result_bind mret result_ret];
      [|reflexivity].
    rewrite app_assoc. reflexivity.
Qed.

Lemma parse_field_shift f i0 n0 :
  parse_field (i0, n0) f =
    ('(i, n) ← parse_field ([], []) f; mret (i0 ++ i, n0 ++ n)).
Proof.
  unfold parse_field.
  destruct (PyStr.split "=" f) as [|key [|value [|z l]]];
    cbn [mbind result_bind mret result_ret]; rewrite ?app_nil_r; try reflexivity.
  destruct (String.eqb key "isolcpus"), (String.eqb key "rcu_nocbs");
    destruct (parse_cpus_from_isolcpus (PyStr.split "," value));
    cbn [mbind result_bind mret result_ret app]; rewrite ?app_nil_r; reflexivity.
Qed.

Lemma parse_fields_shift l : ∀ i0 n0,
  parse_fields l (i0, n0) =
    ('(i, n) ← parse_fields l ([], []); mret (i0 ++ i, n0 ++ n)).
Proof.
  induction l as [|f l IH]; intros i0 n0; cbn [parse_fields].
  - cbn. rewrite !app_nil_r. reflexivity.
  - rewrite (parse_field_shift f i0 n0).
    destruct (parse_field ([], []) f) as [[i n]|e];
      cbn [mbind result_bind mret result_ret]; [|reflexivity].
    rewrite (IH (i0 ++ i) (n0 ++ n)), (IH i n).
    destruct (parse_fields l ([], [])) as [[i' n']|e];
      cbn [mbind result_bind mret result_ret]; [|reflexivity].
    rewrite !app_assoc. reflexivity.
Qed.

Lemma isol_nocbs_join a b :
  isol_nocbs (a +:+ " " +:+ b) =
    ('(i1, n1) ← isol_nocbs a; '(i2, n2) ← isol_nocbs b;
     mret (i1 ++ i2, n1 ++ n2)).
Proof.
  rewrite !isol_nocbs_fields, split_ws_join, parse_fields_app.
  destruct (parse_fields (PyStr.split_ws a) ([], [])) as [[i1 n1]|e];
    cbn [mbind result_bind]; [|reflexivity].
  apply parse_fields_shift.
Qed.

(** X14: the ids of two boot-parameter texts add up when the texts are
    joined by a space: each of the two lists that [parse_isolcpus] collects
    is the list of the first text followed by the list of the second, so a
    key that is given twice contributes both of its values; the ids
    returned are those of either [rcu_nocbs] list that are in neither
    [isolcpus] list, provided one of these is not empty.  The joined text
    raises as soon as one of the two does. *)
Theorem parse_isolcpus_join a b :
  (∀ i1 n1 i2 n2,
      isol_nocbs a = Ok (i1, n1) → isol_nocbs b = Ok (i2, n2) →
      isol_nocbs (a +:+ " " +:+ b) = Ok (i1 ++ i2, n1 ++ n2) ∧
      ∃ l, parse_isolcpus (a +:+ " " +:+ b) = Ok l ∧ NoDup l ∧
           ∀ x, x ∈ l ↔ ((x ∈ n1 ∨ x ∈ n2) ∧ (x ∉ i1) ∧ (x ∉ i2) ∧ (i1 ++ i2 ≠ [])))
  ∧ (is_ok (parse_isolcpus (a +:+ " " +:+ b)) ↔
       is_ok (parse_isolcpus a) ∧ is_ok (parse_isolcpus b)).
Proof.
  split.
  - intros i1 n1 i2 n2 Ha Hb.
    assert (isol_nocbs (a +:+ " " +:+ b) = Ok (i1 ++ i2, n1 ++ n2)) as Hab
      by (rewrite isol_nocbs_join, Ha, Hb; reflexivity).
    split; [exact Hab|]. rewrite (parse_isolcpus_unfold _ _ _ Hab).
    eexists. split; [reflexivity|]. unfold list_of_set.
    split; [apply NoDup_remove_dups|]. intros x. rewrite elem_of_remove_dups.
    destruct (truthy (i1 ++ i2)) eqn:Hi; cbn [andb].
    + apply truthy_true_iff in Hi.
      destruct (truthy (n1 ++ n2)) eqn:Hn.
      * rewrite list_elem_of_filter, !elem_of_app. tauto.
      * apply truthy_false_iff in Hn. apply app_eq_nil in Hn as [-> ->].
        rewrite !elem_of_nil. tauto.
    + apply truthy_false_iff in Hi. rewrite elem_of_nil. tauto.
  - rewrite !parse_isolcpus_ok, <- !isol_nocbs_ok, isol_nocbs_join, is_ok_bind.
    split.
    + intros ([i1 n1] & Ha & Hrest). split; [eexists; exact Ha|].
      apply is_ok_bind in Hrest as (st & Hb & _). eexists. exact Hb.
    + intros [[[i1 n1] Ha] [[i2 n2] Hb]]. exists (i1, n1). split; [exact Ha|].
      rewrite Hb. eexists. reflexivity.
Qed.

Lemma parse_isolcpus_join_witness :
  isol_nocbs ("isolcpus=0 rcu_nocbs=1-2" +:+ " " +:+ "rcu_nocbs=0,5 isolcpus=2") =
    Ok ([0] ++ [2], [1; 2] ++ [0; 5]).
Proof.
  exact (proj1 (proj1 (parse_isolcpus_join "isolcpus=0 rcu_nocbs=1-2"
                          "rcu_nocbs=0,5 isolcpus=2")
                  [0] [1; 2] [2] [0; 5] eq_refl eq_refl)).
Defined.

(** ** Isolated cores of a parsed platform *)

Lemma parse_core_isolated_iff text iso p c :
  parse text iso = Ok p →
  c ∈ allocate_packed p false →
  is_isolated c = true ↔ ∀ i, i ∈ cpu_ids c → i ∈ default [] iso.
Proof.
  intros Hp (s & [k Hs]%OD_values_elem & [ck Hc]%OD_values_elem)%allocate_packed_elem.
  destruct (parse_shape _ _ _ Hp) as [_ Hshape].
  destruct (Hshape k s Hs) as (_ & _ & _ & Hcores).
  destruct (Hcores ck c Hc) as (_ & _ & Hne & Hwf & Hids & Hkeyed).
  assert (∀ cpu, cpu ∈ Core_cpus c →
                 isolated cpu = bool_decide (cpu_id cpu ∈ default [] iso)) as Hflag.
  { intros cpu Hcpu.
    assert (default [] iso = match iso with Some l => l | None => [] end)
      as -> by (destruct iso; reflexivity).
    apply (parse_flag_ok _ _ _ Hp), Platform_cpus_elem.
    exists s, c. split; [|split; [|exact Hcpu]]; apply OD_values_elem; eauto. }
  rewrite (is_isolated_forall c Hwf), Hids. unfold Core_cpu_ids. split.
  - intros [_ H] i (cpu & -> & Hcpu)%list_elem_of_fmap.
    specialize (H cpu Hcpu). rewrite (Hflag cpu Hcpu) in H.
    apply bool_decide_eq_true in H. exact H.
  - intros H. split; [exact Hne|]. intros cpu Hcpu. rewrite (Hflag cpu Hcpu).
    apply bool_decide_eq_true, H, list_elem_of_fmap. exists cpu. auto.
Qed.

(** X15: in a platform returned by [parse] a core is isolated exactly when
    every CPU id that it holds is in the list of isolated CPUs; without such
    a list, or with an empty one, no core is isolated and
    [has_isolated_cores] answers [False]. *)
Theorem parse_isolated_cores text iso p :
  parse text iso = Ok p →
  (∀ c, c ∈ allocate_packed p false →
        (is_isolated c = true ↔ ∀ i, i ∈ cpu_ids c → i ∈ default [] iso)) ∧
  (default [] iso = [] →
   allocate_packed p true = [] ∧ Platform_has_isolated_cores p = false ∧
   Platform_get_shared_cores p = allocate_packed p false).
Proof.
  intros Hp. split; [intros c Hc; apply (parse_core_isolated_iff _ _ _ _ Hp Hc)|].
  intros Hiso.
  assert (∀ c, c ∈ allocate_packed p false → is_isolated c = false) as Hnone.
  { intros c Hc. apply not_true_iff_false.
    rewrite (parse_core_isolated_iff _ _ _ _ Hp Hc), Hiso. intros H.
    pose proof Hc as (s & [k Hs]%OD_values_elem & [ck Hkc]%OD_values_elem)%allocate_packed_elem.
    destruct (parse_shape _ _ _ Hp) as [_ Hshape].
    destruct (Hshape k s Hs) as (_ & _ & _ & Hcores).
    destruct (Hcores ck c Hkc) as (_ & _ & Hne & _).
    unfold cpu_ids in H. destruct (cpus c) as [|[pk cpu] d]; [congruence|].
    specialize (H pk (list_elem_of_here _ _)). inversion H. }
  assert (allocate_packed p true = []) as Hempty.
  { rewrite allocate_packed_isolated_filter. apply filter_none, Hnone. }
  split; [exact Hempty|]. split.
  - rewrite Platform_has_isolated_cores_packed. apply not_true_iff_false.
    rewrite existsb_filter, <- allocate_packed_isolated_filter, Hempty. auto.
  - rewrite Platform_get_shared_cores_filter. apply filter_all.
    intros c Hc. rewrite (Hnone c Hc). reflexivity.
Qed.

Lemma parse_isolated_cores_witness :
  ∃ p, parse lscpu_sample None = Ok p ∧
       allocate_packed p true = [] ∧ Platform_has_isolated_cores p = false ∧
       Platform_get_shared_cores p = allocate_packed p false.
Proof.
  assert (∃ p, parse lscpu_sample None = Ok p) as [p Hp]
      by (eexists; vm_compute; reflexivity).
  exists p. split; [exact Hp|].
  exact (proj2 (parse_isolated_cores _ None _ Hp) eq_refl).
Defined.

(** ** Discovery *)

Lemma discover_inv cmdline lscpu_output p :
  discover cmdline lscpu_output = Ok p →
  ∃ isol nocbs l,
    isol_nocbs cmdline = Ok (isol, nocbs) ∧
    parse lscpu_output (Some l) = Ok p ∧
    ∀ x, x ∈ l ↔ (x ∈ nocbs ∧ (x ∉ isol) ∧ isol ≠ []).
Proof.
  unfold discover. intros (l & Hl & Hp)%result_bind_ok.
  destruct (isol_nocbs cmdline) as [[isol nocbs]|e] eqn:Hst.
  - exists isol, nocbs, l. split; [reflexivity|]. split; [exact Hp|].
    rewrite (parse_isolcpus_unfold _ _ _ Hst) in Hl. injection Hl as <-.
    intros x. unfold list_of_set. rewrite elem_of_remove_dups.
    destruct (truthy isol) eqn:Hi; cbn [andb].
    + apply truthy_true_iff in Hi. destruct (truthy nocbs) eqn:Hn.
      * rewrite list_elem_of_filter. tauto.
      * apply truthy_false_iff in Hn. subst nocbs. rewrite !elem_of_nil. tauto.
    + apply truthy_false_iff in Hi. rewrite elem_of_nil. tauto.
  - apply parse_isolcpus_raises in Hst. congruence.
Qed.

(** X16: in a discovered platform a CPU is isolated exactly when its id is
    among the [rcu_nocbs] ids of the boot parameters and not among the
    [isolcpus] ids, of which there must be at least one; so a platform has
    isolated cores only if the boot parameters give ids under both keys. *)
Theorem discover_isolated cmdline lscpu_output p :
  discover cmdline lscpu_output = Ok p →
  ∃ isol nocbs,
    isol_nocbs cmdline = Ok (isol, nocbs) ∧
    (∀ cpu, cpu ∈ Platform_cpus p →
            (isolated cpu = true ↔
               cpu_id cpu ∈ nocbs ∧ (cpu_id cpu ∉ isol) ∧ isol ≠ [])) ∧
    (Platform_has_isolated_cores p = true → isol ≠ [] ∧ nocbs ≠ []).
Proof.
  intros (isol & nocbs & l & Hst & Hp & Hl)%discover_inv.
  exists isol, nocbs. split; [exact Hst|].
  assert (∀ cpu, cpu ∈ Platform_cpus p →
                 (isolated cpu = true ↔
                    cpu_id cpu ∈ nocbs ∧ (cpu_id cpu ∉ isol) ∧ isol ≠ [])) as Hcpu.
  { intros cpu Hcpu. pose proof (parse_flag_ok _ _ _ Hp cpu Hcpu) as Hflag.
    unfold cpu_flag_ok in Hflag. rewrite Hflag, bool_decide_eq_true. apply Hl. }
  split; [exact Hcpu|].
  rewrite Platform_has_isolated_cores_packed. intros Hex.
  apply existsb_exists in Hex as (c & Hc%list_elem_of_In & Hiso).
  pose proof Hc as (s & Hs & Hcs)%allocate_packed_elem.
  assert (∃ cpu, cpu ∈ Core_cpus c ∧ isolated cpu = true) as (cpu & Hin & Hcpuiso).
  { unfold is_isolated, Core_cpus in *.
    destruct (cpus c) as [|[pk cpu] d]; [discriminate|].
    cbn in Hiso. rewrite Z.eqb_refl in Hiso.
    apply andb_true_iff in Hiso as [Hcpu0 _].
    exists cpu. split; [left|exact Hcpu0]. }
  assert (cpu ∈ Platform_cpus p) as Hp'
    by (apply Platform_cpus_elem; exists s, c; auto).
  apply (Hcpu cpu Hp') in Hcpuiso as (Hn & _ & Hi).
  split; [exact Hi|]. intros ->. inversion Hn.
Qed.

Lemma discover_isolated_witness :
  ∃ p isol nocbs,
    discover "ro isolcpus=0 rcu_nocbs=1,3" lscpu_sample = Ok p ∧
    isol_nocbs "ro isolcpus=0 rcu_nocbs=1,3" = Ok (isol, nocbs) ∧
    (∀ cpu, cpu ∈ Platform_cpus p →
            (isolated cpu = true ↔
               cpu_id cpu ∈ nocbs ∧ (cpu_id cpu ∉ isol) ∧ isol ≠ [])).
Proof.
  assert (∃ p, discover "ro isolcpus=0 rcu_nocbs=1,3" lscpu_sample = Ok p)
    as [p Hp] by (eexists; vm_compute; reflexivity).
  destruct (discover_isolated _ _ _ Hp) as (isol & nocbs & Hst & Hcpu & _).
  exists p, isol, nocbs. split; [exact Hp|]. split; [exact Hst|exact Hcpu].
Defined.

Lemma discover_ok cmdline lscpu_output :
  is_ok (discover cmdline lscpu_output) ↔
    is_ok (parse_isolcpus cmdline) ∧
    forallb line_ok (PyStr.split (ascii_of_nat 10) lscpu_output) = true.
Proof.
  unfold discover. rewrite is_ok_bind. split.
  - intros (l & Hl & Hp). split; [eexists; exact Hl|].
    apply parse_is_ok, parse_lines_ok in Hp. exact Hp.
  - intros [[l Hl] Hlines]. exists l. split; [exact Hl|].
    apply parse_is_ok, parse_lines_ok, Hlines.
Qed.

(** X17: [discover] returns a platform exactly when [parse_isolcpus] returns
    for the boot parameters and every line of the topology text is accepted
    by [parse].  An exception of [parse_isolcpus] is the exception of
    [discover], whatever the topology text is; when [parse_isolcpus]
    returns, the exception is the one of the first bad topology line. *)
Theorem discover_accepts cmdline lscpu_output :
  (is_ok (discover cmdline lscpu_output) ↔
     is_ok (parse_isolcpus cmdline) ∧
     forallb line_ok (PyStr.split (ascii_of_nat 10) lscpu_output) = true) ∧
  (∀ e, parse_isolcpus cmdline = Raise e →
        discover cmdline lscpu_output = Raise e) ∧
  (∀ l1 line l2,
      is_ok (parse_isolcpus cmdline) →
      PyStr.split (ascii_of_nat 10) lscpu_output = l1 ++ line :: l2 →
      forallb line_ok l1 = true → line_ok line = false →
      discover cmdline lscpu_output =
        Raise (if (length (PyStr.split "," line) <? 3)%nat
               then IndexError else ValueError)).
Proof.
  split; [apply discover_ok|]. split.
  - intros e He. unfold discover. rewrite He. reflexivity.
  - intros l1 line l2 [l Hl] Hsplit Hl1 Hbad. unfold discover.
    rewrite Hl. cbn [mbind result_bind].
    unfold parse. rewrite Hsplit.
    rewrite (parse_lines_bad _ l1 line l2 [] Hl1 Hbad). reflexivity.
Qed.

Lemma discover_accepts_witness :
  discover "isolcpus=a" "0,0,0" = Raise ValueError ∧
  discover "isolcpus=1" "0,0,0
1,1" = Raise IndexError.
Proof.
  split.
  - apply (proj1 (proj2 (discover_accepts "isolcpus=a" "0,0,0"))).
    vm_compute. reflexivity.
  - apply (proj2 (proj2 (discover_accepts "isolcpus=1" "0,0,0
1,1")) ["0,0,0"%string] "1,1"%string []);
      [eexists; vm_compute; reflexivity|vm_compute; reflexivity..].
Defined.

(** ** Dictionaries for serialization *)

Lemma CPU_as_dict_inj cpu1 cpu2 : CPU_as_dict cpu1 = CPU_as_dict cpu2 → cpu1 = cpu2.
Proof.
  destruct cpu1, cpu2. unfold CPU_as_dict. cbn. intros [= -> ->]. reflexivity.
Qed.

Lemma cons_eq_inv {A} (x y : A) (l l' : list A) :
  x :: l = y :: l' → x = y ∧ l = l'.
Proof. intros H. split; congruence. Qed.

Lemma CPU_as_dict_fmap_inj (l1 l2 : list CPU) :
  CPU_as_dict <$> l1 = CPU_as_dict <$> l2 → l1 = l2.
Proof.
  revert l2. induction l1 as [|x l1 IH]; intros [|y l2]; cbn [fmap list_fmap];
    try discriminate; [reflexivity|].
  intros [Hx Hl]%cons_eq_inv.
  rewrite (CPU_as_dict_inj _ _ Hx), (IH _ Hl). reflexivity.
Qed.

(** Two dictionaries that store every value under the key the value gives
    are equal when their values are. *)
Lemma keyed_values_inj {V} (key : V → Z) (d1 d2 : OD.t V) :
  Forall (λ kv : Z * V, key kv.2 = kv.1) d1 →
  Forall (λ kv : Z * V, key kv.2 = kv.1) d2 →
  OD.values d1 = OD.values d2 → d1 = d2.
Proof.
  unfold OD.values. intros H1. revert d2.
  induction H1 as [|[k1 v1] d1 Hk1 _ IH]; intros d2 H2; destruct H2 as [|[k2 v2] d2 Hk2 H2];
    cbn; try discriminate; [reflexivity|].
  intros [= -> Hd]. cbn in Hk1, Hk2. rewrite <- Hk1, <- Hk2, (IH d2 H2 Hd).
  reflexivity.
Qed.

Lemma Core_as_dict_inv b c1 c2 :
  Core_as_dict b c1 = Core_as_dict b c2 →
  core_id c1 = core_id c2 ∧ OD.values (cpus c1) = OD.values (cpus c2) ∧
  (b = true → pool c1 = pool c2).
Proof.
  unfold Core_as_dict. destruct b; cbn [app].
  - intros [= Hid Hcpus Hpool]. split; [exact Hid|].
    split; [apply CPU_as_dict_fmap_inj, Hcpus|]. intros _.
    destruct (pool c1), (pool c2); congruence.
  - intros [= Hid Hcpus]. split; [exact Hid|].
    split; [apply CPU_as_dict_fmap_inj, Hcpus|discriminate].
Qed.

Lemma Core_as_dict_keyed_inj (d1 d2 : OD.t Core) :
  Forall core_keyed d1 → Forall core_keyed d2 →
  Core_as_dict true <$> OD.values d1 = Core_as_dict true <$> OD.values d2 →
  d1 = d2.
Proof.
  unfold OD.values. intros H1. revert d2.
  induction H1 as [|[k1 c1] d1 [Hk1 Hc1] _ IH]; intros d2 H2;
    destruct H2 as [|[k2 c2] d2 [Hk2 Hc2] H2]; cbn [fmap list_fmap snd];
    try discriminate; [reflexivity|].
  intros [Heq Hd]%cons_eq_inv. cbn in Hk1, Hk2, Hc1, Hc2.
  apply Core_as_dict_inv in Heq as (Hid & Hcpus & Hpool).
  specialize (Hpool eq_refl).
  pose proof (keyed_values_inj cpu_id _ _ Hc1 Hc2 Hcpus) as Hcpus'.
  assert (c1 = c2) as -> by (destruct c1, c2; cbn in *; congruence).
  rewrite <- Hk1, <- Hk2, (IH d2 H2). { reflexivity. }
  unfold OD.values. exact Hd.
Qed.

(** X18: [as_dict] with pools loses nothing of a socket whose cores and CPUs
    are stored under their own ids: two such sockets with the same
    dictionary are the same socket. *)
Theorem Socket_as_dict_injective s1 s2 :
  socket_keyed s1 → socket_keyed s2 →
  Socket_as_dict true s1 = Socket_as_dict true s2 → s1 = s2.
Proof.
  unfold socket_keyed, Socket_as_dict. intros H1 H2 [= Hid Hcores].
  pose proof (Core_as_dict_keyed_inj _ _ H1 H2 Hcores) as Heq.
  destruct s1, s2. cbn in *. congruence.
Qed.

Lemma Socket_as_dict_injective_witness :
  let s := mkSocket 0 [(0, mkCore 0 None [(0, mkCPU 0 true)]);
                       (1, mkCore 1 None [(1, mkCPU 1 false)])] in
  socket_keyed s ∧ s = s.
Proof.
  assert (socket_keyed (mkSocket 0 [(0, mkCore 0 None [(0, mkCPU 0 true)]);
                                    (1, mkCore 1 None [(1, mkCPU 1 false)])]))
    as Hs.
  { unfold socket_keyed. cbn.
    repeat constructor. }
  split; [exact Hs|].
  exact (Socket_as_dict_injective _ _ Hs Hs eq_refl).
Defined.

(** X19: [as_dict] without pools gives the same dictionary whatever the pools
    of the cores are, while [as_dict] with pools tells them apart: changing
    the pool of any core changes the dictionary. *)
Theorem Socket_as_dict_pools f s :
  Socket_as_dict false (map_pools f s) = Socket_as_dict false s ∧
  (Socket_as_dict true (map_pools f s) = Socket_as_dict true s →
   ∀ c, c ∈ OD.values (cores s) → f c = pool c).
Proof.
  unfold Socket_as_dict, map_pools, OD.values. cbn [socket_id cores]. split.
  - do 5 f_equal. rewrite <- !list_fmap_compose. apply list_fmap_ext.
    intros i [k c] _. reflexivity.
  - intros [= Heq] c (kc & -> & Hc)%list_elem_of_fmap. revert Heq Hc.
    generalize (cores s). intros d. induction d as [|[k c] d IH]; cbn.
    + intros _ H. inversion H.
    + intros [Hc Hd]%cons_eq_inv [->|Hin]%elem_of_cons.
      * apply Core_as_dict_inv in Hc as (_ & _ & Hpool). apply Hpool. reflexivity.
      * apply IH; [exact Hd|exact Hin].
Qed.

Lemma Socket_as_dict_pools_witness :
  let s := mkSocket 0 [(0, mkCore 0 (Some "shared"%string) [(0, mkCPU 0 true)])] in
  Socket_as_dict false (map_pools (λ _, None) s) = Socket_as_dict false s ∧
  Socket_as_dict true (map_pools pool s) = Socket_as_dict true s ∧
  ∀ c, c ∈ OD.values (cores s) → pool c = pool c.
Proof.
  split; [apply Socket_as_dict_pools|]. split; [reflexivity|].
  apply (proj2 (Socket_as_dict_pools pool
                  (mkSocket 0 [(0, mkCore 0 (Some "shared"%string)
                                   [(0, mkCPU 0 true)])]))).
  reflexivity.
Defined.
